(** * SignSpeak: the sign buffer, its debounce timer and the gesture table

    A shallow embedding of [src/services/geminiService.js] (the module-level
    sign buffer, [addSignToBuffer], [clearSignBuffer], [getSignBuffer],
    [translateSignSequence]) and of [recognizeSign] from
    [src/services/signRecognition.js].

    JavaScript arrays are objects with identity: [signBuffer.push] mutates
    the array the module variable points to, [[...signBuffer]] allocates a
    new one, and [signBuffer = []] rebinds the variable.  The embedding keeps
    that distinction with a small store of arrays addressed by allocation
    order.  Timers ([setTimeout]/[clearTimeout]) and the continuation of the
    [await] are entries of an explicit task queue; every call of the caller's
    callback is recorded in a log. *)

From Stdlib Require Import ZArith String List Lia QArith.
From stdpp Require Import base option list strings.
Import ListNotations.
Local Open Scope string_scope.
Local Open Scope list_scope.
Local Open Scope Z_scope.

(** ** The store of arrays *)

Module Store.

Abbreviation loc := nat.

(** Every array allocated so far; an array's address is its position. *)
Abbreviation heap := (list (list string)).

(** A new array object, as created by [[]] or by a spread [[...a]]. *)
Definition alloc (a : list string) (h : heap) : loc * heap :=
  (length h, h ++ [a]).

(** The elements of the array stored at [l]. *)
Definition deref (h : heap) (l : loc) : list string :=
  default [] (h !! l).

(** [a.push(x)]: in-place update of the array at [l]. *)
Definition push (l : loc) (x : string) (h : heap) : heap :=
  alter (fun a => a ++ [x]) l h.

(** [a.join(sep)] for an array of strings. *)
Definition join (sep : string) (a : list string) : string :=
  String.concat sep a.

(** Not a function of the source but the spec's wording of the direct
    translation, "the tokens joined by single spaces", written out on its
    own for [join] to be compared with: the first token, then, for each
    further token in order, one space and that token. *)
Definition joined_by_single_spaces (tokens : list string) : string :=
  match tokens with
  | [] => EmptyString
  | first :: others =>
      fold_left (fun text token => (text ++ " " ++ token)%string) others
        first
  end.

(** [a[i] === s] for a string [s]; an index out of range reads
    [undefined], which is never strictly equal to a string. *)
Definition index_is (a : list string) (i : nat) (s : string) : bool :=
  match a !! i with
  | Some x => String.eqb x s
  | None => false
  end.

End Store.

(** ** signRecognition.js *)

Module SignRecognition.

(** The fields [recognizeSign] reads from its argument. *)
Record features := {
  extendedCount : Z;
  thumbExtended : bool;
  indexExtended : bool;
  middleExtended : bool;
  ringExtended : bool;
  pinkyExtended : bool
}.

(** The returned object; [name] is missing from the two results whose
    [sign] is [null]. *)
Record recognition := {
  sign : option string;
  name : option string;
  confidence : Q
}.

Definition unknown : recognition :=
  {| sign := None; name := None; confidence := 0 |}.

Definition known (s n : string) (c : Q) : recognition :=
  {| sign := Some s; name := Some n; confidence := c |}.

(** [recognizeSign(features)]; [None] is a falsy argument. *)
Definition recognizeSign (arg : option features) : recognition :=
  match arg with
  | None => unknown
  | Some f =>
      let thumb := thumbExtended f in
      let index := indexExtended f in
      let middle := middleExtended f in
      let ring := ringExtended f in
      let pinky := pinkyExtended f in
      if (extendedCount f =? 0)%Z then known "STOP" "Stop" (85 # 100)
      else if thumb && negb index && negb middle && negb ring && negb pinky
      then known "YES" "Yes" (9 # 10)
      else if negb thumb && index && negb middle && negb ring && negb pinky
      then known "ONE" "One (1)" (85 # 100)
      else if index && middle && negb ring && negb pinky
      then known "PEACE" "Peace" (85 # 100)
      else if thumb && index && middle && negb ring && negb pinky
      then known "THREE" "Three (3)" (85 # 100)
      else if negb thumb && index && middle && ring && pinky
      then known "FOUR" "Four (4)" (85 # 100)
      else if thumb && index && middle && ring && pinky
      then known "HELLO" "Hello" (85 # 100)
      else if (extendedCount f =? 1)%Z && thumb
      then known "YES" "Yes" (7 # 10)
      else if (5 <=? extendedCount f)%Z
      then known "HELLO" "Hello" (7 # 10)
      else unknown
  end.

End SignRecognition.

(** ** geminiService.js *)

Module GeminiService.
Import Store.

(** What [catch (error)] can bind: [null]/[undefined], or a value whose
    [message] property can be read ([None] when that property is
    [undefined], as for a thrown string). *)
Inductive thrown :=
| ThrownNullish
| ThrownValue (message : option string).

(** How the request to the generative model ends: [response.text()] yields a
    string, or some step of the [try] block throws. *)
Inductive outcome :=
| Responded (text : string)
| Threw (e : thrown).

(** The model's reaction to one request: how long it takes, in ms, and
    how it ends. *)
Record reply := { latency : nat; answer : outcome }.

(** An own property of a result object that may be missing. *)
Inductive property (A : Type) :=
| Absent
| Present (v : A).
Arguments Absent {A}.
Arguments Present {A} v.

(** The object handed to the callback.  [error] holds [error.message]:
    [Present None] is a property whose value is [undefined]. *)
Record result := {
  success : bool;
  translation : string;
  originalSigns : loc;
  displaySigns : property loc;
  method : string;
  error : property (option string)
}.

(** Settlement of the promise returned by an [async] function. *)
Inductive completion :=
| Fulfilled (r : result)
| RejectedTypeError.

(** The caller's callback is a function value of the host page; it is
    identified by a number. *)
Abbreviation callback := nat.

(** What waits in the event loop.  [Timeout] is a timer set by
    [setTimeout]: the handle it returned (a positive number, so
    [if (bufferTimer)] holds once a timer was set), the time it is due, and
    what its closure captured.  [Awaiting] is the rest of the timer
    callback, suspended at [await translateSignSequence(...)] until the
    request has ended. *)
Inductive task :=
| Timeout (handle : positive) (due : Z) (cb : callback) (useGemini : bool)
| Awaiting (due : Z) (cb : callback) (signsToTranslate : loc) (o : outcome).

(** What an observer of the module sees, newest entry first.  [Called]
    records the callback, the time, its argument and what [getSignBuffer()]
    would have returned at that moment. *)
Inductive obs :=
| Accepted (t : Z) (signName : string)
| Rejected (t : Z) (signName : string)
| Cleared (t : Z)
| Flushed (t : Z) (signsToTranslate : list string)
| Called (t : Z) (cb : callback) (r : result) (live : list string)
| Unhandled (t : Z).

(** The module-level variables [signBuffer], [lastSignTime], [bufferTimer],
    together with the store, the pending tasks of the event loop, the next
    timer handle and the log. *)
Record world := {
  store : heap;
  signBuffer : loc;
  lastSignTime : Z;
  bufferTimer : option positive;
  tasks : list task;
  nextHandle : positive;
  log : list obs
}.

(** Declared by the module and read nowhere: the code below writes 3000
    and 4000 out. *)
Definition BUFFER_TIMEOUT : Z := 3000.
Definition MIN_SIGN_INTERVAL : Z := 800.

(** Module initialisation: [let signBuffer = []], [let bufferTimer = null],
    [let lastSignTime = 0]. *)
Definition init : world :=
  {| store := [[]]; signBuffer := 0%nat; lastSignTime := 0;
     bufferTimer := None; tasks := []; nextHandle := 1%positive; log := [] |}.

(** The live contents of [signBuffer]. *)
Definition buffer (w : world) : list string := deref (store w) (signBuffer w).

Definition is_timeout (k : task) : bool :=
  match k with Timeout _ _ _ _ => true | Awaiting _ _ _ _ => false end.

Definition timeouts (w : world) : list task :=
  List.filter is_timeout (tasks w).

(** [clearTimeout(id)] removes the timer with that handle, if it is still
    pending; it does not touch anything else. *)
Definition survives (id : positive) (k : task) : bool :=
  match k with
  | Timeout h _ _ _ => negb (Pos.eqb h id)
  | Awaiting _ _ _ _ => true
  end.

Definition clearTimeout (id : positive) (q : list task) : list task :=
  List.filter (survives id) q.

(** [[...signBuffer]]: a new array with the current elements. *)
Definition spread_buffer (w : world) : loc * world :=
  let '(l, h) := alloc (buffer w) (store w) in
  (l, {| store := h; signBuffer := signBuffer w;
         lastSignTime := lastSignTime w; bufferTimer := bufferTimer w;
         tasks := tasks w; nextHandle := nextHandle w; log := log w |}).

(** One more entry in the log. *)
Definition note (e : obs) (w : world) : world :=
  {| store := store w; signBuffer := signBuffer w;
     lastSignTime := lastSignTime w; bufferTimer := bufferTimer w;
     tasks := tasks w; nextHandle := nextHandle w; log := e :: log w |}.

(** [addSignToBuffer(signName, callback, useGemini = false)] called when
    [Date.now()] reads [now]; the clock of the timers is taken to agree
    with it, so the timer set here is due at [now + 4000].  An omitted
    [useGemini] is [None].  The result is the address of the returned array
    and the state afterwards. *)
Definition addSignToBuffer (now : Z) (signName : string) (cb : callback)
    (useGemini : option bool) (w : world) : loc * world :=
  let useGemini := default false useGemini in
  let b := buffer w in
  if (0 <? length b)%nat && index_is b (length b - 1) signName
     && (now - lastSignTime w <? 3000)
  then spread_buffer (note (Rejected now signName) w)
  else if (0 <? length b)%nat && index_is b (length b - 1) signName
  then spread_buffer (note (Rejected now signName) w)
  else
    let h := push (signBuffer w) signName (store w) in
    let q := match bufferTimer w with
             | Some id => clearTimeout id (tasks w)
             | None => tasks w
             end in
    let id := nextHandle w in
    spread_buffer
      {| store := h; signBuffer := signBuffer w;
         lastSignTime := now; bufferTimer := Some id;
         tasks := q ++ [Timeout id (now + 4000) cb useGemini];
         nextHandle := Pos.succ id;
         log := Accepted now signName :: log w |}.

(** [clearSignBuffer()]; the time only goes into the log. *)
Definition clearSignBuffer (now : Z) (w : world) : world :=
  let '(l, h) := alloc [] (store w) in
  {| store := h; signBuffer := l;
     lastSignTime := lastSignTime w; bufferTimer := bufferTimer w;
     tasks := match bufferTimer w with
              | Some id => clearTimeout id (tasks w)
              | None => tasks w
              end;
     nextHandle := nextHandle w; log := Cleared now :: log w |}.

(** [getSignBuffer()]. *)
Definition getSignBuffer (w : world) : loc * world := spread_buffer w.

Definition nl : string := String (Ascii.ascii_of_nat 10) EmptyString.

(** The template literal sent to the model. *)
Definition prompt (signs : list string) : string :=
  String.concat nl
    [ "You are a sign language translator. Convert these American Sign Language (ASL) signs into a natural, grammatically correct English sentence.";
      EmptyString;
      String.append "Signs detected (in order): " (join ", " signs);
      EmptyString;
      "Rules:";
      "1. Produce ONE clear, natural sentence";
      "2. Add proper grammar (ASL doesn't have 'is', 'are', etc.)";
      "3. If signs don't form a complete thought, make the best interpretation";
      "4. Keep it concise (under 20 words)";
      "5. Do NOT explain, just translate";
      EmptyString;
      "Natural English translation:" ].

Section Host.

(** [String.prototype.trim], and the generative model behind
    [genAI.getGenerativeModel(...).generateContent(prompt)]: asked at some
    time with some prompt, it answers after some delay. *)
Variable trim : string -> string.
Variable generateContent : Z -> string -> reply.

(** [translateSignSequence(signs)] from the point where the awaited request
    has ended with [o]; [h] is the store at that point. *)
Definition translateSignSequence (h : heap) (signs : loc) (o : outcome)
    : completion :=
  match o with
  | Responded text =>
      Fulfilled {| success := true; translation := trim text;
                   originalSigns := signs; displaySigns := Absent;
                   method := "gemini-context"; error := Absent |}
  | Threw e =>
      let translation := join " " (deref h signs) in
      match e with
      | ThrownNullish => RejectedTypeError
      | ThrownValue message =>
          Fulfilled {| success := false; translation := translation;
                       originalSigns := signs; displaySigns := Absent;
                       method := "fallback-direct";
                       error := Present message |}
      end
  end.

(** The function passed to [setTimeout], run at time [t]. *)
Definition onTimeout (t : Z) (cb : callback) (useGemini : bool) (w : world)
    : world :=
  if (0 <? length (buffer w))%nat then
    let '(signsToTranslate, w1) := spread_buffer w in
    let '(fresh, h) := alloc [] (store w1) in
    let w2 := {| store := h; signBuffer := fresh;
                 lastSignTime := lastSignTime w1;
                 bufferTimer := bufferTimer w1; tasks := tasks w1;
                 nextHandle := nextHandle w1;
                 log := Flushed t (deref h signsToTranslate) :: log w1 |} in
    if useGemini then
      let r := generateContent t (prompt (deref h signsToTranslate)) in
      {| store := h; signBuffer := fresh;
         lastSignTime := lastSignTime w2; bufferTimer := bufferTimer w2;
         tasks := tasks w2 ++ [Awaiting (t + Z.of_nat (latency r)) cb
                                 signsToTranslate (answer r)];
         nextHandle := nextHandle w2; log := log w2 |}
    else
      let translation := join " " (deref h signsToTranslate) in
      note (Called t cb
              {| success := true; translation := translation;
                 originalSigns := signsToTranslate;
                 displaySigns := Present signsToTranslate;
                 method := "direct"; error := Absent |}
              (buffer w2)) w2
  else w.

(** The rest of that function after [await translateSignSequence(...)]. *)
Definition onSettled (t : Z) (cb : callback) (signsToTranslate : loc)
    (o : outcome) (w : world) : world :=
  match translateSignSequence (store w) signsToTranslate o with
  | Fulfilled r =>
      note (Called t cb
              {| success := success r; translation := translation r;
                 originalSigns := originalSigns r;
                 displaySigns := Present signsToTranslate;
                 method := method r; error := error r |}
              (buffer w)) w
  | RejectedTypeError => note (Unhandled t) w
  end.

(** *** The event loop *)

Inductive call :=
| Add (signName : string) (cb : callback) (useGemini : option bool)
| Clear
| Get.

Definition invoke (t : Z) (c : call) (w : world) : world :=
  match c with
  | Add signName cb useGemini => snd (addSignToBuffer t signName cb useGemini w)
  | Clear => clearSignBuffer t w
  | Get => snd (getSignBuffer w)
  end.

Definition dequeue (i : nat) (w : world) : world :=
  {| store := store w; signBuffer := signBuffer w;
     lastSignTime := lastSignTime w; bufferTimer := bufferTimer w;
     tasks := delete i (tasks w); nextHandle := nextHandle w;
     log := log w |}.

(** The loop takes the [i]-th pending task off the queue and runs it. *)
Definition run_task (t : Z) (i : nat) (w : world) : world :=
  match tasks w !! i with
  | Some (Timeout _ _ cb useGemini) => onTimeout t cb useGemini (dequeue i w)
  | Some (Awaiting _ cb signs o) => onSettled t cb signs o (dequeue i w)
  | None => w
  end.

(** Any interleaving of calls and task runs, at any times. *)
Inductive steps (w : world) : world -> Prop :=
| steps_refl : steps w w
| steps_call t c w' : steps w w' -> steps w (invoke t c w')
| steps_task t i w' : steps w w' -> steps w (run_task t i w').

Definition reachable (w : world) : Prop := steps init w.

(** The timed loop: a task runs exactly when it is due, the earliest
    first, the first queued among equals. *)
Definition due_of (k : task) : Z :=
  match k with Timeout _ d _ _ => d | Awaiting d _ _ _ => d end.

Fixpoint earliest (q : list task) : option (nat * Z) :=
  match q with
  | [] => None
  | k :: q' =>
      match earliest q' with
      | Some (i, d) => if d <? due_of k then Some (S i, d)
                       else Some (0%nat, due_of k)
      | None => Some (0%nat, due_of k)
      end
  end.

Fixpoint drain (fuel : nat) (target : Z) (w : world) : world :=
  match fuel with
  | O => w
  | S n =>
      match earliest (tasks w) with
      | Some (i, d) => if d <=? target then drain n target (run_task d i w)
                       else w
      | None => w
      end
  end.

Definition weight (q : list task) : nat :=
  foldr (fun k n => ((if is_timeout k then 2 else 1) + n)%nat) 0%nat q.

(** Let time pass until [target] with no call from outside. *)
Definition elapse (target : Z) (w : world) : world :=
  drain (weight (tasks w)) target w.

(** A schedule of calls, each made at its time after the tasks due by then
    have run. *)
Definition run (sched : list (Z * call)) (w : world) : world :=
  fold_left (fun w tc => invoke (fst tc) (snd tc) (elapse (fst tc) w)) sched w.


(** *** Reading the log *)

(** The tokens accepted since the last flush or clear, oldest first. *)
Fixpoint pending_tokens (l : list obs) : list string :=
  match l with
  | [] => []
  | Accepted _ s :: l' => pending_tokens l' ++ [s]
  | Flushed _ _ :: _ => []
  | Cleared _ :: _ => []
  | _ :: l' => pending_tokens l'
  end.

(** The most recently accepted sign and the time it was accepted. *)
Fixpoint last_accepted (l : list obs) : option (Z * string) :=
  match l with
  | [] => None
  | Accepted t s :: _ => Some (t, s)
  | _ :: l' => last_accepted l'
  end.

Definition last_accept_time (l : list obs) : Z :=
  match last_accepted l with Some (t, _) => t | None => 0 end.

Definition is_flushed (e : obs) : bool :=
  match e with Flushed _ _ => true | _ => false end.

Definition is_called (e : obs) : bool :=
  match e with Called _ _ _ _ => true | _ => false end.

(** Entries that neither add a token nor start a new generation. *)
Definition quiet (e : obs) : bool :=
  match e with
  | Rejected _ _ | Called _ _ _ _ | Unhandled _ => true
  | _ => false
  end.

(** The flushes recorded in a log, newest first. *)
Definition flushes (l : list obs) : list obs := List.filter is_flushed l.

(** The deliveries to callbacks recorded in a log, newest first. *)
Definition deliveries (l : list obs) : list obs := List.filter is_called l.

(** Every flush in the log carries exactly the tokens accepted between it
    and the flush or clear before it, and at least one. *)
Fixpoint flushes_exact (l : list obs) : Prop :=
  match l with
  | [] => True
  | Flushed _ snap :: l' =>
      snap = pending_tokens l' /\ snap <> [] /\ flushes_exact l'
  | _ :: l' => flushes_exact l'
  end.

Definition no_adjacent_repeat (a : list string) : Prop :=
  forall (i : nat) (x y : string),
    a !! i = Some x -> a !! S i = Some y -> x <> y.

(** [signBuffer.length > 0 && signBuffer[signBuffer.length - 1] === signName] *)
Definition repeats_last (b : list string) (signName : string) : bool :=
  (0 <? length b)%nat && index_is b (length b - 1) signName.

(** At most one timer is pending, it is the one [bufferTimer] names, it is
    due 4000 ms after the last accepted sign, and it is pending exactly
    when the buffer holds something. *)
Definition timer_ok (w : world) : Prop :=
  match timeouts w with
  | [] => buffer w = []
  | [Timeout h d _ _] =>
      bufferTimer w = Some h /\ d = lastSignTime w + 4000 /\ buffer w <> []
  | _ => False
  end.

(** An array other than the live buffer, in a store where the live buffer
    is allocated. *)
Definition detached (l : loc) (w : world) : Prop :=
  (signBuffer w < length (store w))%nat /\ (l < length (store w))%nat
  /\ l <> signBuffer w.

Record Inv (w : world) : Prop := {
  inv_valid : (signBuffer w < length (store w))%nat;
  inv_tokens : buffer w = pending_tokens (log w);
  inv_norep : no_adjacent_repeat (buffer w);
  inv_timer : timer_ok w;
  inv_log : flushes_exact (log w)
}.

(** The array at [l] is the snapshot some flush took. *)
Definition backed (w : world) (l : loc) : Prop :=
  detached l w /\ exists t, In (Flushed t (deref (store w) l)) (log w).

(** Every translation in flight and every delivery made so far carries the
    snapshot of a flush. *)
Definition all_backed (w : world) : Prop :=
  (forall d cb l o, In (Awaiting d cb l o) (tasks w) -> backed w l)
  /\ (forall t cb r live,
        In (Called t cb r live) (log w) -> backed w (originalSigns r)).


End Host.

End GeminiService.

(** ** A host to run the module on *)

Module SampleHost.
Import GeminiService.

Definition is_space (c : Ascii.ascii) : bool :=
  let n := Ascii.nat_of_ascii c in
  (Nat.eqb n 32 || ((9 <=? n)%nat && (n <=? 13)%nat))%bool.

Fixpoint trim_start (s : string) : string :=
  match s with
  | EmptyString => EmptyString
  | String c r => if is_space c then trim_start r else s
  end.

Fixpoint trim_end (s : string) : string :=
  match s with
  | EmptyString => EmptyString
  | String c r =>
      match trim_end r with
      | EmptyString => if is_space c then EmptyString else String c EmptyString
      | r' => String c r'
      end
  end.

(** [trim] on strings whose white space is ASCII. *)
Definition trim (s : string) : string := trim_end (trim_start s).

(** A model that answers every prompt after 120 ms. *)
Definition answering (t : Z) (p : string) : reply :=
  {| latency := 120; answer := Responded "  Please stop. " |}.

(** A model whose every request fails after 30 ms. *)
Definition failing (t : Z) (p : string) : reply :=
  {| latency := 30; answer := Threw (ThrownValue (Some "fetch failed")) |}.

End SampleHost.

(** ** The buffer as the front end uses it *)

Module Usage.
Import Store GeminiService.

(** [Translator.jsx] calls [addSignToBuffer(signData.sign,
    handleTranslation, false)] for every detected sign and
    [clearSignBuffer()] on reset and on unmount: it never asks for the
    model. *)
Definition direct_call (c : call) : bool :=
  match c with
  | Add _ _ useGemini => negb (default false useGemini)
  | Clear => true
  | Get => true
  end.

Definition is_awaiting (k : task) : bool := negb (is_timeout k).

(** Translations asked for and not yet settled. *)
Definition in_flight (w : world) : nat :=
  length (List.filter is_awaiting (tasks w)).

Definition is_unhandled (e : obs) : bool :=
  match e with Unhandled _ => true | _ => false end.

(** Rejections of the timer callback's promise that nothing handles. *)
Definition unhandled (l : list obs) : list obs := List.filter is_unhandled l.

(** Flushes that have been answered or are waiting for their answer. *)
Definition settled (w : world) : nat :=
  (length (deliveries (log w)) + length (unhandled (log w)) + in_flight w)%nat.

(** A log in which every flush is followed at once, at the same time, by a
    successful direct delivery of its snapshot, and nothing else is ever
    delivered or lost. *)
Fixpoint paired (l : list obs) : Prop :=
  match l with
  | [] => True
  | Called t _ r live :: Flushed t' snap :: l' =>
      t = t' /\ live = [] /\ success r = true /\ method r = "direct"
      /\ translation r = join " " snap /\ error r = Absent /\ paired l'
  | Called _ _ _ _ :: _ => False
  | Flushed _ _ :: _ => False
  | Unhandled _ :: _ => False
  | _ :: l' => paired l'
  end.

(** Only timers armed without the model. *)
Definition all_direct (q : list task) : Prop :=
  forall k, In k q -> exists h d cb, k = Timeout h d cb false.

Section Host.

Variable trim : string -> string.
Variable generateContent : Z -> string -> reply.

(** The states reached when every call is one the front end makes. *)
Inductive reachable_direct : world -> Prop :=
| direct_init : reachable_direct init
| direct_invoke t c w :
    direct_call c = true -> reachable_direct w ->
    reachable_direct (invoke t c w)
| direct_task t i w :
    reachable_direct w ->
    reachable_direct (run_task trim generateContent t i w).

End Host.

End Usage.

(** ** Strings of ASCII characters *)

Module JsText.

Definition code (c : Ascii.ascii) : nat := Ascii.nat_of_ascii c.

Definition is_ascii (c : Ascii.ascii) : bool := (code c <? 128)%nat.

Definition is_upper (c : Ascii.ascii) : bool :=
  ((65 <=? code c) && (code c <=? 90))%nat.

Definition is_lower (c : Ascii.ascii) : bool :=
  ((97 <=? code c) && (code c <=? 122))%nat.

Definition is_digit (c : Ascii.ascii) : bool :=
  ((48 <=? code c) && (code c <=? 57))%nat.

(** The class [\w] of a regular expression: letters, digits, underscore. *)
Definition is_word (c : Ascii.ascii) : bool :=
  is_upper c || is_lower c || is_digit c || (code c =? 95)%nat.

(** The ASCII members of the class [\s]: tab, line feed, vertical tab, form
    feed, carriage return, space. *)
Definition is_space (c : Ascii.ascii) : bool := SampleHost.is_space c.

Definition upper_char (c : Ascii.ascii) : Ascii.ascii :=
  if is_lower c then Ascii.ascii_of_nat (code c - 32) else c.

Definition lower_char (c : Ascii.ascii) : Ascii.ascii :=
  if is_upper c then Ascii.ascii_of_nat (code c + 32) else c.

Fixpoint map_chars (f : Ascii.ascii -> Ascii.ascii) (s : string) : string :=
  match s with
  | EmptyString => EmptyString
  | String c r => String (f c) (map_chars f r)
  end.

Fixpoint all_chars (p : Ascii.ascii -> bool) (s : string) : bool :=
  match s with
  | EmptyString => true
  | String c r => p c && all_chars p r
  end.

Fixpoint keep_chars (p : Ascii.ascii -> bool) (s : string) : string :=
  match s with
  | EmptyString => EmptyString
  | String c r => if p c then String c (keep_chars p r) else keep_chars p r
  end.

(** A string all of whose characters are ASCII. *)
Definition ascii_only (s : string) : Prop := all_chars is_ascii s = true.

(** What [toUpperCase()] and [toLowerCase()] do to an ASCII string. *)
Definition upper_ascii (s : string) : string := map_chars upper_char s.
Definition lower_ascii (s : string) : string := map_chars lower_char s.

(** [s.replace(/[^\w\s]/g, '')] on an ASCII string. *)
Definition strip_punctuation (s : string) : string :=
  keep_chars (fun c => is_word c || is_space c) s.

Definition starts_with_space (s : string) : bool :=
  match s with
  | EmptyString => false
  | String c _ => is_space c
  end.

(** [s.split(/\s+/)] on an ASCII string: the pieces between the runs of
    white space, empty pieces at the ends included. *)
Fixpoint split_spaces (s : string) : list string :=
  match s with
  | EmptyString => [EmptyString]
  | String c r =>
      match split_spaces r with
      | p :: ps =>
          if is_space c
          then (if starts_with_space r then p :: ps
                else EmptyString :: p :: ps)
          else String c p :: ps
      | [] => []
      end
  end.

(** [s.split(',')]. *)
Fixpoint split_commas (s : string) : list string :=
  match s with
  | EmptyString => [EmptyString]
  | String c r =>
      match split_commas r with
      | p :: ps =>
          if (code c =? 44)%nat then EmptyString :: p :: ps
          else String c p :: ps
      | [] => []
      end
  end.

Definition nonempty (s : string) : bool :=
  match s with EmptyString => false | String _ _ => true end.

(** A non-empty string without white space. *)
Definition plain_word (w : string) : Prop :=
  nonempty w = true /\ all_chars (fun c => negb (is_space c)) w = true.

(** [hay.includes(needle)]. *)
Fixpoint includes (needle hay : string) : bool :=
  String.prefix needle hay
  || match hay with
     | EmptyString => false
     | String _ r => includes needle r
     end.

End JsText.

(** ** geminiService.js: text to signs *)

Module TextToSign.
Import GeminiService JsText.

Record guidance := {
  g_success : bool;
  signs : list string;
  originalText : string;
  g_method : string
}.

Definition dq : string := String (Ascii.ascii_of_nat 34) EmptyString.

(** The template literal sent to the model. *)
Definition prompt (text : string) : string :=
  String.concat nl
    [ String.concat EmptyString
        ["Convert this English text to ASL signs: "; dq; text; dq];
      "    ";
      "Respond with ONLY a comma-separated list of ASL signs in the order they should be signed.";
      String.concat EmptyString
        ["Example: "; dq; "I am happy"; dq; " → "; dq; "I, HAPPY"; dq];
      String.concat EmptyString
        ["Example: "; dq; "What is your name?"; dq; " → "; dq;
         "WHAT, YOUR, NAME"; dq];
      EmptyString;
      String.concat EmptyString ["Signs for: "; dq; text; dq] ].

(** [!API_KEY || API_KEY === 'demo'], for the environment variable
    [VITE_GEMINI_API_KEY] ([None] when it is not set). *)
Definition no_key (API_KEY : option string) : bool :=
  match API_KEY with
  | None => true
  | Some k => negb (nonempty k) || String.eqb k "demo"
  end.

(** What [handleTextToSign] of [Translator.jsx] does with the text typed
    in: nothing at all ([if (!inputText.trim()) return]); or it shows a
    sign sequence ([setSignSequence(result.signs)]); or it leaves the
    sequence empty and raises the alert "Could not convert text to signs.
    Please try a simpler phrase." *)
Inductive handled :=
| Ignored
| Showed (signs : list string)
| Alerted.

Section Host.

(** [String.prototype.trim] and [String.prototype.toUpperCase]. *)
Variable trim : string -> string.
Variable toUpperCase : string -> string.

(** The word-by-word conversion both fallbacks use:
    [text.toUpperCase().replace(/[^\w\s]/g, '').split(/\s+/)
       .filter(word => word.length > 0)]. *)
Definition wordSigns (text : string) : list string :=
  List.filter nonempty (split_spaces (strip_punctuation (toUpperCase text))).

(** The request [textToSignGuidance(text)] makes, if it makes one. *)
Definition request (API_KEY : option string) (text : string)
    : option string :=
  if no_key API_KEY then None else Some (prompt text).

(** [textToSignGuidance(text)], given how the request ends when one is
    made. *)
Definition textToSignGuidance (API_KEY : option string) (text : string)
    (o : outcome) : guidance :=
  if no_key API_KEY then
    {| g_success := true; signs := wordSigns text; originalText := text;
       g_method := "fallback" |}
  else
    match o with
    | Responded reply =>
        {| g_success := true;
           signs := List.map (fun s => toUpperCase (trim s))
                      (split_commas (trim reply));
           originalText := text; g_method := "gemini" |}
    | Threw _ =>
        {| g_success := true; signs := wordSigns text; originalText := text;
           g_method := "fallback-error" |}
    end.

(** [handleTextToSign] of [Translator.jsx] on the text typed in, given how
    the request ends when one is made.  The awaited [textToSignGuidance]
    never rejects (its own [catch] returns a result), so the handler's
    [catch] block has nothing to catch. *)
Definition handleTextToSign (API_KEY : option string) (inputText : string)
    (o : outcome) : handled :=
  if negb (nonempty (trim inputText)) then Ignored
  else
    let result := textToSignGuidance API_KEY inputText o in
    if g_success result && (0 <? length (signs result))%nat
    then Showed (signs result)
    else Alerted.

End Host.

End TextToSign.

(** ** config/signs.js *)

Module SignLibrary.
Import JsText.

Record sign_entry := {
  entry_name : string;
  description : string;
  category : string;
  pattern : string
}.

Definition entry (n d c p : string) : sign_entry :=
  {| entry_name := n; description := d; category := c; pattern := p |}.

(** The object literal [SIGN_LIBRARY], its keys in the order written (none
    of them is an array index, so this is also the order of [Object.keys]
    and [Object.values]). *)
Definition SIGN_LIBRARY : list (string * sign_entry) :=
  [ ("ONE", entry "1" "Index finger pointing up" "number" "one_finger");
    ("TWO", entry "2" "Index and middle fingers up (together)" "number"
              "two_fingers");
    ("THREE", entry "3" "Thumb, index, and middle fingers extended" "number"
                "three_fingers");
    ("FOUR", entry "4" "Four fingers up (no thumb)" "number" "four_fingers");
    ("FIVE", entry "5" "All five fingers extended (open hand)" "number"
               "open_hand");
    ("YES", entry "Yes" "Thumbs up gesture" "gesture" "thumbs_up");
    ("HELLO", entry "Hello" "Open hand raised (all fingers extended)"
                "gesture" "hand_wave");
    ("STOP", entry "Stop" "Closed fist" "gesture" "fist");
    ("PEACE", entry "Peace" "Index and middle fingers separated in V shape"
                "gesture" "peace_sign");
    ("LOVE", entry "Love"
               "Thumb, index finger and pinky extended (I Love You)"
               "gesture" "i_love_you");
    ("L", entry "L" "Thumb and index finger form L shape" "gesture"
            "l_shape");
    ("Y", entry "Y" "Thumb and pinky extended (shaka/hang loose)" "gesture"
            "shaka");
    ("NO", entry "No" "Thumbs down gesture" "gesture" "thumbs_down") ].

Definition CATEGORIES : list (string * string) :=
  [ ("number", "Numbers (1-5)"); ("gesture", "Common Gestures") ].

(** Reading [obj[key]] on an object literal: an own property, a member
    inherited from [Object.prototype], or [undefined]. *)
Inductive looked_up (A : Type) :=
| Own (v : A)
| Inherited
| Undefined.
Arguments Own {A} v.
Arguments Inherited {A}.
Arguments Undefined {A}.

Fixpoint own {A} (key : string) (obj : list (string * A)) : option A :=
  match obj with
  | [] => None
  | (k, v) :: rest => if String.eqb k key then Some v else own key rest
  end.

(** [getAllSigns()]. *)
Definition getAllSigns : list sign_entry := List.map snd SIGN_LIBRARY.

(** [getSignsByCategory(category)]. *)
Definition getSignsByCategory (c : string) : list sign_entry :=
  List.filter (fun s => String.eqb (category s) c) getAllSigns.

(** [getSignCount()]. *)
Definition getSignCount : nat := length (List.map fst SIGN_LIBRARY).

Section Host.

(** The names [Object.prototype] answers to (all of its members are
    truthy), and the two case conversions of strings. *)
Variable inherited : string -> bool.
Variable toLowerCase : string -> string.
Variable toUpperCase : string -> string.

Definition get {A} (obj : list (string * A)) (key : string) : looked_up A :=
  match own key obj with
  | Some v => Own v
  | None => if inherited key then Inherited else Undefined
  end.

(** [searchSigns(query)]. *)
Definition searchSigns (query : string) : list sign_entry :=
  List.filter
    (fun s => includes (toLowerCase query) (toLowerCase (entry_name s)))
    getAllSigns.

(** [getSignDetails(signKey)] of [signRecognition.js]:
    [SIGN_LIBRARY[signKey] || null].  [Undefined] stands for the [null]
    it returns. *)
Definition getSignDetails (signKey : string) : looked_up sign_entry :=
  get SIGN_LIBRARY signKey.

(** The lookup [Translator.jsx] makes for each sign of a sequence:
    [Object.values(SIGN_LIBRARY).find(s => s.name.toUpperCase() ===
    signName.toUpperCase())]. *)
Definition findSignInfo (signName : string) : option sign_entry :=
  List.find
    (fun s => String.eqb (toUpperCase (entry_name s)) (toUpperCase signName))
    getAllSigns.

End Host.

End SignLibrary.

(** ** Numbers and hand landmarks *)

Module Landmarks.

(** The operations the classifiers apply to coordinates.  They are left
    uninterpreted: IEEE doubles are one model, and nothing proved below
    depends on how they round. *)
Class JsNumber (num : Type) := {
  literal : Q -> num;
  add : num -> num -> num;
  sub : num -> num -> num;
  mul : num -> num -> num;
  sqrt : num -> num;
  abs : num -> num;
  gt : num -> num -> bool;
  truthy : num -> bool
}.

Section Points.

Context {num : Type} `{JsNumber num}.

(** [a < b] on numbers is [b > a]. *)
Definition lt (a b : num) : bool := gt b a.

(** A landmark; [z] may be missing. *)
Record point := { px : num; py : num; pz : option num }.

(** [p.z || 0]. *)
Definition z_or_0 (p : point) : num :=
  match pz p with
  | Some z => if truthy z then z else literal 0
  | None => literal 0
  end.

(** [distance(p1, p2)]: the same helper in [signRecognition.js] and in
    [aslClassifier.js]. *)
Definition distance (p1 p2 : point) : num :=
  let dx := sub (px p1) (px p2) in
  let dy := sub (py p1) (py p2) in
  let dz := sub (z_or_0 p1) (z_or_0 p2) in
  sqrt (add (add (mul dx dx) (mul dy dy)) (mul dz dz)).

(** A computation that may stop with a [TypeError]: reading a property of
    [undefined]. *)
Inductive attempt (A : Type) :=
| Done (a : A)
| TypeError.
Arguments Done {A} a.
Arguments TypeError {A}.

Definition and_then {A B} (m : attempt A) (f : A -> attempt B) : attempt B :=
  match m with
  | Done a => f a
  | TypeError => TypeError
  end.

(** [landmarks[i]] followed by a property read. *)
Definition at_index (landmarks : list point) (i : nat) : attempt point :=
  match landmarks !! i with
  | Some p => Done p
  | None => TypeError
  end.

(** [isFingerExtended(landmarks, tip, mcp)]: the tip is farther from the
    wrist than the knuckle. *)
Definition isFingerExtended (landmarks : list point) (tip mcp : nat)
    : attempt bool :=
  and_then (at_index landmarks tip) (fun t =>
  and_then (at_index landmarks mcp) (fun m =>
  and_then (at_index landmarks 0) (fun wrist =>
  Done (gt (distance t wrist) (distance m wrist))))).

Definition WRIST : nat := 0.
Definition THUMB_TIP : nat := 4.
Definition THUMB_MCP : nat := 2.
Definition INDEX_TIP : nat := 8.
Definition INDEX_MCP : nat := 5.
Definition MIDDLE_TIP : nat := 12.
Definition MIDDLE_MCP : nat := 9.
Definition RING_TIP : nat := 16.
Definition RING_MCP : nat := 13.
Definition PINKY_TIP : nat := 20.
Definition PINKY_MCP : nat := 17.

(** [[a, b, c, d, e].filter(Boolean).length]. *)
Definition count_true (bs : list bool) : Z :=
  Z.of_nat (length (List.filter (fun b => b) bs)).

End Points.

Arguments point num : clear implicits.
Arguments Done {A} a.
Arguments TypeError {A}.

Notation "'let!' x ':=' m 'in' k" := (and_then m (fun x => k))
  (at level 10, x name, k at level 200).

End Landmarks.

(** ** signRecognition.js: features from landmarks *)

Module HandFeatures.
Import Landmarks SignRecognition.

Section Extract.

Context {num : Type} `{JsNumber num}.

(** The object [extractHandFeatures] returns. *)
Record hand_features := {
  hf_thumbExtended : bool;
  hf_indexExtended : bool;
  hf_middleExtended : bool;
  hf_ringExtended : bool;
  hf_pinkyExtended : bool;
  hf_extendedCount : Z;
  palmCenter : point num;
  thumbIndexDist : num;
  indexMiddleDist : num;
  landmarks : list (point num)
}.

(** The fields of it that [recognizeSign] destructures. *)
Definition as_features (f : hand_features) : features :=
  {| extendedCount := hf_extendedCount f;
     thumbExtended := hf_thumbExtended f;
     indexExtended := hf_indexExtended f;
     middleExtended := hf_middleExtended f;
     ringExtended := hf_ringExtended f;
     pinkyExtended := hf_pinkyExtended f |}.

(** [extractHandFeatures(landmarks)]; the inner [None] is the [null] it
    returns, the outer [None] a missing argument. *)
Definition extractHandFeatures (arg : option (list (point num)))
    : attempt (option hand_features) :=
  match arg with
  | None => Done None
  | Some l =>
      if negb (length l =? 21)%nat then Done None
      else
        let! thumb := isFingerExtended l THUMB_TIP THUMB_MCP in
        let! index := isFingerExtended l INDEX_TIP INDEX_MCP in
        let! middle := isFingerExtended l MIDDLE_TIP MIDDLE_MCP in
        let! ring := isFingerExtended l RING_TIP RING_MCP in
        let! pinky := isFingerExtended l PINKY_TIP PINKY_MCP in
        let! c1 := isFingerExtended l THUMB_TIP THUMB_MCP in
        let! c2 := isFingerExtended l INDEX_TIP INDEX_MCP in
        let! c3 := isFingerExtended l MIDDLE_TIP MIDDLE_MCP in
        let! c4 := isFingerExtended l RING_TIP RING_MCP in
        let! c5 := isFingerExtended l PINKY_TIP PINKY_MCP in
        let! wrist := at_index l WRIST in
        let! thumbTip := at_index l THUMB_TIP in
        let! indexTip := at_index l INDEX_TIP in
        let! middleTip := at_index l MIDDLE_TIP in
        Done (Some {| hf_thumbExtended := thumb;
                      hf_indexExtended := index;
                      hf_middleExtended := middle;
                      hf_ringExtended := ring;
                      hf_pinkyExtended := pinky;
                      hf_extendedCount := count_true [c1; c2; c3; c4; c5];
                      palmCenter := wrist;
                      thumbIndexDist := distance thumbTip indexTip;
                      indexMiddleDist := distance indexTip middleTip;
                      landmarks := l |})
  end.

(** [recognizeSign(extractHandFeatures(landmarks))]. *)
Definition recognizeLandmarks (arg : option (list (point num)))
    : attempt recognition :=
  let! f := extractHandFeatures arg in
  Done (recognizeSign (option_map as_features f)).

End Extract.

End HandFeatures.

(** ** aslClassifier.js *)

Module AslClassifier.
Import Landmarks.

Definition RELIABLE_SIGNS : list string :=
  [ "1"; "2"; "3"; "4"; "5";
    "YES"; "HELLO"; "STOP"; "PEACE"; "LOVE"; "L"; "Y" ].

(** [getSupportedSigns()]. *)
Definition getSupportedSigns : list string := RELIABLE_SIGNS.

Record detection := { d_sign : option string; d_confidence : Q }.

Definition found (s : string) (c : Q) : detection :=
  {| d_sign := Some s; d_confidence := c |}.

Definition no_match : detection := {| d_sign := None; d_confidence := 0 |}.

Record classification := {
  c_sign : option string;
  c_confidence : Q;
  c_method : string;
  c_handedness : option string
}.

Definition none : classification :=
  {| c_sign := None; c_confidence := 0; c_method := "none";
     c_handedness := None |}.

(** A detection is either the empty one or one of the known signs with a
    confidence of at least 0.88. *)
Definition well_found (d : detection) : Prop :=
  d = no_match
  \/ exists s, d_sign d = Some s
               /\ In s (RELIABLE_SIGNS ++ ["NO"])
               /\ Qle_bool (88 # 100) (d_confidence d) = true.

Section Detect.

Context {num : Type} `{JsNumber num}.

(** [detectReliableSign(landmarks)]: the branches in the order of the
    source, each falling through to the next when its test fails. *)
Definition detectReliableSign (l : list (point num)) : attempt detection :=
  let! thumbExt := isFingerExtended l THUMB_TIP THUMB_MCP in
  let! indexExt := isFingerExtended l INDEX_TIP INDEX_MCP in
  let! middleExt := isFingerExtended l MIDDLE_TIP MIDDLE_MCP in
  let! ringExt := isFingerExtended l RING_TIP RING_MCP in
  let! pinkyExt := isFingerExtended l PINKY_TIP PINKY_MCP in
  let extendedCount :=
    count_true [thumbExt; indexExt; middleExt; ringExt; pinkyExt] in
  let nothing := Done no_match in
  let thumbs_down :=
    if thumbExt && negb indexExt && negb middleExt && negb ringExt
       && negb pinkyExt
    then
      let! thumbTip := at_index l THUMB_TIP in
      let! wrist := at_index l 0 in
      let! thumbBase := at_index l 2 in
      if gt (py thumbTip) (add (py thumbBase) (literal (5 # 100)))
         && gt (py thumbTip) (add (py wrist) (literal (8 # 100)))
      then Done (found "NO" (88 # 100))
      else nothing
    else nothing in
  let shaka :=
    if thumbExt && negb indexExt && negb middleExt && negb ringExt
       && pinkyExt
    then Done (found "Y" (90 # 100))
    else thumbs_down in
  let love :=
    if negb thumbExt && indexExt && negb middleExt && negb ringExt
       && pinkyExt
    then Done (found "LOVE" (90 # 100))
    else shaka in
  let l_shape :=
    if thumbExt && indexExt && negb middleExt && negb ringExt
       && negb pinkyExt
    then
      let! thumbTip := at_index l THUMB_TIP in
      let! indexTip := at_index l INDEX_TIP in
      let angle := abs (sub (px thumbTip) (px indexTip)) in
      if gt angle (literal (12 # 100))
      then Done (found "L" (90 # 100))
      else love
    else love in
  let open_hand :=
    if thumbExt && indexExt && middleExt && ringExt && pinkyExt
    then
      let! wrist := at_index l 0 in
      let! middleTip := at_index l MIDDLE_TIP in
      let palmY := py wrist in
      let middleY := py middleTip in
      if lt middleY (sub palmY (literal (15 # 100)))
      then Done (found "HELLO" (91 # 100))
      else Done (found "5" (90 # 100))
    else l_shape in
  let four :=
    if negb thumbExt && indexExt && middleExt && ringExt && pinkyExt
    then Done (found "4" (92 # 100))
    else open_hand in
  let three :=
    if thumbExt && indexExt && middleExt && negb ringExt && negb pinkyExt
    then Done (found "3" (92 # 100))
    else four in
  let two_or_peace :=
    if negb thumbExt && indexExt && middleExt && negb ringExt
       && negb pinkyExt
    then
      let! indexTip := at_index l INDEX_TIP in
      let! middleTip := at_index l MIDDLE_TIP in
      let separation := distance indexTip middleTip in
      if gt separation (literal (9 # 100))
      then Done (found "PEACE" (93 # 100))
      else Done (found "2" (90 # 100))
    else three in
  let one :=
    if negb thumbExt && indexExt && negb middleExt && negb ringExt
       && negb pinkyExt
    then Done (found "1" (92 # 100))
    else two_or_peace in
  let thumbs_up :=
    if thumbExt && negb indexExt && negb middleExt && negb ringExt
       && negb pinkyExt
    then
      let! thumbTip := at_index l THUMB_TIP in
      let! wrist := at_index l 0 in
      if lt (py thumbTip) (sub (py wrist) (literal (12 # 100)))
      then Done (found "YES" (95 # 100))
      else one
    else one in
  if (extendedCount =? 0)%Z then Done (found "STOP" (90 # 100))
  else thumbs_up.

(** [classifyASLSign(landmarks, handedness = 'Right')]. *)
Definition classifyASLSign (landmarks : option (list (point num)))
    (handedness : option string) : classification :=
  let handedness := default "Right" handedness in
  match landmarks with
  | None => none
  | Some l =>
      if negb (length l =? 21)%nat then none
      else
        match detectReliableSign l with
        | Done result =>
            match d_sign result with
            | Some s =>
                if JsText.nonempty s
                   && Qle_bool (85 # 100) (d_confidence result)
                then {| c_sign := Some s;
                        c_confidence := d_confidence result;
                        c_method := "heuristic";
                        c_handedness := Some handedness |}
                else none
            | None => none
            end
        | TypeError =>
            {| c_sign := None; c_confidence := 0; c_method := "error";
               c_handedness := None |}
        end
  end.

End Detect.

End AslClassifier.


(** ** Exact rationals as numbers, to run the classifiers on *)

Module RationalNumbers.
Import Landmarks.

(** Rationals with exact arithmetic.  The square root is replaced by the
    identity, so [distance] is the squared distance here; comparing two
    such distances orders them as the true distances are ordered. *)
#[global] Instance rational : JsNumber Q := {|
  literal := fun q => q;
  add := Qplus;
  sub := Qminus;
  mul := Qmult;
  sqrt := fun q => q;
  abs := fun q => if Qle_bool 0 q then q else Qopp q;
  gt := fun a b => negb (Qle_bool a b);
  truthy := fun q => negb (Qeq_bool q 0)
|}.

Definition at_xy (x y : Q) : point Q := {| px := x; py := y; pz := None |}.

(** A hand whose 21 landmarks all sit on the wrist, except those listed. *)
Definition hand (wrist : point Q) (moved : list (nat * point Q))
    : list (point Q) :=
  List.map
    (fun i => match List.find (fun m => Nat.eqb (fst m) i) moved with
              | Some m => snd m
              | None => wrist
              end)
    (seq 0 21).

(** A fist with the thumb stretched downwards. *)
Definition thumb_down_hand : list (point Q) :=
  hand (at_xy (5 # 10) (8 # 10))
    [ (THUMB_MCP, at_xy (5 # 10) (85 # 100));
      (THUMB_TIP, at_xy (5 # 10) (95 # 100));
      (INDEX_MCP, at_xy (45 # 100) (7 # 10));
      (MIDDLE_MCP, at_xy (5 # 10) (7 # 10));
      (RING_MCP, at_xy (55 # 100) (7 # 10));
      (PINKY_MCP, at_xy (6 # 10) (7 # 10)) ].

(** An open hand raised, all five fingers stretched upwards. *)
Definition open_hand_up : list (point Q) :=
  hand (at_xy (5 # 10) (8 # 10))
    [ (THUMB_MCP, at_xy (4 # 10) (75 # 100));
      (THUMB_TIP, at_xy (3 # 10) (6 # 10));
      (INDEX_MCP, at_xy (45 # 100) (6 # 10));
      (INDEX_TIP, at_xy (45 # 100) (3 # 10));
      (MIDDLE_MCP, at_xy (5 # 10) (6 # 10));
      (MIDDLE_TIP, at_xy (5 # 10) (25 # 100));
      (RING_MCP, at_xy (55 # 100) (6 # 10));
      (RING_TIP, at_xy (55 # 100) (3 # 10));
      (PINKY_MCP, at_xy (6 # 10) (6 # 10));
      (PINKY_TIP, at_xy (6 # 10) (35 # 100)) ].

End RationalNumbers.
(** ** signRecognition.js: SignSmoother *)

Module Smoother.
Import JsText.

Record item := {
  item_sign : option string;
  item_confidence : Q;
  timestamp : Z
}.

Record SignSmoother := {
  window : list item;
  windowSize : nat;
  threshold : Q
}.

(** [new SignSmoother(windowSize = 3, threshold = 0.4)]. *)
Definition new (windowSize : option nat) (threshold : option Q)
    : SignSmoother :=
  {| window := []; windowSize := default 3%nat windowSize;
     threshold := default (4 # 10) threshold |}.

(** The exported instance. *)
Definition signSmoother : SignSmoother := new None None.

(** [addSign(sign, confidence)]; [pushed] is what [Date.now()] reads for
    the timestamp of the new item, [now] what it reads afterwards for the
    age test. *)
Definition addSign (pushed now : Z) (sign : option string) (confidence : Q)
    (s : SignSmoother) : SignSmoother :=
  let w1 := window s ++ [ {| item_sign := sign;
                             item_confidence := confidence;
                             timestamp := pushed |} ] in
  let w2 := if (windowSize s <? length w1)%nat then tail w1 else w1 in
  {| window := List.filter (fun it => now - timestamp it <? 2000) w2;
     windowSize := windowSize s; threshold := threshold s |}.

(** [reset()]. *)
Definition reset (s : SignSmoother) : SignSmoother :=
  {| window := []; windowSize := windowSize s; threshold := threshold s |}.

(** A value stored in [signCounts]: a number, or what comes of adding 1 to
    a member of [Object.prototype], a string that no comparison with a
    number accepts. *)
Inductive cell :=
| Count (n : nat)
| Junk.

(** [item.sign && item.confidence > 0.5]. *)
Definition counts_for (it : item) : option string :=
  match item_sign it with
  | Some k => if nonempty k && negb (Qle_bool (item_confidence it) (5 # 10))
              then Some k else None
  | None => None
  end.

(** The decimal value of a key that is an array index: digits only, no
    leading zero, below 2^32 - 1.  Such keys come first in [Object.entries],
    in ascending order. *)
Fixpoint digits_value (acc : N) (s : string) : option N :=
  match s with
  | EmptyString => Some acc
  | String c r =>
      if is_digit c
      then digits_value (acc * 10 + N.of_nat (code c - 48)) r
      else None
  end.

Definition array_index (k : string) : option N :=
  match k with
  | EmptyString => None
  | String c r =>
      if (code c =? 48)%nat && nonempty r then None
      else match digits_value 0 k with
           | Some n => if (n <? 4294967295)%N then Some n else None
           | None => None
           end
  end.

Section Host.

(** The names [Object.prototype] answers to. *)
Variable inherited : string -> bool.

(** [signCounts[k] = (signCounts[k] || 0) + 1], keys kept in the order of
    their first assignment.  (For the key [__proto__] the assignment
    creates no entry at all; the entry kept here holds [Junk] and is never
    chosen, which comes to the same.) *)
Fixpoint bump (k : string) (counts : list (string * cell))
    : list (string * cell) :=
  match counts with
  | [] => [(k, if inherited k then Junk else Count 1)]
  | (k', v) :: rest =>
      if String.eqb k' k
      then (k', match v with Count n => Count (S n) | Junk => Junk end)
           :: rest
      else (k', v) :: bump k rest
  end.

Definition tally (w : list item) : list (string * cell) :=
  fold_left (fun counts it =>
               match counts_for it with
               | Some k => bump k counts
               | None => counts
               end) w [].

Fixpoint insert_index (n : N) (e : string * cell)
    (sorted : list (N * (string * cell))) : list (N * (string * cell)) :=
  match sorted with
  | [] => [(n, e)]
  | (m, e') :: rest =>
      if (n <? m)%N then (n, e) :: (m, e') :: rest
      else (m, e') :: insert_index n e rest
  end.

(** [Object.entries(signCounts)]. *)
Definition entries (counts : list (string * cell)) : list (string * cell) :=
  let indexed :=
    fold_left (fun acc e => match array_index (fst e) with
                            | Some n => insert_index n e acc
                            | None => acc
                            end) counts [] in
  List.map snd indexed
  ++ List.filter (fun e => match array_index (fst e) with
                           | Some _ => false
                           | None => true
                           end) counts.

Record stable := { stable_sign : option string; stable_confidence : Q }.

(** One round of the [forEach] that looks for the most common sign. *)
Definition better (limit : Q) (best : option string * nat)
    (e : string * cell) : option string * nat :=
  match snd e with
  | Count n =>
      if (snd best <? n)%nat && Qle_bool limit (inject_Z (Z.of_nat n))
      then (Some (fst e), n)
      else best
  | Junk => best
  end.

(** [getStableSign()].  The quotient is the exact one. *)
Definition getStableSign (s : SignSmoother) : stable :=
  if (length (window s) =? 0)%nat
  then {| stable_sign := None; stable_confidence := 0 |}
  else
    let limit := (inject_Z (Z.of_nat (windowSize s)) * threshold s)%Q in
    let best := fold_left (better limit) (entries (tally (window s)))
                  (None, 0%nat) in
    {| stable_sign := fst best;
       stable_confidence :=
         match fst best with
         | Some k => if nonempty k
                     then (inject_Z (Z.of_nat (snd best))
                           / inject_Z (Z.of_nat (windowSize s)))%Q
                     else 0
         | None => 0
         end |}.

End Host.

(** Items of the window that count for the sign [k]. *)
Definition votes (k : string) (w : list item) : nat :=
  length (List.filter (fun it => match counts_for it with
                                 | Some k' => String.eqb k' k
                                 | None => false
                                 end) w).

(** The smoothers obtained from the exported instance by [addSign] and
    [reset]. *)
Inductive in_use : SignSmoother -> Prop :=
| in_use_new : in_use signSmoother
| in_use_add pushed now sign confidence s :
    in_use s -> in_use (addSign pushed now sign confidence s)
| in_use_reset s : in_use s -> in_use (reset s).

End Smoother.

(** * Properties *)

Import Store SignRecognition GeminiService.

(** ** The store *)

Lemma deref_alloc_new a h : deref (snd (alloc a h)) (fst (alloc a h)) = a.
Proof.
  unfold deref, alloc; simpl.
  rewrite lookup_app_r by lia. now rewrite Nat.sub_diag.
Qed.

Lemma deref_alloc_old a h l :
  (l < length h)%nat -> deref (snd (alloc a h)) l = deref h l.
Proof.
  intros Hl. unfold deref, alloc; simpl. now rewrite lookup_app_l.
Qed.

Lemma string_app_cons x (a b : string) :
  (String x a ++ b)%string = String x (a ++ b)%string.
Proof. reflexivity. Qed.

Lemma string_app_assoc (a b c : string) :
  ((a ++ b) ++ c)%string = (a ++ (b ++ c))%string.
Proof.
  induction a as [|x a IH]; [reflexivity|].
  now rewrite !string_app_cons, IH.
Qed.

Lemma spaced_after_prefix (p a : string) others :
  fold_left (fun text token => (text ++ " " ++ token)%string) others
    (p ++ a)%string
  = (p ++ fold_left (fun text token => (text ++ " " ++ token)%string) others
            a)%string.
Proof.
  revert a. induction others as [|t others IH]; intros a; [reflexivity|].
  simpl. now rewrite string_app_assoc, IH.
Qed.

(** [join " "] is the spec's "joined by single spaces". *)
Lemma join_single_spaces tokens :
  join " " tokens = joined_by_single_spaces tokens.
Proof.
  unfold join. destruct tokens as [|first others]; [reflexivity|].
  revert first. induction others as [|t others IH]; intros first;
    [reflexivity|].
  change (String.concat " " (first :: t :: others))
    with (first ++ " " ++ String.concat " " (t :: others))%string.
  rewrite IH. cbn [joined_by_single_spaces fold_left].
  rewrite <- (string_app_assoc first " " t).
  rewrite (spaced_after_prefix (first ++ " ")%string t others).
  now rewrite string_app_assoc.
Qed.

Lemma length_alloc a h : length (snd (alloc a h)) = S (length h).
Proof. unfold alloc; simpl. rewrite length_app; simpl; lia. Qed.

Lemma length_push l x h : length (push l x h) = length h.
Proof. unfold push. apply length_alter. Qed.

Lemma deref_push_same l x h :
  (l < length h)%nat -> deref (push l x h) l = deref h l ++ [x].
Proof.
  intros Hl. unfold deref, push.
  destruct (lookup_lt_is_Some_2 h l Hl) as [a Ha].
  rewrite list_lookup_alter_eq, Ha. reflexivity.
Qed.

Lemma deref_push_other l l' x h :
  l <> l' -> deref (push l x h) l' = deref h l'.
Proof.
  intros Hne. unfold deref, push. now rewrite list_lookup_alter_ne.
Qed.

Lemma index_is_last a s :
  index_is a (length a - 1) s = true <-> last a = Some s.
Proof.
  unfold index_is. rewrite last_lookup.
  replace (Nat.pred (length a)) with (length a - 1)%nat by lia.
  destruct (a !! (length a - 1)%nat) as [x|]; [|split; discriminate].
  rewrite String.eqb_eq. split; congruence.
Qed.

(** ** Lists of tokens and of tasks *)

Lemma repeats_last_spec b s : repeats_last b s = true <-> last b = Some s.
Proof.
  unfold repeats_last. rewrite andb_true_iff, index_is_last.
  split; [tauto|]. intros H; split; [|exact H].
  destruct b; [discriminate|]. reflexivity.
Qed.

Lemma no_adjacent_repeat_nil : no_adjacent_repeat [].
Proof. intros i x y H. discriminate. Qed.

Lemma no_adjacent_repeat_snoc b s :
  no_adjacent_repeat b -> last b <> Some s -> no_adjacent_repeat (b ++ [s]).
Proof.
  intros Hb Hl i x y Hx Hy.
  destruct (decide (S i < length b)%nat) as [Hlt|Hge].
  - rewrite lookup_app_l in Hx by lia. rewrite lookup_app_l in Hy by lia.
    eauto.
  - assert (Hi : i = (length b - 1)%nat /\ (0 < length b)%nat).
    { apply lookup_lt_Some in Hy. rewrite length_app in Hy; simpl in Hy.
      apply lookup_lt_Some in Hx. rewrite length_app in Hx; simpl in Hx.
      lia. }
    destruct Hi as [-> Hpos].
    rewrite lookup_app_l in Hx by lia.
    rewrite lookup_app_r in Hy by lia.
    replace (S (length b - 1) - length b)%nat with 0%nat in Hy by lia.
    simpl in Hy. injection Hy as <-.
    intros ->. apply Hl. rewrite last_lookup.
    replace (Nat.pred (length b)) with (length b - 1)%nat by lia. exact Hx.
Qed.

Lemma filter_delete_drop {A} (f : A -> bool) (q : list A) i k k' :
  q !! i = Some k -> f k = true -> List.filter f q = [k'] ->
  List.filter f (delete i q) = [].
Proof.
  revert i. induction q as [|a q IH]; intros i Hi Hk Hf; [discriminate|].
  destruct i as [|i]; simpl in *.
  - injection Hi as ->. rewrite Hk in Hf. now injection Hf.
  - destruct (f a) eqn:Ha.
    + injection Hf as _ Hf. exfalso.
      assert (Hin : In k (List.filter f q)).
      { apply filter_In. split; [|exact Hk].
        apply list_elem_of_In, list_elem_of_lookup. eauto. }
      rewrite Hf in Hin. exact Hin.
    + eauto.
Qed.

Lemma filter_delete_keep {A} (f : A -> bool) (q : list A) i k :
  q !! i = Some k -> f k = false ->
  List.filter f (delete i q) = List.filter f q.
Proof.
  revert i. induction q as [|a q IH]; intros i Hi Hk; [discriminate|].
  destruct i as [|i]; simpl in *.
  - injection Hi as ->. now rewrite Hk.
  - destruct (f a); [f_equal|]; eauto.
Qed.

Lemma filter_delete_nil {A} (f : A -> bool) (q : list A) i :
  List.filter f q = [] -> List.filter f (delete i q) = [].
Proof.
  revert i. induction q as [|a q IH]; intros i Hf; [reflexivity|].
  destruct i as [|i]; simpl in *.
  - destruct (f a); [discriminate|exact Hf].
  - destruct (f a); [discriminate|eauto].
Qed.

Lemma timeouts_clearTimeout id q :
  List.filter is_timeout (clearTimeout id q)
  = List.filter (survives id) (List.filter is_timeout q).
Proof.
  unfold clearTimeout. induction q as [|k q IH]; [reflexivity|].
  destruct k as [h d cb g|d cb l o]; simpl.
  - destruct (negb (Pos.eqb h id)); simpl; now rewrite IH.
  - exact IH.
Qed.

(** ** Equations of the operations *)

Lemma deref_snoc_new (h : heap) a : deref (h ++ [a]) (length h) = a.
Proof. exact (deref_alloc_new a h). Qed.

Lemma deref_snoc_old (h : heap) a l :
  (l < length h)%nat -> deref (h ++ [a]) l = deref h l.
Proof. exact (deref_alloc_old a h l). Qed.

Lemma buffer_eq h l a b q n e :
  buffer {| store := h; signBuffer := l; lastSignTime := a;
            bufferTimer := b; tasks := q; nextHandle := n; log := e |}
  = deref h l.
Proof. reflexivity. Qed.

Lemma buffer_spread w :
  (signBuffer w < length (store w))%nat ->
  buffer (snd (spread_buffer w)) = buffer w.
Proof.
  intros Hv. unfold spread_buffer, alloc, buffer at 1; simpl.
  now apply deref_snoc_old.
Qed.

Lemma returned_spread w :
  deref (store (snd (spread_buffer w))) (fst (spread_buffer w)) = buffer w.
Proof. unfold spread_buffer, alloc; simpl. apply deref_snoc_new. Qed.

Lemma add_rejects now s cb g w :
  repeats_last (buffer w) s = true ->
  addSignToBuffer now s cb g w = spread_buffer (note (Rejected now s) w).
Proof.
  intros H. unfold addSignToBuffer. fold (repeats_last (buffer w) s).
  rewrite H; simpl. now destruct (now - lastSignTime w <? 3000).
Qed.

Lemma add_accepts now s cb g w :
  repeats_last (buffer w) s = false ->
  addSignToBuffer now s cb g w =
  spread_buffer
    {| store := push (signBuffer w) s (store w); signBuffer := signBuffer w;
       lastSignTime := now; bufferTimer := Some (nextHandle w);
       tasks := match bufferTimer w with
                | Some id => clearTimeout id (tasks w)
                | None => tasks w
                end ++ [Timeout (nextHandle w) (now + 4000) cb
                          (default false g)];
       nextHandle := Pos.succ (nextHandle w);
       log := Accepted now s :: log w |}.
Proof.
  intros H. unfold addSignToBuffer. fold (repeats_last (buffer w) s).
  rewrite H; simpl. reflexivity.
Qed.

Lemma onTimeout_empty gc t cb g w :
  buffer w = [] -> onTimeout gc t cb g w = w.
Proof. intros H. unfold onTimeout. now rewrite H. Qed.

Lemma onTimeout_direct gc t cb w :
  buffer w <> [] ->
  onTimeout gc t cb false w =
  {| store := (store w ++ [buffer w]) ++ [[]];
     signBuffer := S (length (store w));
     lastSignTime := lastSignTime w; bufferTimer := bufferTimer w;
     tasks := tasks w; nextHandle := nextHandle w;
     log := Called t cb
              {| success := true; translation := join " " (buffer w);
                 originalSigns := length (store w);
                 displaySigns := Present (length (store w));
                 method := "direct"; error := Absent |} []
            :: Flushed t (buffer w) :: log w |}.
Proof.
  intros H. unfold onTimeout.
  destruct (buffer w) as [|x b] eqn:Hb; [congruence|]. simpl.
  unfold spread_buffer, alloc, note, buffer; simpl.
  fold (buffer w). rewrite Hb.
  rewrite (deref_snoc_old (store w ++ [x :: b]) [] (length (store w)))
    by (rewrite length_app; simpl; lia).
  rewrite deref_snoc_new.
  replace (length (store w ++ [x :: b])) with (S (length (store w)))
    by (rewrite length_app; simpl; lia).
  replace (deref ((store w ++ [x :: b]) ++ [[]]) (S (length (store w))))
    with (@nil string); [reflexivity|].
  symmetry.
  replace (S (length (store w))) with (length (store w ++ [x :: b]))
    by (rewrite length_app; simpl; lia).
  apply deref_snoc_new.
Qed.

Lemma onTimeout_gemini gc t cb w :
  buffer w <> [] ->
  onTimeout gc t cb true w =
  {| store := (store w ++ [buffer w]) ++ [[]];
     signBuffer := S (length (store w));
     lastSignTime := lastSignTime w; bufferTimer := bufferTimer w;
     tasks := tasks w ++
              [Awaiting (t + Z.of_nat (latency (gc t (prompt (buffer w)))))
                 cb (length (store w)) (answer (gc t (prompt (buffer w))))];
     nextHandle := nextHandle w;
     log := Flushed t (buffer w) :: log w |}.
Proof.
  intros H. unfold onTimeout.
  destruct (buffer w) as [|x b] eqn:Hb; [congruence|]. simpl.
  unfold spread_buffer, alloc, note, buffer; simpl.
  fold (buffer w). rewrite Hb.
  rewrite (deref_snoc_old (store w ++ [x :: b]) [] (length (store w)))
    by (rewrite length_app; simpl; lia).
  rewrite deref_snoc_new.
  replace (length (store w ++ [x :: b])) with (S (length (store w)))
    by (rewrite length_app; simpl; lia).
  reflexivity.
Qed.

(** ** The invariant is kept by every call and every task *)

Lemma Inv_init : Inv init.
Proof.
  split.
  - simpl; lia.
  - reflexivity.
  - apply no_adjacent_repeat_nil.
  - reflexivity.
  - exact I.
Qed.

Lemma Inv_spread w : Inv w -> Inv (snd (spread_buffer w)).
Proof.
  intros [Hv Ht Hn Hq Hl].
  assert (Hb := buffer_spread w Hv).
  split.
  - unfold spread_buffer, alloc; simpl. rewrite length_app; simpl; lia.
  - rewrite Hb. exact Ht.
  - rewrite Hb. exact Hn.
  - unfold timer_ok in *. rewrite Hb. exact Hq.
  - exact Hl.
Qed.

Lemma Inv_note e w : quiet e = true -> Inv w -> Inv (note e w).
Proof.
  intros He [Hv Ht Hn Hq Hl].
  split; try assumption; unfold buffer, note in *; simpl;
    destruct e; try discriminate; assumption.
Qed.

Lemma timeouts_after_clear w :
  timer_ok w ->
  List.filter is_timeout
    (match bufferTimer w with
     | Some id => clearTimeout id (tasks w)
     | None => tasks w
     end) = [].
Proof.
  unfold timer_ok, timeouts. intros H.
  destruct (List.filter is_timeout (tasks w)) as [|k q] eqn:Hf.
  - destruct (bufferTimer w); [|exact Hf].
    rewrite timeouts_clearTimeout, Hf. reflexivity.
  - destruct k as [h d cb g|]; [|contradiction].
    destruct q; [|contradiction]. destruct H as (Hb & _ & _).
    rewrite Hb, timeouts_clearTimeout, Hf. simpl.
    now rewrite Pos.eqb_refl.
Qed.

Lemma Inv_add now s cb g w :
  Inv w -> Inv (snd (addSignToBuffer now s cb g w)).
Proof.
  intros HI. destruct (repeats_last (buffer w) s) eqn:Hr.
  - rewrite add_rejects by exact Hr.
    apply Inv_spread, Inv_note; [reflexivity|exact HI].
  - rewrite add_accepts by exact Hr. apply Inv_spread.
    destruct HI as [Hv Ht Hn Hq Hl].
    assert (Hb : deref (push (signBuffer w) s (store w)) (signBuffer w)
                 = buffer w ++ [s]) by now apply deref_push_same.
    split; unfold timer_ok, timeouts, buffer; simpl; rewrite ?Hb.
    + now rewrite length_push.
    + now rewrite Ht.
    + apply no_adjacent_repeat_snoc; [exact Hn|].
      intros Hlast. apply repeats_last_spec in Hlast. congruence.
    + rewrite List.filter_app, (timeouts_after_clear w Hq). simpl.
      split; [reflexivity|]. split; [reflexivity|].
      intros Habs. now apply app_eq_nil in Habs.
    + exact Hl.
Qed.

Lemma Inv_clear now w : Inv w -> Inv (clearSignBuffer now w).
Proof.
  intros [Hv Ht Hn Hq Hl].
  split; unfold timer_ok, timeouts, clearSignBuffer, alloc, buffer; simpl;
    rewrite ?deref_snoc_new.
  - rewrite length_app; simpl; lia.
  - reflexivity.
  - apply no_adjacent_repeat_nil.
  - now rewrite (timeouts_after_clear w Hq).
  - exact Hl.
Qed.

Lemma timeout_queued_singleton w i h d cb g :
  timer_ok w -> tasks w !! i = Some (Timeout h d cb g) ->
  timeouts w = [Timeout h d cb g] /\ bufferTimer w = Some h
  /\ d = lastSignTime w + 4000 /\ buffer w <> [].
Proof.
  unfold timer_ok, timeouts. intros Hq Hi.
  assert (Hin : In (Timeout h d cb g) (List.filter is_timeout (tasks w))).
  { apply filter_In. split; [|reflexivity].
    apply list_elem_of_In, list_elem_of_lookup. eauto. }
  destruct (List.filter is_timeout (tasks w)) as [|k q]; [contradiction|].
  destruct k as [h' d' cb' g'|]; [|contradiction].
  destruct q; [|contradiction].
  destruct Hin as [Heq|[]]. injection Heq as -> -> -> ->. tauto.
Qed.

Section HostFacts.

Variable trim : string -> string.
Variable generateContent : Z -> string -> reply.

Lemma buffer_dequeue i w : buffer (dequeue i w) = buffer w.
Proof. reflexivity. Qed.

Lemma Inv_onTimeout t i h d cb g w :
  Inv w -> tasks w !! i = Some (Timeout h d cb g) ->
  Inv (onTimeout generateContent t cb g (dequeue i w)).
Proof.
  intros [Hv Ht Hn Hq Hl] Hi.
  destruct (timeout_queued_singleton w i h d cb g Hq Hi)
    as (Hs & _ & _ & Hne).
  assert (Hgone : List.filter is_timeout (delete i (tasks w)) = []).
  { apply (filter_delete_drop is_timeout (tasks w) i _ _ Hi eq_refl Hs). }
  destruct g.
  - rewrite onTimeout_gemini by (rewrite buffer_dequeue; exact Hne).
    rewrite buffer_dequeue.
    assert (Hnew : deref ((store w ++ [buffer w]) ++ [[]])
                     (S (length (store w))) = []).
    { replace (S (length (store w))) with (length (store w ++ [buffer w]))
        by (rewrite length_app; simpl; lia).
      apply deref_snoc_new. }
    split; unfold timer_ok, timeouts; simpl; rewrite ?buffer_eq, ?Hnew.
    + rewrite !length_app; simpl; lia.
    + reflexivity.
    + apply no_adjacent_repeat_nil.
    + rewrite List.filter_app, Hgone. reflexivity.
    + auto.
  - rewrite onTimeout_direct by (rewrite buffer_dequeue; exact Hne).
    rewrite buffer_dequeue.
    assert (Hnew : deref ((store w ++ [buffer w]) ++ [[]])
                     (S (length (store w))) = []).
    { replace (S (length (store w))) with (length (store w ++ [buffer w]))
        by (rewrite length_app; simpl; lia).
      apply deref_snoc_new. }
    split; unfold timer_ok, timeouts; simpl; rewrite ?buffer_eq, ?Hnew.
    + rewrite !length_app; simpl; lia.
    + reflexivity.
    + apply no_adjacent_repeat_nil.
    + rewrite Hgone. reflexivity.
    + auto.
Qed.

Lemma Inv_dequeue_awaiting i d cb l o w :
  Inv w -> tasks w !! i = Some (Awaiting d cb l o) -> Inv (dequeue i w).
Proof.
  intros [Hv Ht Hn Hq Hl] Hi.
  split; try assumption.
  unfold timer_ok, timeouts in *. rewrite buffer_dequeue. simpl.
  now rewrite (filter_delete_keep is_timeout (tasks w) i _ Hi eq_refl).
Qed.

Lemma Inv_onSettled t cb l o w :
  Inv w -> Inv (onSettled trim t cb l o w).
Proof.
  intros HI. unfold onSettled.
  destruct (translateSignSequence trim (store w) l o);
    apply Inv_note; [reflexivity|exact HI|reflexivity|exact HI].
Qed.

Lemma Inv_run_task t i w :
  Inv w -> Inv (run_task trim generateContent t i w).
Proof.
  intros HI. unfold run_task.
  destruct (tasks w !! i) as [[h d cb g|d cb l o]|] eqn:Hi.
  - eapply Inv_onTimeout; eauto.
  - apply Inv_onSettled. eapply Inv_dequeue_awaiting; eauto.
  - exact HI.
Qed.

Lemma Inv_invoke t c w : Inv w -> Inv (invoke t c w).
Proof.
  intros HI. destruct c as [s cb g| |]; simpl.
  - now apply Inv_add.
  - now apply Inv_clear.
  - now apply Inv_spread.
Qed.

Lemma Inv_steps w w' :
  steps trim generateContent w w' -> Inv w -> Inv w'.
Proof.
  induction 1; intros HI; [exact HI| |].
  - apply Inv_invoke; auto.
  - apply Inv_run_task; auto.
Qed.

Lemma reachable_Inv w : reachable trim generateContent w -> Inv w.
Proof. intros H. exact (Inv_steps _ _ H Inv_init). Qed.

End HostFacts.

(** ** Arrays handed out are never written again *)

Lemma detached_spread l w :
  detached l w ->
  detached l (snd (spread_buffer w))
  /\ deref (store (snd (spread_buffer w))) l = deref (store w) l.
Proof.
  intros (Hv & Hl & Hne). unfold detached, spread_buffer, alloc; simpl.
  rewrite length_app; simpl. rewrite deref_snoc_old by exact Hl.
  repeat split; (lia || assumption).
Qed.

Lemma detached_add l now s cb g w :
  detached l w ->
  detached l (snd (addSignToBuffer now s cb g w))
  /\ deref (store (snd (addSignToBuffer now s cb g w))) l = deref (store w) l.
Proof.
  intros Hd. destruct (repeats_last (buffer w) s) eqn:Hr.
  - rewrite add_rejects by exact Hr.
    exact (detached_spread l (note (Rejected now s) w) Hd).
  - rewrite add_accepts by exact Hr.
    destruct Hd as (Hv & Hl & Hne).
    match goal with |- context [spread_buffer ?x] => set (w1 := x) end.
    assert (Hd1 : detached l w1).
    { unfold detached, w1; simpl. rewrite length_push. tauto. }
    destruct (detached_spread l w1 Hd1) as [Hd2 He].
    split; [exact Hd2|]. rewrite He. unfold w1; simpl.
    apply deref_push_other. congruence.
Qed.

Lemma detached_clear l now w :
  detached l w ->
  detached l (clearSignBuffer now w)
  /\ deref (store (clearSignBuffer now w)) l = deref (store w) l.
Proof.
  intros (Hv & Hl & Hne). unfold detached, clearSignBuffer, alloc; simpl.
  rewrite length_app; simpl. rewrite deref_snoc_old by exact Hl.
  repeat split; lia.
Qed.

Lemma detached_onTimeout gc l t cb g w :
  detached l w ->
  detached l (onTimeout gc t cb g w)
  /\ deref (store (onTimeout gc t cb g w)) l = deref (store w) l.
Proof.
  intros Hd. destruct (decide (buffer w = [])) as [He|Hne].
  - rewrite onTimeout_empty by exact He. tauto.
  - destruct Hd as (Hv & Hl & Hn).
    assert (Hx : deref ((store w ++ [buffer w]) ++ [[]]) l
                 = deref (store w) l).
    { rewrite deref_snoc_old by (rewrite length_app; simpl; lia).
      now apply deref_snoc_old. }
    destruct g; [rewrite onTimeout_gemini by exact Hne
                |rewrite onTimeout_direct by exact Hne];
      unfold detached; simpl; rewrite !length_app; simpl;
      (split; [repeat split; lia|exact Hx]).
Qed.

Lemma detached_onSettled trim l t cb l' o w :
  detached l w ->
  detached l (onSettled trim t cb l' o w)
  /\ deref (store (onSettled trim t cb l' o w)) l = deref (store w) l.
Proof.
  intros Hd. unfold onSettled.
  destruct (translateSignSequence trim (store w) l' o); simpl; tauto.
Qed.

Lemma detached_steps trim gc l w w' :
  steps trim gc w w' -> detached l w ->
  detached l w' /\ deref (store w') l = deref (store w) l.
Proof.
  induction 1 as [|t c w' Hs IH|t i w' Hs IH]; intros Hd; [tauto| |];
    destruct (IH Hd) as [Hd' He]; rewrite <- He.
  - destruct c as [s cb g| |]; simpl.
    + now apply detached_add.
    + now apply detached_clear.
    + now apply detached_spread.
  - unfold run_task.
    destruct (tasks w' !! i) as [[h d cb g|d cb l' o]|]; [| |tauto].
    + exact (detached_onTimeout gc l t cb g (dequeue i w') Hd').
    + exact (detached_onSettled trim l t cb l' o (dequeue i w') Hd').
Qed.

(** ** The gesture table *)

(** C10. [recognizeSign] never answers "THREE", whatever it is given: an
    argument with index and middle finger extended and ring and pinky not
    extended has already been answered by an earlier branch, "STOP" when
    [extendedCount] is 0 and "PEACE" otherwise, with the thumb extended or
    not. *)
Theorem recognizeSign_never_three :
  (forall arg, sign (recognizeSign arg) <> Some "THREE") /\
  (forall count thumb,
     sign (recognizeSign
             (Some {| extendedCount := count; thumbExtended := thumb;
                      indexExtended := true; middleExtended := true;
                      ringExtended := false; pinkyExtended := false |}))
     = Some (if (count =? 0)%Z then "STOP" else "PEACE")).
Proof.
  split.
  - intros [[count thumb index middle ring pinky]|]; [|discriminate].
    unfold recognizeSign; simpl.
    destruct (count =? 0)%Z; [discriminate|].
    destruct thumb, index, middle, ring, pinky; simpl; try discriminate;
      destruct (count =? 1)%Z; simpl; try discriminate;
      destruct (5 <=? count)%Z; discriminate.
  - intros count thumb. unfold recognizeSign; simpl.
    destruct (count =? 0)%Z; [reflexivity|].
    destruct thumb; reflexivity.
Qed.

(** ** The fallback of the translation *)

(** C5, as the code has it.  When the request to the model fails with a
    thrown value other than [null] or [undefined], [translateSignSequence]
    still fulfils its promise: the result has [success = false],
    [method = 'fallback-direct'], the original signs joined by single
    spaces as [translation], the same array as [originalSigns] and the
    thrown value's [message] as [error]; the awaiting timer callback then
    hands that result, with [displaySigns] added, to the callback. *)
Theorem translate_failure_falls_back :
  forall trim (h : heap) (signs : loc) (message : option string),
    translateSignSequence trim h signs (Threw (ThrownValue message))
    = Fulfilled {| success := false;
                   translation := join " " (deref h signs);
                   originalSigns := signs; displaySigns := Absent;
                   method := "fallback-direct";
                   error := Present message |}
    /\ forall t cb w,
         onSettled trim t cb signs (Threw (ThrownValue message)) w
         = note (Called t cb
                   {| success := false;
                      translation := join " " (deref (store w) signs);
                      originalSigns := signs;
                      displaySigns := Present signs;
                      method := "fallback-direct";
                      error := Present message |}
                   (buffer w)) w.
Proof. intros trim h signs message. split; reflexivity. Qed.

(** C5, as the claim words it, fails: a backend error with message "boom"
    on the signs HELLO, YES is answered with [method = 'fallback-direct'],
    not ['fallback']. *)
Lemma translate_failure_method_not_fallback :
  ~ (forall trim (h : heap) (signs : loc) (e : thrown),
       exists r,
         translateSignSequence trim h signs (Threw e) = Fulfilled r
         /\ success r = false
         /\ method r = "fallback"
         /\ translation r = join " " (deref h signs)).
Proof.
  intros H.
  destruct (H (fun s => s) [["HELLO"; "YES"]] 0%nat
              (ThrownValue (Some "boom"))) as (r & Hr & _ & Hm & _).
  simpl in Hr. injection Hr as <-. discriminate Hm.
Qed.

(** ** The stability filter *)

Lemma spread_buffer_copy w :
  (signBuffer w < length (store w))%nat ->
  fst (spread_buffer w) = length (store w)
  /\ deref (store (snd (spread_buffer w))) (fst (spread_buffer w)) = buffer w
  /\ buffer (snd (spread_buffer w)) = buffer w
  /\ detached (fst (spread_buffer w)) (snd (spread_buffer w)).
Proof.
  intros Hv. split; [reflexivity|]. split; [apply returned_spread|].
  split; [now apply buffer_spread|].
  unfold detached, spread_buffer, alloc; simpl.
  rewrite length_app; simpl. repeat split; lia.
Qed.

Lemma add_buffer now s cb g w :
  (signBuffer w < length (store w))%nat ->
  buffer (snd (addSignToBuffer now s cb g w))
  = if repeats_last (buffer w) s then buffer w else buffer w ++ [s].
Proof.
  intros Hv. destruct (repeats_last (buffer w) s) eqn:Hr.
  - rewrite add_rejects by exact Hr.
    exact (buffer_spread (note (Rejected now s) w) Hv).
  - rewrite add_accepts by exact Hr.
    rewrite buffer_spread by (simpl; now rewrite length_push).
    rewrite buffer_eq. now apply deref_push_same.
Qed.

Lemma add_returns now s cb g w :
  (signBuffer w < length (store w))%nat ->
  fst (addSignToBuffer now s cb g w) = length (store w)
  /\ deref (store (snd (addSignToBuffer now s cb g w)))
       (fst (addSignToBuffer now s cb g w))
     = buffer (snd (addSignToBuffer now s cb g w))
  /\ detached (fst (addSignToBuffer now s cb g w))
       (snd (addSignToBuffer now s cb g w)).
Proof.
  intros Hv. destruct (repeats_last (buffer w) s) eqn:Hr.
  - rewrite add_rejects by exact Hr.
    destruct (spread_buffer_copy (note (Rejected now s) w) Hv)
      as (H1 & H2 & H3 & H4).
    rewrite H2, H3. tauto.
  - rewrite add_accepts by exact Hr.
    match goal with |- context [spread_buffer ?x] => set (w1 := x) end.
    assert (Hv1 : (signBuffer w1 < length (store w1))%nat)
      by (unfold w1; simpl; now rewrite length_push).
    destruct (spread_buffer_copy w1 Hv1) as (H1 & H2 & H3 & H4).
    rewrite H2, H3. split; [|tauto].
    rewrite H1. unfold w1; simpl. apply length_push.
Qed.

Lemma add_accept_fields now s cb g w :
  repeats_last (buffer w) s = false ->
  let w' := snd (addSignToBuffer now s cb g w) in
  tasks w' = match bufferTimer w with
             | Some id => clearTimeout id (tasks w)
             | None => tasks w
             end ++ [Timeout (nextHandle w) (now + 4000) cb (default false g)]
  /\ bufferTimer w' = Some (nextHandle w)
  /\ lastSignTime w' = now
  /\ nextHandle w' = Pos.succ (nextHandle w)
  /\ log w' = Accepted now s :: log w.
Proof. intros Hr. simpl. rewrite add_accepts by exact Hr. now simpl. Qed.

Lemma add_accept_timeouts now s cb g w :
  timer_ok w -> repeats_last (buffer w) s = false ->
  timeouts (snd (addSignToBuffer now s cb g w))
  = [Timeout (nextHandle w) (now + 4000) cb (default false g)].
Proof.
  intros Hq Hr. unfold timeouts.
  destruct (add_accept_fields now s cb g w Hr) as (-> & _).
  now rewrite List.filter_app, (timeouts_after_clear w Hq).
Qed.

Lemma onTimeout_buffer gc t cb g w :
  buffer (onTimeout gc t cb g w) = [].
Proof.
  destruct (decide (buffer w = [])) as [He|Hne].
  - now rewrite onTimeout_empty.
  - assert (Hnew : deref ((store w ++ [buffer w]) ++ [[]])
                     (S (length (store w))) = []).
    { replace (S (length (store w))) with (length (store w ++ [buffer w]))
        by (rewrite length_app; simpl; lia).
      apply deref_snoc_new. }
    destruct g; [rewrite onTimeout_gemini by exact Hne
                |rewrite onTimeout_direct by exact Hne];
      now rewrite buffer_eq.
Qed.

Section FilterFacts.

Variable trim : string -> string.
Variable generateContent : Z -> string -> reply.

Local Abbreviation reachable := (reachable trim generateContent).
Local Abbreviation steps := (steps trim generateContent).

(** C8. [addSignToBuffer] is total: on every path it returns, and what it
    returns is a newly allocated array holding the buffer as it is after
    the decision: the old contents when the sign is rejected, the old
    contents followed by the sign when it is accepted.  The returned array
    is not the live buffer, and nothing the module does later writes to
    it. *)
Theorem addSignToBuffer_returns_copy :
  forall w, reachable w ->
  forall now signName cb useGemini,
    let r := fst (addSignToBuffer now signName cb useGemini w) in
    let w' := snd (addSignToBuffer now signName cb useGemini w) in
    deref (store w') r = buffer w'
    /\ buffer w' = (if repeats_last (buffer w) signName then buffer w
                    else buffer w ++ [signName])
    /\ r = length (store w)
    /\ r <> signBuffer w'
    /\ forall w'', steps w' w'' -> deref (store w'') r = deref (store w') r.
Proof.
  intros w Hw now s cb g r w'.
  assert (Hv := inv_valid w (reachable_Inv trim generateContent w Hw)).
  destruct (add_returns now s cb g w Hv) as (H1 & H2 & H3).
  split; [exact H2|]. split; [now apply add_buffer|].
  split; [exact H1|]. split; [apply H3|].
  intros w'' Hs. now apply (detached_steps trim generateContent r w' w'').
Qed.

(** C3. In every state the module can reach, by any calls with any signs at
    any times and any timer runs in between, no two neighbours in the
    buffer are equal; and a call whose sign equals the last entry of the
    buffer leaves the buffer, the timer and the last-accept time as they
    are, whatever the time of the call. *)
Theorem no_adjacent_duplicates :
  forall w, reachable w ->
    no_adjacent_repeat (buffer w)
    /\ forall now signName cb useGemini,
         last (buffer w) = Some signName ->
         let w' := snd (addSignToBuffer now signName cb useGemini w) in
         buffer w' = buffer w /\ tasks w' = tasks w
         /\ bufferTimer w' = bufferTimer w
         /\ lastSignTime w' = lastSignTime w.
Proof.
  intros w Hw. pose proof (reachable_Inv trim generateContent w Hw) as HI.
  split; [apply HI|].
  intros now s cb g Hlast w'. apply repeats_last_spec in Hlast.
  unfold w'. rewrite add_buffer by apply HI. rewrite Hlast.
  rewrite add_rejects by exact Hlast. tauto.
Qed.

(** C9. The buffer is empty at start, right after [clearSignBuffer] and
    right after the timer callback has run; and on an empty buffer the next
    [addSignToBuffer] accepts its sign whatever the sign and the time, also
    when the same sign was accepted a moment ago: the buffer then holds
    just that sign, exactly one timer is pending, due 4000 ms later, and
    the last-accept time is the time of the call. *)
Theorem empty_buffer_always_accepts :
  buffer init = []
  /\ forall w, reachable w ->
       (forall t, buffer (clearSignBuffer t w) = [])
       /\ (forall t i h d cb g,
             tasks w !! i = Some (Timeout h d cb g) ->
             buffer (run_task trim generateContent t i w) = [])
       /\ (buffer w = [] ->
           forall now signName cb useGemini,
             let w' := snd (addSignToBuffer now signName cb useGemini w) in
             buffer w' = [signName]
             /\ timeouts w' = [Timeout (nextHandle w) (now + 4000) cb
                                 (default false useGemini)]
             /\ bufferTimer w' = Some (nextHandle w)
             /\ lastSignTime w' = now
             /\ log w' = Accepted now signName :: log w).
Proof.
  split; [reflexivity|]. intros w Hw.
  pose proof (reachable_Inv trim generateContent w Hw) as HI.
  split; [|split].
  - intros t. unfold clearSignBuffer, alloc; simpl.
    rewrite buffer_eq. apply deref_snoc_new.
  - intros t i h d cb g Hi. unfold run_task. rewrite Hi.
    apply onTimeout_buffer.
  - intros He now s cb g w'.
    assert (Hr : repeats_last (buffer w) s = false) by now rewrite He.
    destruct (add_accept_fields now s cb g w Hr) as (_ & Hb & Ht & _ & Hl).
    split; [|split; [|tauto]].
    + unfold w'. rewrite add_buffer by apply HI. now rewrite Hr, He.
    + apply add_accept_timeouts; [apply HI|exact Hr].
Qed.

Lemma last_accepted_pending l t s :
  last_accepted l = Some (t, s) -> pending_tokens l <> [] ->
  last (pending_tokens l) = Some s.
Proof.
  induction l as [|e l IH]; [discriminate|].
  destruct e; simpl; intros Ha Hp; try (now apply IH); try congruence.
  injection Ha as _ ->. apply last_snoc.
Qed.

Lemma lastSignTime_onTimeout t cb g w :
  lastSignTime (onTimeout generateContent t cb g w) = lastSignTime w
  /\ last_accepted (log (onTimeout generateContent t cb g w))
     = last_accepted (log w).
Proof.
  destruct (decide (buffer w = [])) as [He|Hne].
  - now rewrite onTimeout_empty.
  - destruct g; [rewrite onTimeout_gemini by exact Hne
                |rewrite onTimeout_direct by exact Hne]; now simpl.
Qed.

Lemma lastSignTime_tracks w :
  reachable w -> lastSignTime w = last_accept_time (log w).
Proof.
  unfold last_accept_time.
  induction 1 as [|t c w' Hs IH|t i w' Hs IH]; [reflexivity| |].
  - destruct c as [s cb g| |]; simpl; [|exact IH|exact IH].
    destruct (repeats_last (buffer w') s) eqn:Hr.
    + rewrite add_rejects by exact Hr. exact IH.
    + rewrite add_accepts by exact Hr. reflexivity.
  - unfold run_task.
    destruct (tasks w' !! i) as [[h d cb g|d cb l o]|]; [| |exact IH].
    + destruct (lastSignTime_onTimeout t cb g (dequeue i w')) as [-> ->].
      exact IH.
    + unfold onSettled.
      destruct (translateSignSequence trim (store (dequeue i w')) l o);
        exact IH.
Qed.

(** C4, as the code has it.  The module keeps one last-accept time for the
    session: in every reachable state [lastSignTime] is the time at which
    the most recently accepted sign was accepted, so it is set by each
    acceptance and never reset by a flush or a clear.  While the buffer has
    not been emptied since that acceptance, the sign is the last entry of
    the buffer, and a call with the same sign less than 3000 ms after it is
    rejected: buffer, timer and last-accept time stay as they are. *)
Theorem reject_window_on_live_buffer :
  forall w t0 signName,
    reachable w -> last_accepted (log w) = Some (t0, signName) ->
    lastSignTime w = t0
    /\ (buffer w <> [] ->
        last (buffer w) = Some signName
        /\ forall now cb useGemini,
             now - t0 < 3000 ->
             let w' := snd (addSignToBuffer now signName cb useGemini w) in
             buffer w' = buffer w
             /\ log w' = Rejected now signName :: log w
             /\ tasks w' = tasks w
             /\ bufferTimer w' = bufferTimer w
             /\ lastSignTime w' = t0).
Proof.
  intros w t0 s Hw Ha.
  pose proof (reachable_Inv trim generateContent w Hw) as HI.
  assert (Ht : lastSignTime w = t0).
  { rewrite (lastSignTime_tracks w Hw). unfold last_accept_time.
    now rewrite Ha. }
  split; [exact Ht|]. intros Hne.
  assert (Hlast : last (buffer w) = Some s).
  { rewrite (inv_tokens w HI) in *. eapply last_accepted_pending; eauto. }
  split; [exact Hlast|]. intros now cb g _ w'.
  apply repeats_last_spec in Hlast. unfold w'.
  rewrite add_buffer by apply HI. rewrite Hlast.
  rewrite add_rejects by exact Hlast. simpl. tauto.
Qed.

End FilterFacts.

(** C4, as the claim words it, fails: STOP is accepted at time 0, the
    buffer is cleared at time 100, and STOP at time 200, less than 3000 ms
    after it was last accepted, is accepted again. *)
Lemma reject_window_ignores_emptied_buffer :
  ~ (forall trim generateContent w t0 signName now cb useGemini,
       reachable trim generateContent w ->
       last_accepted (log w) = Some (t0, signName) ->
       0 <= now - t0 < 3000 ->
       buffer (snd (addSignToBuffer now signName cb useGemini w))
       = buffer w).
Proof.
  intros H.
  specialize (H SampleHost.trim SampleHost.failing
                (invoke 100 Clear (invoke 0 (Add "STOP" 1%nat None) init))
                0 "STOP" 200 1%nat None).
  assert (Hr : reachable SampleHost.trim SampleHost.failing
                 (invoke 100 Clear (invoke 0 (Add "STOP" 1%nat None) init)))
    by (do 2 apply steps_call; apply steps_refl).
  specialize (H Hr eq_refl ltac:(lia)). vm_compute in H. discriminate H.
Qed.

(** ** The timer callback *)

Section FlushFacts.

Variable trim : string -> string.
Variable generateContent : Z -> string -> reply.

Local Abbreviation reachable := (reachable trim generateContent).
Local Abbreviation steps := (steps trim generateContent).
Local Abbreviation run_task := (run_task trim generateContent).

Lemma run_timeout w t i h d cb g :
  Inv w -> tasks w !! i = Some (Timeout h d cb g) ->
  run_task t i w = onTimeout generateContent t cb g (dequeue i w)
  /\ buffer w <> [].
Proof.
  intros HI Hi. split.
  - unfold GeminiService.run_task. now rewrite Hi.
  - now destruct (timeout_queued_singleton w i h d cb g (inv_timer w HI) Hi)
      as (_ & _ & _ & Hne).
Qed.

Lemma snapshot_detached w t cb g :
  (signBuffer w < length (store w))%nat -> buffer w <> [] ->
  let w' := onTimeout generateContent t cb g w in
  deref (store w') (length (store w)) = buffer w
  /\ detached (length (store w)) w'.
Proof.
  intros Hv Hne.
  assert (Hs : deref ((store w ++ [buffer w]) ++ [[]]) (length (store w))
               = buffer w).
  { rewrite deref_snoc_old by (rewrite length_app; simpl; lia).
    apply deref_snoc_new. }
  destruct g; simpl;
    [rewrite onTimeout_gemini by exact Hne
    |rewrite onTimeout_direct by exact Hne];
    unfold detached; simpl; rewrite !length_app; simpl;
    (split; [exact Hs|repeat split; lia]).
Qed.

(** C7. Direct mode is what [addSignToBuffer] arms when [useGemini] is
    left out; and whenever a direct-mode timer runs, the buffer [S] it
    finds is not empty and the callback is called, in the same task, with
    [success = true], [translation] the signs of [S] joined by single
    spaces (the first sign, then a space and the next sign for each
    further one), [originalSigns] (and [displaySigns]) a new array holding
    [S], [method = 'direct'] and no [error]. *)
Theorem direct_mode_result :
  (forall w now signName cb,
     repeats_last (buffer w) signName = false ->
     last (tasks (snd (addSignToBuffer now signName cb None w)))
     = Some (Timeout (nextHandle w) (now + 4000) cb false))
  /\ forall w, reachable w ->
     forall t i h d cb,
       tasks w !! i = Some (Timeout h d cb false) ->
       let w' := run_task t i w in
       buffer w <> []
       /\ log w' = Called t cb
                     {| success := true;
                        translation := joined_by_single_spaces (buffer w);
                        originalSigns := length (store w);
                        displaySigns := Present (length (store w));
                        method := "direct"; error := Absent |} []
                   :: Flushed t (buffer w) :: log w
       /\ deref (store w') (length (store w)) = buffer w.
Proof.
  split.
  - intros w now s cb Hr.
    destruct (add_accept_fields now s cb None w Hr) as (-> & _).
    apply last_snoc.
  - intros w Hw t i h d cb Hi w'.
    pose proof (reachable_Inv trim generateContent w Hw) as HI.
    destruct (run_timeout w t i h d cb false HI Hi) as [He Hne].
    split; [exact Hne|]. unfold w'. rewrite He.
    split.
    + rewrite <- join_single_spaces.
      now rewrite onTimeout_direct by exact Hne.
    + apply (snapshot_detached (dequeue i w) t cb false (inv_valid w HI) Hne).
Qed.

(** C1. When the timer callback runs in a reachable state, the buffer is not
    empty and holds exactly the tokens accepted since the last flush or
    clear.  Within that one task a new array [snap] receives them, the live
    buffer becomes empty (so [getSignBuffer()] right after returns an empty
    array), and the snapshot is dispatched: in direct mode the callback is
    called with it, seeing an empty live buffer; otherwise the model is
    asked with the prompt built from it and the continuation is queued.
    Nothing later writes to [snap].  A timer callback that finds the buffer
    empty changes nothing and dispatches nothing. *)
Theorem flush_is_atomic :
  (forall w, reachable w ->
   forall t i h d cb g,
     tasks w !! i = Some (Timeout h d cb g) ->
     let w' := run_task t i w in
     let snap := length (store w) in
     (buffer w <> [] /\ buffer w = pending_tokens (log w))
     /\ (deref (store w') snap = buffer w /\ snap <> signBuffer w')
     /\ (buffer w' = []
         /\ deref (store (snd (getSignBuffer w'))) (fst (getSignBuffer w'))
            = [])
     /\ flushes (log w') = Flushed t (buffer w) :: flushes (log w)
     /\ (if g
         then let r := generateContent t (prompt (buffer w)) in
              tasks w' = delete i (tasks w)
                         ++ [Awaiting (t + Z.of_nat (latency r)) cb snap
                               (answer r)]
              /\ log w' = Flushed t (buffer w) :: log w
         else tasks w' = delete i (tasks w)
              /\ exists r,
                   log w' = Called t cb r [] :: Flushed t (buffer w) :: log w
                   /\ originalSigns r = snap)
     /\ forall w'', steps w' w'' -> deref (store w'') snap = buffer w)
  /\ (forall w t cb g,
        buffer w = [] -> onTimeout generateContent t cb g w = w).
Proof.
  split; [|intros w t cb g He; now apply onTimeout_empty].
  intros w Hw t i h d cb g Hi w' snap.
  pose proof (reachable_Inv trim generateContent w Hw) as HI.
  destruct (run_timeout w t i h d cb g HI Hi) as [He Hne].
  destruct (snapshot_detached (dequeue i w) t cb g (inv_valid w HI) Hne)
    as [Hs Hd].
  fold (run_task t i w) in He. unfold w'. rewrite He.
  split; [split; [exact Hne|apply HI]|].
  split; [split; [exact Hs|apply Hd]|].
  assert (Hb := onTimeout_buffer generateContent t cb g (dequeue i w)).
  split; [split; [exact Hb|]|].
  { unfold getSignBuffer. rewrite returned_spread. exact Hb. }
  split; [|split].
  - destruct g; [rewrite onTimeout_gemini by exact Hne
                |rewrite onTimeout_direct by exact Hne]; reflexivity.
  - destruct g; [rewrite onTimeout_gemini by exact Hne
                |rewrite onTimeout_direct by exact Hne]; simpl.
    + split; reflexivity.
    + split; [reflexivity|]. eexists. split; reflexivity.
  - intros w'' Hs'. etransitivity; [|exact Hs].
    now apply (detached_steps trim generateContent snap _ w'').
Qed.

End FlushFacts.

(** ** Clearing *)

Lemma pending_tokens_cut a t b :
  pending_tokens (a ++ Cleared t :: b) = pending_tokens a.
Proof.
  induction a as [|e a IH]; [reflexivity|].
  destruct e; simpl; congruence.
Qed.

Lemma flushes_exact_cut a t b :
  flushes_exact (a ++ Cleared t :: b) -> flushes_exact a.
Proof.
  induction a as [|e a IH]; [exact (fun _ => I)|].
  destruct e; simpl; auto.
  rewrite pending_tokens_cut. tauto.
Qed.

Section ClearFacts.

Variable trim : string -> string.
Variable generateContent : Z -> string -> reply.

Local Abbreviation reachable := (reachable trim generateContent).
Local Abbreviation steps := (steps trim generateContent).
Local Abbreviation run_task := (run_task trim generateContent).
Local Abbreviation drain := (drain trim generateContent).
Local Abbreviation elapse := (elapse trim generateContent).

Lemma invoke_log t c w : exists later, log (invoke t c w) = later ++ log w.
Proof.
  destruct c as [s cb g| |]; simpl.
  - destruct (repeats_last (buffer w) s) eqn:Hr.
    + rewrite add_rejects by exact Hr. now exists [Rejected t s].
    + rewrite add_accepts by exact Hr. now exists [Accepted t s].
  - now exists [Cleared t].
  - now exists [].
Qed.

Lemma run_task_log t i w : exists later, log (run_task t i w) = later ++ log w.
Proof.
  unfold GeminiService.run_task.
  destruct (tasks w !! i) as [[h d cb g|d cb l o]|]; [| |now exists []].
  - destruct (decide (buffer (dequeue i w) = [])) as [He|Hne].
    + rewrite onTimeout_empty by exact He. now exists [].
    + destruct g; [rewrite onTimeout_gemini by exact Hne
                  |rewrite onTimeout_direct by exact Hne]; simpl.
      * now exists [Flushed t (buffer (dequeue i w))].
      * now eexists [_; _].
  - unfold onSettled.
    destruct (translateSignSequence trim (store (dequeue i w)) l o);
      now eexists [_].
Qed.

Lemma steps_log w w' : steps w w' -> exists later, log w' = later ++ log w.
Proof.
  induction 1 as [|t c w' Hs [a Ha]|t i w' Hs [a Ha]]; [now exists []| |].
  - destruct (invoke_log t c w') as [b Hb]. exists (b ++ a).
    now rewrite Hb, Ha, app_assoc.
  - destruct (run_task_log t i w') as [b Hb]. exists (b ++ a).
    now rewrite Hb, Ha, app_assoc.
Qed.

Lemma steps_trans w1 w2 w3 : steps w1 w2 -> steps w2 w3 -> steps w1 w3.
Proof.
  intros H12 H23. induction H23; [exact H12| |].
  - now apply steps_call.
  - now apply steps_task.
Qed.

Lemma run_task_without_timers t i w :
  timeouts w = [] ->
  timeouts (run_task t i w) = []
  /\ flushes (log (run_task t i w)) = flushes (log w).
Proof.
  unfold timeouts. intros Hq. unfold GeminiService.run_task.
  destruct (tasks w !! i) as [[h d cb g|d cb l o]|] eqn:Hi; [| |tauto].
  - exfalso.
    assert (Hin : In (Timeout h d cb g) (List.filter is_timeout (tasks w))).
    { apply filter_In. split; [|reflexivity].
      apply list_elem_of_In, list_elem_of_lookup. eauto. }
    now rewrite Hq in Hin.
  - unfold onSettled.
    destruct (translateSignSequence trim (store (dequeue i w)) l o); simpl;
      (split; [now apply filter_delete_nil|reflexivity]).
Qed.

Lemma drain_without_timers n T w :
  timeouts w = [] ->
  timeouts (drain n T w) = []
  /\ flushes (log (drain n T w)) = flushes (log w).
Proof.
  revert w. induction n as [|n IH]; intros w Hq; [tauto|]. simpl.
  destruct (earliest (tasks w)) as [[i d]|]; [|tauto].
  destruct (d <=? T); [|tauto].
  destruct (run_task_without_timers d i w Hq) as [Hq' Hf].
  destruct (IH _ Hq') as [Hq'' Hf']. split; [exact Hq''|congruence].
Qed.

Lemma backed_steps w w' l : steps w w' -> backed w l -> backed w' l.
Proof.
  intros Hs [Hd [t Hin]].
  destruct (detached_steps trim generateContent l w w' Hs Hd) as [Hd' He].
  destruct (steps_log w w' Hs) as [later Hl].
  split; [exact Hd'|]. exists t. rewrite He, Hl. apply in_or_app. now right.
Qed.

Lemma In_delete {A} (x : A) i q : In x (delete i q) -> In x q.
Proof.
  revert i. induction q as [|a q IH]; intros i; [now destruct i|].
  destruct i as [|i]; simpl; [tauto|]. intros [->|Hin]; eauto.
Qed.

Lemma invoke_awaiting t c w d cb l o :
  In (Awaiting d cb l o) (tasks (invoke t c w)) ->
  In (Awaiting d cb l o) (tasks w).
Proof.
  assert (Hc : In (Awaiting d cb l o)
                 match bufferTimer w with
                 | Some id => clearTimeout id (tasks w)
                 | None => tasks w
                 end -> In (Awaiting d cb l o) (tasks w)).
  { destruct (bufferTimer w); [|tauto]. unfold clearTimeout.
    rewrite filter_In. tauto. }
  destruct c as [s cb' g| |]; simpl; [|exact Hc|tauto].
  destruct (repeats_last (buffer w) s) eqn:Hr.
  - rewrite add_rejects by exact Hr. tauto.
  - rewrite add_accepts by exact Hr. simpl. intros Hin.
    apply in_app_or in Hin. destruct Hin as [Hin|[Hin|[]]]; [auto|].
    discriminate Hin.
Qed.

Lemma invoke_called t c w t' cb r live :
  In (Called t' cb r live) (log (invoke t c w)) ->
  In (Called t' cb r live) (log w).
Proof.
  destruct c as [s cb' g| |]; simpl; [| |tauto].
  - destruct (repeats_last (buffer w) s) eqn:Hr;
      [rewrite add_rejects by exact Hr|rewrite add_accepts by exact Hr];
      simpl; intros [Hin|Hin]; (discriminate Hin || exact Hin).
  - intros [Hin|Hin]; (discriminate Hin || exact Hin).
Qed.

Lemma all_backed_invoke t c w : all_backed w -> all_backed (invoke t c w).
Proof.
  intros [HA HC].
  assert (Hs : steps w (invoke t c w)) by apply steps_call, steps_refl.
  split.
  - intros d cb l o Hin. apply (backed_steps w _ l Hs).
    apply (HA d cb l o). now apply invoke_awaiting in Hin.
  - intros t' cb r live Hin. apply (backed_steps w _ _ Hs).
    apply (HC t' cb r live). now apply invoke_called in Hin.
Qed.

Lemma flush_backs w t i h d cb g :
  Inv w -> tasks w !! i = Some (Timeout h d cb g) ->
  backed (run_task t i w) (length (store w)).
Proof.
  intros HI Hi.
  destruct (run_timeout trim generateContent w t i h d cb g HI Hi)
    as [He Hne].
  destruct (snapshot_detached generateContent (dequeue i w) t cb g
              (inv_valid w HI) Hne) as [Hs Hd].
  rewrite He. split; [exact Hd|]. exists t.
  change (length (store w)) with (length (store (dequeue i w))).
  rewrite Hs.
  destruct g; [rewrite onTimeout_gemini by exact Hne
              |rewrite onTimeout_direct by exact Hne]; simpl; tauto.
Qed.

Lemma translate_originalSigns h l o r :
  translateSignSequence trim h l o = Fulfilled r -> originalSigns r = l.
Proof.
  destruct o as [text|[|m]]; simpl; intros [= <-]; reflexivity.
Qed.

Lemma run_timeout_fields w t i h d cb g :
  Inv w -> tasks w !! i = Some (Timeout h d cb g) ->
  (exists extra,
     tasks (run_task t i w) = delete i (tasks w) ++ extra
     /\ forall k, In k extra ->
          exists d' o, k = Awaiting d' cb (length (store w)) o)
  /\ (exists called,
       log (run_task t i w) = called ++ Flushed t (buffer w) :: log w
       /\ forall e, In e called ->
            exists r, e = Called t cb r []
                      /\ originalSigns r = length (store w)).
Proof.
  intros HI Hi.
  destruct (run_timeout trim generateContent w t i h d cb g HI Hi)
    as [He Hne].
  rewrite He.
  destruct g; [rewrite onTimeout_gemini by exact Hne
              |rewrite onTimeout_direct by exact Hne]; simpl.
  - split.
    + eexists [_]. split; [reflexivity|].
      intros k [<-|[]]. eauto.
    + exists []. split; [reflexivity|]. intros e [].
  - split.
    + exists []. split; [now rewrite app_nil_r|]. intros k [].
    + eexists [_]. split; [reflexivity|].
      intros e [<-|[]]. eauto.
Qed.

Lemma run_awaiting_fields w t i d cb l o :
  tasks w !! i = Some (Awaiting d cb l o) ->
  tasks (run_task t i w) = delete i (tasks w)
  /\ exists e,
       log (run_task t i w) = e :: log w
       /\ (e = Unhandled t
           \/ exists r live, e = Called t cb r live /\ originalSigns r = l).
Proof.
  intros Hi. unfold GeminiService.run_task. rewrite Hi. unfold onSettled.
  destruct (translateSignSequence trim (store (dequeue i w)) l o) as [r|]
    eqn:Hr; simpl; (split; [reflexivity|]); eexists; (split; [reflexivity|]).
  - right. do 2 eexists. split; [reflexivity|]. simpl.
    now apply translate_originalSigns in Hr.
  - now left.
Qed.

Lemma all_backed_run_task t i w :
  Inv w -> all_backed w -> all_backed (run_task t i w).
Proof.
  intros HI [HA HC].
  assert (Hs : steps w (run_task t i w)) by apply steps_task, steps_refl.
  destruct (tasks w !! i) as [[h d cb g|d cb l o]|] eqn:Hi.
  - pose proof (flush_backs w t i h d cb g HI Hi) as Hnew.
    destruct (run_timeout_fields w t i h d cb g HI Hi)
      as [(extra & Hq & Hx) (called & Hl & Hc)].
    split.
    + intros d' cb' l o Hin. rewrite Hq in Hin.
      apply in_app_or in Hin. destruct Hin as [Hin|Hin].
      * apply (backed_steps w _ l Hs), (HA d' cb' l o).
        now apply In_delete in Hin.
      * destruct (Hx _ Hin) as (d0 & o0 & [= _ _ -> _]). exact Hnew.
    + intros t' cb' r live Hin. rewrite Hl in Hin.
      apply in_app_or in Hin. destruct Hin as [Hin|[Hin|Hin]].
      * destruct (Hc _ Hin) as (r0 & [= _ _ <- _] & ->). exact Hnew.
      * discriminate Hin.
      * apply (backed_steps w _ _ Hs), (HC t' cb' r live Hin).
  - assert (Hb : backed (run_task t i w) l).
    { apply (backed_steps w _ l Hs), (HA d cb l o).
      apply list_elem_of_In, list_elem_of_lookup. eauto. }
    destruct (run_awaiting_fields w t i d cb l o Hi)
      as (Hq & e & Hl & He).
    split.
    + intros d' cb' l' o' Hin. rewrite Hq in Hin.
      apply (backed_steps w _ l' Hs), (HA d' cb' l' o').
      now apply In_delete in Hin.
    + intros t' cb' r live Hin. rewrite Hl in Hin.
      destruct Hin as [Hin|Hin].
      * destruct He as [->|(r0 & live0 & -> & Hr0)]; [discriminate Hin|].
        injection Hin as _ _ <- _. now rewrite Hr0.
      * apply (backed_steps w _ _ Hs), (HC t' cb' r live Hin).
  - unfold GeminiService.run_task. rewrite Hi. now split.
Qed.

Lemma reachable_all_backed w : reachable w -> all_backed w.
Proof.
  induction 1 as [|t c w' Hs IH|t i w' Hs IH].
  - split; intros; contradiction.
  - now apply all_backed_invoke.
  - apply all_backed_run_task; [|exact IH].
    now apply (reachable_Inv trim generateContent).
Qed.

Lemma filter_all_nil {A} (f : A -> bool) (q : list A) :
  (forall k, In k q -> f k = true) -> List.filter f q = [] -> q = [].
Proof.
  destruct q as [|a q]; [reflexivity|]. intros Hall Hf. simpl in Hf.
  rewrite (Hall a (or_introl eq_refl)) in Hf. discriminate Hf.
Qed.

(** C6. [clearSignBuffer] in a reachable state leaves the buffer empty and
    no timer pending.  If no further sign arrives, no flush ever happens,
    however long one waits, and when no translation is in flight nothing
    happens at all.  Whatever happens afterwards, every flush logged after
    the clear carries exactly the signs accepted after the clear (since the
    flush or clear before it), and every callback call logged after the
    clear delivers the snapshot of such a flush or of a flush made before
    the clear: the cleared signs are never dispatched. *)
Theorem clear_is_silent :
  forall w, reachable w ->
  forall t,
    let w' := clearSignBuffer t w in
    buffer w' = []
    /\ timeouts w' = []
    /\ log w' = Cleared t :: log w
    /\ (forall T, flushes (log (elapse T w')) = flushes (log w))
    /\ ((forall k, In k (tasks w) -> is_timeout k = true) ->
        forall T, elapse T w' = w')
    /\ (forall w'', steps w' w'' ->
        exists later,
          log w'' = later ++ Cleared t :: log w
          /\ flushes_exact later
          /\ forall t' cb r live,
               In (Called t' cb r live) later ->
               exists tf,
                 let snap := deref (store w'') (originalSigns r) in
                 In (Flushed tf snap) later \/ In (Flushed tf snap) (log w)).
Proof.
  intros w Hw t w'.
  assert (Hw' : reachable w') by exact (steps_call _ _ _ t Clear w Hw).
  pose proof (reachable_Inv trim generateContent w' Hw') as HI'.
  assert (Hq : timeouts w' = []).
  { unfold w', timeouts, clearSignBuffer, alloc; simpl.
    apply timeouts_after_clear.
    apply (reachable_Inv trim generateContent w Hw). }
  assert (Hb : buffer w' = []).
  { pose proof (inv_timer w' HI') as Ht. unfold timer_ok in Ht.
    now rewrite Hq in Ht. }
  split; [exact Hb|]. split; [exact Hq|]. split; [reflexivity|].
  split; [|split].
  - intros T. unfold GeminiService.elapse.
    now destruct (drain_without_timers (weight (tasks w')) T w' Hq) as [_ ->].
  - intros Hall T.
    assert (He : tasks w' = []).
    { apply (filter_all_nil is_timeout); [|exact Hq].
      intros k Hk. apply Hall. unfold w', clearSignBuffer, alloc in Hk.
      simpl in Hk. destruct (bufferTimer w); [|exact Hk].
      unfold clearTimeout in Hk. apply filter_In in Hk. tauto. }
    unfold GeminiService.elapse. now rewrite He.
  - intros w'' Hs. destruct (steps_log w' w'' Hs) as [later Hl].
    assert (Hw'' : reachable w'') by exact (steps_trans _ _ _ Hw' Hs).
    exists later. split; [exact Hl|]. split.
    + apply (flushes_exact_cut later t (log w)).
      change (Cleared t :: log w) with (log w'). rewrite <- Hl.
      apply (reachable_Inv trim generateContent w'' Hw'').
    + intros t' cb r live Hin.
      destruct (reachable_all_backed w'' Hw'') as [_ HC].
      destruct (HC t' cb r live) as [_ [tf Hf]].
      { rewrite Hl. apply in_or_app. now left. }
      exists tf. simpl. rewrite Hl in Hf.
      apply in_app_or in Hf. destruct Hf as [Hf|[Hf|Hf]];
        [now left|discriminate Hf|now right].
Qed.

End ClearFacts.

(** ** Debouncing *)

Section DebounceFacts.

Variable trim : string -> string.
Variable generateContent : Z -> string -> reply.

Local Abbreviation reachable := (reachable trim generateContent).
Local Abbreviation run_task := (run_task trim generateContent).
Local Abbreviation drain := (drain trim generateContent).
Local Abbreviation elapse := (elapse trim generateContent).
Local Abbreviation run := (run trim generateContent).






Lemma drain_S n T w :
  drain (S n) T w
  = match earliest (tasks w) with
    | Some (i, d) => if d <=? T then drain n T (run_task d i w) else w
    | None => w
    end.
Proof. reflexivity. Qed.




End DebounceFacts.

(** ** The timed loop runs every due task and stays within reach *)

Section LoopFacts.

Variable trim : string -> string.
Variable generateContent : Z -> string -> reply.

Local Abbreviation steps := (steps trim generateContent).
Local Abbreviation run_task := (run_task trim generateContent).
Local Abbreviation drain := (drain trim generateContent).
Local Abbreviation elapse := (elapse trim generateContent).
Local Abbreviation run := (run trim generateContent).

Lemma earliest_None q : earliest q = None -> q = [].
Proof.
  destruct q as [|k q]; [reflexivity|]. simpl.
  destruct (earliest q) as [[i d]|]; [|discriminate].
  destruct (d <? due_of k); discriminate.
Qed.

Lemma earliest_Some q i d :
  earliest q = Some (i, d) ->
  (exists k, q !! i = Some k /\ due_of k = d)
  /\ forall k, In k q -> d <= due_of k.
Proof.
  revert i d. induction q as [|k q IH]; intros i d; [discriminate|]. simpl.
  destruct (earliest q) as [[j e]|] eqn:He.
  - destruct (IH j e eq_refl) as [[k' [Hk' Hd']] Hmin].
    destruct (Z.ltb_spec e (due_of k)); intros [= <- <-].
    + split; [now exists k'|].
      intros k0 [<-|Hin]; [lia|now apply Hmin].
    + split; [now exists k|].
      intros k0 [<-|Hin]; [lia|]. specialize (Hmin k0 Hin). lia.
  - intros [= <- <-]. apply earliest_None in He. subst q.
    split; [now exists k|]. intros k0 [<-|[]]. lia.
Qed.

Lemma weight_app q1 q2 : weight (q1 ++ q2) = (weight q1 + weight q2)%nat.
Proof. induction q1 as [|k q1 IH]; simpl; [reflexivity|]. rewrite IH. lia. Qed.

Lemma weight_delete q i k :
  q !! i = Some k ->
  weight q = ((if is_timeout k then 2 else 1) + weight (delete i q))%nat.
Proof.
  revert i. induction q as [|a q IH]; intros i Hi; [discriminate|].
  destruct i as [|i]; simpl in *.
  - now injection Hi as ->.
  - rewrite (IH i Hi). lia.
Qed.

Lemma weight_run_task t i w k :
  tasks w !! i = Some k ->
  (weight (tasks (run_task t i w)) < weight (tasks w))%nat.
Proof.
  intros Hi. rewrite (weight_delete _ _ _ Hi).
  unfold GeminiService.run_task. rewrite Hi.
  destruct k as [h d cb g|d cb l o]; simpl.
  - destruct (decide (buffer (dequeue i w) = [])) as [He|Hne].
    + rewrite onTimeout_empty by exact He. simpl. lia.
    + destruct g; [rewrite onTimeout_gemini by exact Hne
                  |rewrite onTimeout_direct by exact Hne]; simpl;
        rewrite ?weight_app; simpl; lia.
  - unfold onSettled.
    destruct (translateSignSequence trim (store (dequeue i w)) l o);
      simpl; lia.
Qed.

Lemma drain_settles n T w :
  (weight (tasks w) <= n)%nat ->
  forall k, In k (tasks (drain n T w)) -> T < due_of k.
Proof.
  revert w. induction n as [|n IH]; intros w Hn k Hk.
  - simpl in Hk. destruct (tasks w) as [|a q]; [contradiction|].
    simpl in Hn. destruct (is_timeout a); lia.
  - simpl in Hk. destruct (earliest (tasks w)) as [[i d]|] eqn:He.
    + destruct (earliest_Some _ _ _ He) as [[k' [Hk' Hd]] Hmin].
      destruct (Z.leb_spec d T).
      * apply (IH (run_task d i w)); [|exact Hk].
        pose proof (weight_run_task d i w k' Hk'). lia.
      * specialize (Hmin k Hk). lia.
    + apply earliest_None in He. rewrite He in Hk. contradiction.
Qed.

(** [elapse] has fuel enough: afterwards no pending task is due. *)
Lemma elapse_settles T w :
  forall k, In k (tasks (elapse T w)) -> T < due_of k.
Proof. apply drain_settles. lia. Qed.

Lemma steps_drain n T w : steps w (drain n T w).
Proof.
  revert w. induction n as [|n IH]; intros w; [apply steps_refl|]. simpl.
  destruct (earliest (tasks w)) as [[i d]|]; [|apply steps_refl].
  destruct (d <=? T); [|apply steps_refl].
  apply (steps_trans trim generateContent _ (run_task d i w)); [|apply IH].
  apply steps_task, steps_refl.
Qed.

Lemma steps_run sched w : steps w (run sched w).
Proof.
  revert w. induction sched as [|[t c] sched IH]; intros w;
    [apply steps_refl|].
  unfold GeminiService.run. simpl.
  apply (steps_trans trim generateContent _
           (invoke t c (elapse t w))); [|apply IH].
  apply steps_call. apply steps_drain.
Qed.

End LoopFacts.

(** ** The scenarios of the specification, run on the sample host *)

Import SampleHost.

(** ONE at 0, ONE again at 500 (rejected), TWO at 600, then silence: one
    flush at 4600 with ONE, TWO, delivered as "ONE TWO". *)
Example scenario_one_one_two :
  log (elapse trim failing 4600
         (run trim failing
            [(0, Add "ONE" 7%nat (Some false));
             (500, Add "ONE" 7%nat (Some false));
             (600, Add "TWO" 7%nat (Some false))] init))
  = [Called 4600 7%nat
       {| success := true; translation := "ONE TWO"; originalSigns := 4%nat;
          displaySigns := Present 4%nat; method := "direct";
          error := Absent |} [];
     Flushed 4600 ["ONE"; "TWO"]; Accepted 600 "TWO"; Rejected 500 "ONE";
     Accepted 0 "ONE"].
Proof. vm_compute. reflexivity. Qed.

(** STOP at 0 and again at 3999: the second is rejected, the timer is not
    moved, and the flush happens at 4000 with STOP alone. *)
Example scenario_stop_stop :
  let w := run trim failing
             [(0, Add "STOP" 7%nat None); (3999, Add "STOP" 7%nat None)]
             init in
  tasks w = [Timeout 1 4000 7%nat false]
  /\ flushes (log (elapse trim failing 3999 w)) = []
  /\ flushes (log (elapse trim failing 4000 w)) = [Flushed 4000 ["STOP"]].
Proof. vm_compute. repeat split. Qed.

(** With the model in use and failing, the signs still arrive, joined. *)
Example scenario_model_fails :
  deliveries
    (log (elapse trim failing 9000
            (run trim failing
               [(0, Add "HELLO" 7%nat (Some true));
                (2000, Add "YES" 7%nat (Some true))] init)))
  = [Called 6030 7%nat
       {| success := false; translation := "HELLO YES";
          originalSigns := 3%nat; displaySigns := Present 3%nat;
          method := "fallback-direct";
          error := Present (Some "fetch failed") |} []].
Proof. vm_compute. reflexivity. Qed.

(** ** The theorems at concrete inputs *)

Lemma after_stop_reachable :
  reachable trim failing (invoke 0 (Add "STOP" 1%nat None) init).
Proof. apply steps_call, steps_refl. Qed.

Lemma flush_is_atomic_witness :
  let w := invoke 0 (Add "STOP" 1%nat None) init in
  let w' := run_task trim failing 4000 0 w in
  tasks w !! 0%nat = Some (Timeout 1 4000 1%nat false)
  /\ buffer w' = []
  /\ flushes (log w') = [Flushed 4000 ["STOP"]]
  /\ deref (store (invoke 4100 (Add "YES" 1%nat None) w')) (length (store w))
     = ["STOP"]
  /\ onTimeout failing 4000 1%nat false init = init.
Proof.
  intros w w'. destruct (flush_is_atomic trim failing) as [H1 H2].
  destruct (H1 w after_stop_reachable 4000 0%nat 1%positive 4000 1%nat false
              eq_refl) as (_ & _ & [Hb _] & Hf & _ & Hk).
  split; [reflexivity|]. split; [exact Hb|]. split; [exact Hf|].
  split; [apply Hk; apply steps_call, steps_refl|].
  apply H2. reflexivity.
Defined.



Lemma no_adjacent_duplicates_witness :
  let w := invoke 0 (Add "STOP" 1%nat None) init in
  last (buffer w) = Some "STOP"
  /\ no_adjacent_repeat (buffer w)
  /\ buffer (snd (addSignToBuffer 99999 "STOP" 1%nat None w)) = buffer w.
Proof.
  intros w.
  destruct (no_adjacent_duplicates trim failing w after_stop_reachable)
    as [Hn Hr].
  split; [reflexivity|]. split; [exact Hn|].
  apply (Hr 99999 "STOP" 1%nat None). reflexivity.
Defined.

Lemma reject_window_on_live_buffer_witness :
  let w := invoke 0 (Add "STOP" 1%nat None) init in
  last_accepted (log w) = Some (0, "STOP")
  /\ lastSignTime w = 0
  /\ buffer (snd (addSignToBuffer 500 "STOP" 1%nat None w)) = buffer w.
Proof.
  intros w.
  destruct (reject_window_on_live_buffer trim failing w 0 "STOP"
              after_stop_reachable eq_refl) as [Ht Hr].
  split; [reflexivity|]. split; [exact Ht|].
  assert (Hne : buffer w <> []) by (vm_compute; discriminate).
  destruct (Hr Hne) as [_ Hrej].
  apply (Hrej 500 1%nat None). vm_compute. reflexivity.
Defined.

Lemma clear_is_silent_witness :
  let w := invoke 0 (Add "STOP" 1%nat None) init in
  let w' := clearSignBuffer 100 w in
  buffer w' = [] /\ timeouts w' = []
  /\ flushes (log (elapse trim failing 10000 w')) = []
  /\ elapse trim failing 10000 w' = w'
  /\ exists later,
       log (invoke 200 (Add "YES" 1%nat None) w')
       = later ++ Cleared 100 :: log w /\ flushes_exact later.
Proof.
  intros w w'.
  destruct (clear_is_silent trim failing w after_stop_reachable 100)
    as (Hb & Hq & _ & Hf & Hi & Hs).
  split; [exact Hb|]. split; [exact Hq|]. split; [exact (Hf 10000)|].
  split.
  - apply Hi. intros k [<-|[]]. reflexivity.
  - destruct (Hs (invoke 200 (Add "YES" 1%nat None) (clearSignBuffer 100 w)))
      as (later & Hl & Hx & _); [apply steps_call, steps_refl|].
    exists later. split; [exact Hl|exact Hx].
Defined.

Lemma after_one_two_one_reachable :
  reachable trim failing
    (invoke 4000 (Add "ONE" 1%nat None)
       (invoke 2000 (Add "TWO" 1%nat None)
          (invoke 0 (Add "ONE" 1%nat None) init))).
Proof. do 3 apply steps_call. apply steps_refl. Qed.

Lemma direct_mode_result_witness :
  let w2 := invoke 2000 (Add "TWO" 1%nat None)
              (invoke 0 (Add "ONE" 1%nat None) init) in
  let w := invoke 4000 (Add "ONE" 1%nat None) w2 in
  last (tasks w) = Some (Timeout 3 8000 1%nat false)
  /\ log (run_task trim failing 8000 0 w)
     = [Called 8000 1%nat
          {| success := true; translation := "ONE TWO ONE";
             originalSigns := 4%nat; displaySigns := Present 4%nat;
             method := "direct"; error := Absent |} [];
        Flushed 8000 ["ONE"; "TWO"; "ONE"]; Accepted 4000 "ONE";
        Accepted 2000 "TWO"; Accepted 0 "ONE"].
Proof.
  intros w2 w. destruct (direct_mode_result trim failing) as [H1 H2]. split.
  - apply (H1 w2 4000 "ONE" 1%nat). reflexivity.
  - destruct (H2 w after_one_two_one_reachable 8000 0%nat 3%positive 8000
                1%nat eq_refl) as (_ & Hl & _).
    exact Hl.
Defined.

Lemma translate_failure_falls_back_witness :
  translateSignSequence trim [["HELLO"; "YES"]] 0%nat
    (Threw (ThrownValue (Some "boom")))
  = Fulfilled {| success := false; translation := "HELLO YES";
                 originalSigns := 0%nat; displaySigns := Absent;
                 method := "fallback-direct";
                 error := Present (Some "boom") |}.
Proof.
  exact (proj1 (translate_failure_falls_back trim [["HELLO"; "YES"]] 0%nat
                 (Some "boom"))).
Defined.

Lemma addSignToBuffer_returns_copy_witness :
  let r := fst (addSignToBuffer 0 "STOP" 1%nat None init) in
  let w' := snd (addSignToBuffer 0 "STOP" 1%nat None init) in
  deref (store w') r = ["STOP"]
  /\ r <> signBuffer w'
  /\ deref (store (invoke 5 (Add "YES" 1%nat None) w')) r = ["STOP"].
Proof.
  intros r w'.
  destruct (addSignToBuffer_returns_copy trim failing init (steps_refl _ _ _)
              0 "STOP" 1%nat None) as (Hc & Hb & _ & Hne & Hk).
  split; [exact (eq_trans Hc Hb)|]. split; [exact Hne|].
  transitivity (deref (store w') r); [|exact (eq_trans Hc Hb)].
  apply Hk. apply steps_call, steps_refl.
Defined.

Lemma empty_buffer_always_accepts_witness :
  let w := invoke 100 Clear (invoke 0 (Add "STOP" 1%nat None) init) in
  buffer w = []
  /\ last_accepted (log w) = Some (0, "STOP")
  /\ buffer (snd (addSignToBuffer 200 "STOP" 1%nat None w)) = ["STOP"]
  /\ timeouts (snd (addSignToBuffer 200 "STOP" 1%nat None w))
     = [Timeout 2 4200 1%nat false]
  /\ buffer (run_task trim failing 4000 0
               (invoke 0 (Add "STOP" 1%nat None) init)) = [].
Proof.
  intros w. destruct (empty_buffer_always_accepts trim failing) as [_ H].
  assert (Hw : reachable trim failing w)
    by (apply steps_call; exact after_stop_reachable).
  destruct (H w Hw) as (_ & _ & Ha).
  destruct (Ha eq_refl 200 "STOP" 1%nat None) as (Hb & Hq & _).
  destruct (H _ after_stop_reachable) as (_ & Hflush & _).
  split; [reflexivity|]. split; [reflexivity|]. split; [exact Hb|].
  split; [exact Hq|].
  exact (Hflush 4000 0%nat 1%positive 4000 1%nat false eq_refl).
Defined.

(** * Further properties *)

(** ** The buffer and its timer in every reachable state *)

Import Usage.

Section BufferFacts.

Variable trim : string -> string.
Variable generateContent : Z -> string -> reply.

Local Abbreviation reachable := (reachable trim generateContent).
Local Abbreviation steps := (steps trim generateContent).
Local Abbreviation run_task := (run_task trim generateContent).
Local Abbreviation drain := (drain trim generateContent).
Local Abbreviation elapse := (elapse trim generateContent).

(** X1. Accepted signs are never left without a timer, and there is never
    more than one: in every reachable state either the buffer is empty and
    no timer is pending, or the buffer holds something and exactly one
    timer is pending, the one [bufferTimer] names, due 4000 ms after the
    last acceptance. *)
Theorem buffer_always_has_its_timer :
  forall w, reachable w ->
    (buffer w = [] /\ timeouts w = [])
    \/ (buffer w <> []
        /\ exists h cb g,
             timeouts w = [Timeout h (lastSignTime w + 4000) cb g]
             /\ bufferTimer w = Some h).
Proof.
  intros w Hw.
  pose proof (inv_timer w (reachable_Inv trim generateContent w Hw)) as Ht.
  unfold timer_ok in Ht.
  destruct (timeouts w) as [|[h d cb g|] [|k q]]; try contradiction.
  - now left.
  - destruct Ht as (Hb & -> & Hne). right. split; [exact Hne|].
    now exists h, cb, g.
Qed.

(** X2. [getSignBuffer()] in a reachable state returns a new array holding
    exactly the signs accepted since the last flush or clear, oldest first;
    it changes neither the buffer nor the timer nor the log, the returned
    array is not the live buffer, and nothing done later writes to it. *)
Theorem getSignBuffer_shows_pending_tokens :
  forall w, reachable w ->
    let r := fst (getSignBuffer w) in
    let w' := snd (getSignBuffer w) in
    deref (store w') r = pending_tokens (log w)
    /\ (buffer w' = buffer w /\ tasks w' = tasks w /\ log w' = log w
        /\ bufferTimer w' = bufferTimer w /\ lastSignTime w' = lastSignTime w)
    /\ r <> signBuffer w'
    /\ forall w'', steps w' w'' -> deref (store w'') r = pending_tokens (log w).
Proof.
  intros w Hw r w'.
  pose proof (reachable_Inv trim generateContent w Hw) as HI.
  destruct (spread_buffer_copy w (inv_valid w HI)) as (_ & Hc & Hb & Hd).
  unfold getSignBuffer in *. fold r w' in Hc, Hb, Hd.
  split; [rewrite Hc; apply HI|].
  split; [now rewrite Hb|]. split; [apply Hd|].
  intros w'' Hs.
  destruct (detached_steps trim generateContent r w' w'' Hs Hd) as [_ ->].
  rewrite Hc. apply HI.
Qed.

Lemma awaiting_clearTimeout id q :
  List.filter is_awaiting (clearTimeout id q) = List.filter is_awaiting q.
Proof.
  unfold clearTimeout. induction q as [|k q IH]; [reflexivity|].
  destruct k as [h d cb g|d cb l o]; simpl.
  - destruct (negb (Pos.eqb h id)); simpl; exact IH.
  - now rewrite IH.
Qed.

Lemma filter_delete_one {A} (f : A -> bool) (q : list A) i k :
  q !! i = Some k -> f k = true ->
  length (List.filter f q) = S (length (List.filter f (delete i q))).
Proof.
  revert i. induction q as [|a q IH]; intros i Hi Hk; [discriminate|].
  destruct i as [|i]; simpl in *.
  - injection Hi as ->. now rewrite Hk.
  - destruct (f a); simpl; rewrite (IH i Hi Hk); reflexivity.
Qed.

Lemma settled_invoke t c w :
  length (flushes (log (invoke t c w))) = length (flushes (log w))
  /\ settled (invoke t c w) = settled w.
Proof.
  unfold settled, in_flight. destruct c as [s cb g| |]; simpl.
  - destruct (repeats_last (buffer w) s) eqn:Hr.
    + rewrite add_rejects by exact Hr. now simpl.
    + rewrite add_accepts by exact Hr. simpl.
      rewrite List.filter_app. simpl. rewrite app_nil_r.
      destruct (bufferTimer w); [rewrite awaiting_clearTimeout|]; now split.
  - destruct (bufferTimer w); [rewrite awaiting_clearTimeout|]; now split.
  - now split.
Qed.

Lemma settled_run_task t i w :
  (length (flushes (log (run_task t i w))) + settled w
   = length (flushes (log w)) + settled (run_task t i w))%nat.
Proof.
  unfold settled, in_flight, GeminiService.run_task.
  destruct (tasks w !! i) as [[h d cb g|d cb l o]|] eqn:Hi; [| |reflexivity].
  - assert (Hq : List.filter is_awaiting (tasks (dequeue i w))
                 = List.filter is_awaiting (tasks w))
      by exact (filter_delete_keep is_awaiting (tasks w) i _ Hi eq_refl).
    destruct (decide (buffer (dequeue i w) = [])) as [He|Hne].
    + rewrite onTimeout_empty by exact He. rewrite Hq. reflexivity.
    + destruct g; [rewrite onTimeout_gemini by exact Hne
                  |rewrite onTimeout_direct by exact Hne]; simpl;
        rewrite ?List.filter_app, ?length_app; simpl;
        change (delete i (tasks w)) with (tasks (dequeue i w));
        rewrite Hq; lia.
  - pose proof (filter_delete_one is_awaiting (tasks w) i _ Hi eq_refl) as Hq.
    unfold onSettled.
    destruct (translateSignSequence trim (store (dequeue i w)) l o);
      simpl; rewrite Hq; lia.
Qed.

(** X3. No flush is answered twice and none is forgotten: in every
    reachable state the number of flushes made so far equals the number of
    callback calls, plus the rejections nobody handles, plus the
    translations still in flight. *)
Theorem every_flush_is_answered_once :
  forall w, reachable w ->
    length (flushes (log w))
    = (length (deliveries (log w)) + length (unhandled (log w))
       + in_flight w)%nat.
Proof.
  induction 1 as [|t c w' Hs IH|t i w' Hs IH]; [reflexivity| |].
  - destruct (settled_invoke t c w') as [Hf Hq]. unfold settled in Hq.
    rewrite Hf, Hq. exact IH.
  - pose proof (settled_run_task t i w') as Hq. unfold settled in Hq. lia.
Qed.

Lemma invoke_flushed t c w t' snap :
  In (Flushed t' snap) (log (invoke t c w)) -> In (Flushed t' snap) (log w).
Proof.
  destruct c as [s cb' g| |]; simpl; [| |tauto].
  - destruct (repeats_last (buffer w) s) eqn:Hr;
      [rewrite add_rejects by exact Hr|rewrite add_accepts by exact Hr];
      simpl; intros [Hin|Hin]; (discriminate Hin || exact Hin).
  - intros [Hin|Hin]; (discriminate Hin || exact Hin).
Qed.

Lemma run_task_flushed t i w t' snap :
  Inv w -> In (Flushed t' snap) (log (run_task t i w)) ->
  In (Flushed t' snap) (log w) \/ (snap = buffer w /\ buffer w <> []).
Proof.
  intros HI Hin.
  destruct (tasks w !! i) as [[h d cb g|d cb l o]|] eqn:Hi.
  - destruct (run_timeout_fields trim generateContent w t i h d cb g HI Hi)
      as [_ (called & Hl & Hc)].
    destruct (run_timeout trim generateContent w t i h d cb g HI Hi)
      as [_ Hne].
    rewrite Hl in Hin. apply in_app_or in Hin.
    destruct Hin as [Hin|[Hin|Hin]].
    + destruct (Hc _ Hin) as (r & Hr & _). discriminate Hr.
    + injection Hin as _ <-. now right.
    + now left.
  - destruct (run_awaiting_fields trim generateContent w t i d cb l o Hi)
      as (_ & e & Hl & He).
    rewrite Hl in Hin. destruct Hin as [Hin|Hin]; [|now left].
    destruct He as [->|(r & live & -> & _)]; discriminate Hin.
  - unfold GeminiService.run_task in Hin. rewrite Hi in Hin. now left.
Qed.

(** X4. What is dispatched is never empty and never stutters: every flush
    ever logged carries at least one sign and no two equal neighbours, and
    the [originalSigns] of every callback call still holds, unchanged, the
    snapshot of one of those flushes. *)
Theorem dispatched_snapshots_well_formed :
  forall w, reachable w ->
    (forall t snap,
       In (Flushed t snap) (log w) -> snap <> [] /\ no_adjacent_repeat snap)
    /\ (forall t cb r live,
          In (Called t cb r live) (log w) ->
          let signs := deref (store w) (originalSigns r) in
          signs <> [] /\ no_adjacent_repeat signs
          /\ exists t', In (Flushed t' signs) (log w)).
Proof.
  intros w Hw.
  assert (HF : forall t snap, In (Flushed t snap) (log w) ->
                 snap <> [] /\ no_adjacent_repeat snap).
  { induction Hw as [|t c w' Hs IH|t i w' Hs IH]; intros t' snap Hin.
    - contradiction.
    - apply (IH t' snap). now apply invoke_flushed in Hin.
    - pose proof (reachable_Inv trim generateContent w' Hs) as HI.
      destruct (run_task_flushed t i w' t' snap HI Hin) as [Hold|[-> Hne]].
      + now apply (IH t' snap).
      + split; [exact Hne|apply HI]. }
  split; [exact HF|].
  intros t cb r live Hin signs.
  destruct (reachable_all_backed trim generateContent w Hw) as [_ HC].
  destruct (HC t cb r live Hin) as [_ [t' Ht']].
  destruct (HF t' _ Ht') as [Hne Hn].
  split; [exact Hne|]. split; [exact Hn|]. now exists t'.
Qed.

Lemma reachable_direct_reachable w :
  reachable_direct trim generateContent w -> reachable w.
Proof.
  induction 1; [apply steps_refl|now apply steps_call|now apply steps_task].
Qed.

Lemma paired_counts_aux l :
  (paired l ->
   length (deliveries l) = length (flushes l) /\ unhandled l = [])
  /\ (forall t cb r live,
        paired (Called t cb r live :: l) ->
        length (deliveries (Called t cb r live :: l))
        = length (flushes (Called t cb r live :: l))
        /\ unhandled (Called t cb r live :: l) = []).
Proof.
  induction l as [|e l [IH1 IH2]].
  - split; [now split|]. intros t cb r live [].
  - split.
    + destruct e as [t s|t s|t|t snap|t cb r live|t];
        try exact IH1; try (simpl; contradiction).
      exact (IH2 t cb r live).
    + intros t cb r live Hp. destruct e; simpl in Hp; try contradiction.
      destruct Hp as (_ & _ & _ & _ & _ & _ & Hp).
      destruct (IH1 Hp) as [Hc Hu]. simpl. now rewrite Hc, Hu.
Qed.

Lemma all_direct_invoke t c w :
  direct_call c = true -> all_direct (tasks w) ->
  all_direct (tasks (invoke t c w)).
Proof.
  intros Hc Hq.
  assert (Hcl : all_direct match bufferTimer w with
                           | Some id => clearTimeout id (tasks w)
                           | None => tasks w
                           end).
  { destruct (bufferTimer w); [|exact Hq]. intros k Hk. apply Hq.
    unfold clearTimeout in Hk. apply filter_In in Hk. tauto. }
  destruct c as [s cb g| |]; simpl; [|exact Hcl|exact Hq].
  destruct (repeats_last (buffer w) s) eqn:Hr.
  - rewrite add_rejects by exact Hr. exact Hq.
  - rewrite add_accepts by exact Hr. simpl. intros k Hk.
    apply in_app_or in Hk. destruct Hk as [Hk|[<-|[]]]; [now apply Hcl|].
    simpl in Hc. apply negb_true_iff in Hc. rewrite Hc. eauto.
Qed.

Lemma paired_invoke t c w : paired (log w) -> paired (log (invoke t c w)).
Proof.
  destruct c as [s cb g| |]; simpl; [| |tauto].
  - destruct (repeats_last (buffer w) s) eqn:Hr;
      [rewrite add_rejects by exact Hr|rewrite add_accepts by exact Hr];
      simpl; tauto.
  - tauto.
Qed.

Lemma direct_run_task t i w :
  Inv w -> all_direct (tasks w) -> paired (log w) ->
  all_direct (tasks (run_task t i w)) /\ paired (log (run_task t i w)).
Proof.
  intros HI Hq Hp.
  destruct (tasks w !! i) as [k|] eqn:Hi.
  - destruct (Hq k) as (h & d & cb & ->).
    { apply list_elem_of_In, list_elem_of_lookup. eauto. }
    destruct (run_timeout trim generateContent w t i h d cb false HI Hi)
      as [He Hne].
    rewrite He, onTimeout_direct by exact Hne. simpl.
    split; [|now repeat split].
    intros k Hk. apply Hq. now apply In_delete in Hk.
  - unfold GeminiService.run_task. rewrite Hi. now split.
Qed.

(** X5. Used the way [Translator.jsx] uses it (signs added with
    [useGemini = false], and clears), the module never asks the model and
    never loses a flush: no translation is ever in flight, and the log
    pairs every flush with a callback call made in the same task, with
    [success = true], [method = 'direct'], the snapshot joined by single
    spaces as [translation], no [error], and an already empty live buffer;
    so there are exactly as many callback calls as flushes. *)
Theorem front_end_deliveries_are_direct :
  forall w, reachable_direct trim generateContent w ->
    all_direct (tasks w)
    /\ in_flight w = 0%nat
    /\ paired (log w)
    /\ unhandled (log w) = []
    /\ length (deliveries (log w)) = length (flushes (log w)).
Proof.
  intros w Hw.
  assert (H : all_direct (tasks w) /\ paired (log w)).
  { induction Hw as [|t c w Hc Hw [IHq IHp]|t i w Hw [IHq IHp]].
    - split; [intros k []|exact I].
    - split; [now apply all_direct_invoke|now apply paired_invoke].
    - apply direct_run_task; [|exact IHq|exact IHp].
      apply (reachable_Inv trim generateContent).
      now apply reachable_direct_reachable. }
  destruct H as [Hq Hp]. split; [exact Hq|]. split.
  - unfold in_flight.
    assert (He : List.filter is_awaiting (tasks w) = []).
    { clear Hp Hw. induction (tasks w) as [|k q IH]; [reflexivity|].
      destruct (Hq k (or_introl eq_refl)) as (h & d & cb & ->). simpl.
      apply IH. intros k' Hk'. apply Hq. now right. }
    now rewrite He.
  - destruct (proj1 (paired_counts_aux (log w)) Hp) as [Hc Hu].
    now repeat split.
Qed.






Lemma lone_gemini_timer_fires w h d cb :
  Inv w -> tasks w = [Timeout h d cb true] ->
  let r := generateContent d (prompt (buffer w)) in
  run_task d 0 w =
  {| store := (store w ++ [buffer w]) ++ [[]];
     signBuffer := S (length (store w));
     lastSignTime := lastSignTime w; bufferTimer := bufferTimer w;
     tasks := [Awaiting (d + Z.of_nat (latency r)) cb (length (store w))
                 (answer r)];
     nextHandle := nextHandle w;
     log := Flushed d (buffer w) :: log w |}.
Proof.
  intros HI Hq r.
  assert (Hi : tasks w !! 0%nat = Some (Timeout h d cb true))
    by now rewrite Hq.
  destruct (run_timeout trim generateContent w d 0 h d cb true HI Hi)
    as [He Hne].
  rewrite He, onTimeout_gemini by exact Hne. simpl. now rewrite Hq.
Qed.

(** X7. The context-aware path from timer to callback.  In a reachable
    state whose only pending task is a timer armed with [useGemini], due at
    [d], nothing is delivered before the model has reacted; once it has,
    at [d] plus its latency, the log has gained the flush of the whole
    buffer at [d] and one entry for its outcome: on an answer a call of the
    callback with [success = true], [method = 'gemini-context'] and the
    trimmed answer; on a failure with a thrown value a call with the
    fallback result; on a rejection with [null] or [undefined] no call at
    all, only an unhandled rejection.  In each case [originalSigns] and
    [displaySigns] are the snapshot array, which holds the flushed signs. *)
Theorem context_aware_round_trip :
  forall w h d cb,
    reachable w -> tasks w = [Timeout h d cb true] ->
    let r := generateContent d (prompt (buffer w)) in
    let back := d + Z.of_nat (latency r) in
    let snap := length (store w) in
    (forall T, T < back ->
       deliveries (log (elapse T w)) = deliveries (log w)
       /\ unhandled (log (elapse T w)) = unhandled (log w))
    /\ (forall T, back <= T ->
          deref (store (elapse T w)) snap = buffer w
          /\ buffer (elapse T w) = []
          /\ log (elapse T w) =
             match translateSignSequence trim (store (elapse T w)) snap
                     (answer r) with
             | Fulfilled res =>
                 Called back cb
                   {| success := success res;
                      translation := translation res;
                      originalSigns := snap;
                      displaySigns := Present snap;
                      method := method res; error := error res |} []
             | RejectedTypeError => Unhandled back
             end :: Flushed d (buffer w) :: log w).
Proof.
  intros w h d cb Hw Hq r back snap.
  pose proof (reachable_Inv trim generateContent w Hw) as HI.
  pose proof (lone_gemini_timer_fires w h d cb HI Hq) as Hfire.
  fold r snap back in Hfire.
  assert (Hs : deref ((store w ++ [buffer w]) ++ [[]]) snap = buffer w).
  { unfold snap.
    rewrite deref_snoc_old by (rewrite length_app; simpl; lia).
    apply deref_snoc_new. }
  assert (Hnew : deref ((store w ++ [buffer w]) ++ [[]]) (S snap) = []).
  { unfold snap.
    replace (S (length (store w))) with (length (store w ++ [buffer w]))
      by (rewrite length_app; simpl; lia).
    apply deref_snoc_new. }
  unfold GeminiService.elapse. rewrite Hq.
  change (weight [Timeout h d cb true]) with 2%nat.
  split; intros T HT.
  - rewrite drain_S, Hq. cbn [earliest due_of].
    destruct (Z.leb_spec d T); [|now split].
    rewrite Hfire, drain_S. cbn [tasks earliest due_of].
    destruct (Z.leb_spec (d + Z.of_nat (latency r)) T);
      [unfold back in HT; lia|]. now split.
  - assert (d <= T) by (unfold back in HT; lia).
    rewrite drain_S, Hq. cbn [earliest due_of].
    destruct (Z.leb_spec d T); [|lia].
    rewrite Hfire, drain_S. cbn [tasks earliest due_of].
    destruct (Z.leb_spec (d + Z.of_nat (latency r)) T);
      [|unfold back in HT; lia].
    fold back.
    unfold GeminiService.run_task. cbn [tasks lookup list_lookup].
    unfold onSettled, dequeue, note. cbn [store delete list_delete tasks].
    destruct (answer r) as [text|[|m]]; simpl;
      rewrite ?buffer_eq, ?Hs, ?Hnew; now repeat split.
Qed.

End BufferFacts.

(** *** At concrete inputs *)

Lemma flushed_stop_reachable :
  reachable trim failing
    (run_task trim failing 4000 0 (invoke 0 (Add "STOP" 1%nat None) init)).
Proof. apply steps_task. exact after_stop_reachable. Qed.

Lemma buffer_always_has_its_timer_witness :
  let w := invoke 0 (Add "STOP" 1%nat None) init in
  buffer w = ["STOP"]
  /\ exists h cb g, timeouts w = [Timeout h (0 + 4000) cb g]
                    /\ bufferTimer w = Some h.
Proof.
  intros w. split; [reflexivity|].
  destruct (buffer_always_has_its_timer trim failing w after_stop_reachable)
    as [[Hb _]|(_ & Hq)]; [discriminate Hb|exact Hq].
Defined.


Lemma every_flush_is_answered_once_witness :
  let w := run_task trim failing 4000 0
             (invoke 0 (Add "STOP" 1%nat None) init) in
  length (flushes (log w)) = 1%nat
  /\ length (deliveries (log w)) = 1%nat /\ in_flight w = 0%nat.
Proof.
  intros w.
  pose proof (every_flush_is_answered_once trim failing w
                flushed_stop_reachable) as H.
  split; [reflexivity|]. split; [reflexivity|].
  change (length (deliveries (log w))) with 1%nat in H.
  change (length (flushes (log w))) with 1%nat in H.
  change (length (unhandled (log w))) with 0%nat in H.
  lia.
Defined.

Lemma front_end_deliveries_are_direct_witness :
  let w := run_task trim failing 6000 0
             (invoke 2000 (Add "TWO" 1%nat (Some false))
                (invoke 0 (Add "ONE" 1%nat (Some false)) init)) in
  log w = [Called 6000 1%nat
             {| success := true; translation := "ONE TWO";
                originalSigns := 3%nat; displaySigns := Present 3%nat;
                method := "direct"; error := Absent |} [];
           Flushed 6000 ["ONE"; "TWO"]; Accepted 2000 "TWO";
           Accepted 0 "ONE"]
  /\ in_flight w = 0%nat /\ paired (log w)
  /\ length (deliveries (log w)) = length (flushes (log w)).
Proof.
  intros w.
  assert (Hw : reachable_direct trim failing w).
  { apply direct_task.
    do 2 (apply direct_invoke; [reflexivity|]). apply direct_init. }
  destruct (front_end_deliveries_are_direct trim failing w Hw)
    as (_ & Hi & Hp & _ & Hc).
  split; [reflexivity|]. split; [exact Hi|]. split; [exact Hp|exact Hc].
Defined.

Lemma getSignBuffer_shows_pending_tokens_witness :
  let w := invoke 0 (Add "STOP" 1%nat None) init in
  deref (store (snd (getSignBuffer w))) (fst (getSignBuffer w)) = ["STOP"]
  /\ deref (store (invoke 5 (Add "YES" 1%nat None) (snd (getSignBuffer w))))
       (fst (getSignBuffer w)) = ["STOP"].
Proof.
  intros w.
  destruct (getSignBuffer_shows_pending_tokens trim failing w
              after_stop_reachable) as (Hc & _ & _ & Hk).
  split; [exact Hc|]. apply Hk. apply steps_call, steps_refl.
Defined.

Lemma context_aware_round_trip_witness :
  let w := invoke 1000 (Add "YES" 1%nat (Some true))
             (invoke 0 (Add "HELLO" 1%nat (Some true)) init) in
  tasks w = [Timeout 2 5000 1%nat true]
  /\ deliveries (log (elapse trim failing 5029 w)) = []
  /\ log (elapse trim failing 5030 w)
     = [Called 5030 1%nat
          {| success := false; translation := "HELLO YES";
             originalSigns := 3%nat; displaySigns := Present 3%nat;
             method := "fallback-direct";
             error := Present (Some "fetch failed") |} [];
        Flushed 5000 ["HELLO"; "YES"]; Accepted 1000 "YES";
        Accepted 0 "HELLO"].
Proof.
  intros w.
  assert (Hw : reachable trim failing w)
    by (do 2 apply steps_call; apply steps_refl).
  destruct (context_aware_round_trip trim failing w 2%positive 5000 1%nat
              Hw eq_refl) as [Hbefore Hafter].
  destruct (Hbefore 5029) as [Hd _]; [reflexivity|].
  destruct (Hafter 5030) as (_ & _ & Hl); [vm_compute; discriminate|].
  split; [reflexivity|]. split; [exact Hd|exact Hl].
Defined.

Lemma dispatched_snapshots_well_formed_witness :
  let w := run_task trim failing 4000 0
             (invoke 0 (Add "STOP" 1%nat None) init) in
  In (Flushed 4000 ["STOP"]) (log w)
  /\ ["STOP"] <> []
  /\ deref (store w) 2%nat <> [].
Proof.
  intros w.
  destruct (dispatched_snapshots_well_formed trim failing w
              flushed_stop_reachable) as [HF HC].
  assert (Hin : In (Flushed 4000 ["STOP"]) (log w)) by (right; now left).
  split; [exact Hin|]. split; [exact (proj1 (HF _ _ Hin))|].
  refine (proj1 (HC 4000 1%nat _ [] (or_introl eq_refl))).
Defined.

(** ** Text to signs *)

Import JsText TextToSign.

Ltac each_char c :=
  destruct c as [[] [] [] [] [] [] [] []]; vm_compute; try reflexivity;
  try discriminate; try tauto.

Lemma upper_char_shape c :
  negb (is_lower (upper_char c)) = true
  /\ is_word (upper_char c) = is_word c
  /\ is_space (upper_char c) = is_space c.
Proof. each_char c. Qed.

Lemma upper_char_fixed c : is_lower c = false -> upper_char c = c.
Proof. unfold upper_char. now intros ->. Qed.

Lemma word_char_shape c :
  negb (is_lower c) && (is_word c || is_space c) && negb (is_space c)
  = is_upper c || is_digit c || (code c =? 95)%nat.
Proof. each_char c. Qed.

Lemma sign_char_shape c :
  is_upper c || is_digit c || (code c =? 95)%nat = true ->
  is_ascii c = true /\ is_lower c = false /\ is_space c = false
  /\ is_word c || is_space c = true.
Proof. each_char c. Qed.

Lemma word_not_space c : is_word c = true -> is_space c = false.
Proof. each_char c. Qed.

Lemma all_chars_impl (p q : Ascii.ascii -> bool) s :
  (forall c, p c = true -> q c = true) ->
  all_chars p s = true -> all_chars q s = true.
Proof.
  intros Hpq. induction s as [|c r IH]; [reflexivity|]. simpl.
  rewrite !andb_true_iff. intros [Hc Hr]. auto.
Qed.

Lemma all_chars_and (p q : Ascii.ascii -> bool) s :
  all_chars p s = true -> all_chars q s = true ->
  all_chars (fun c => p c && q c) s = true.
Proof.
  induction s as [|c r IH]; [reflexivity|]. simpl.
  rewrite !andb_true_iff. intros [Hc Hr] [Hc' Hr']. auto.
Qed.

Lemma all_chars_append p s1 s2 :
  all_chars p (String.append s1 s2) = all_chars p s1 && all_chars p s2.
Proof.
  induction s1 as [|c r IH]; [reflexivity|]. simpl.
  now rewrite IH, andb_assoc.
Qed.

Lemma upper_ascii_no_lower s :
  all_chars (fun c => negb (is_lower c)) (upper_ascii s) = true.
Proof.
  unfold upper_ascii. induction s as [|c r IH]; [reflexivity|]. simpl.
  now rewrite (proj1 (upper_char_shape c)), IH.
Qed.

Lemma upper_ascii_fixed s :
  all_chars (fun c => negb (is_lower c)) s = true -> upper_ascii s = s.
Proof.
  unfold upper_ascii. induction s as [|c r IH]; [reflexivity|]. simpl.
  rewrite andb_true_iff, negb_true_iff. intros [Hc Hr].
  now rewrite (upper_char_fixed c Hc), IH.
Qed.

Lemma keep_chars_all p q s :
  all_chars q s = true ->
  all_chars (fun c => q c && p c) (keep_chars p s) = true.
Proof.
  induction s as [|c r IH]; [reflexivity|]. simpl.
  rewrite andb_true_iff. intros [Hc Hr].
  destruct (p c) eqn:Hp; simpl; [rewrite Hc, Hp; simpl|]; auto.
Qed.

Lemma keep_chars_fixed p s : all_chars p s = true -> keep_chars p s = s.
Proof.
  induction s as [|c r IH]; [reflexivity|]. simpl.
  rewrite andb_true_iff. intros [-> Hr]. now rewrite IH.
Qed.

Lemma split_spaces_cons s : exists p ps, split_spaces s = p :: ps.
Proof.
  induction s as [|c r (p & ps & IH)]; [now exists EmptyString, []|].
  simpl. rewrite IH.
  destruct (is_space c); [destruct (starts_with_space r)|]; eauto.
Qed.

Lemma split_spaces_pieces q s :
  all_chars q s = true ->
  forall w, In w (split_spaces s) ->
    all_chars (fun c => q c && negb (is_space c)) w = true.
Proof.
  induction s as [|c r IH]; simpl.
  - intros _ w [<-|[]]. reflexivity.
  - rewrite andb_true_iff. intros [Hc Hr] w.
    destruct (split_spaces r) as [|p ps]; [intros []|].
    specialize (IH Hr).
    destruct (is_space c) eqn:Hs.
    + destruct (starts_with_space r); [apply IH|].
      intros [<-|Hin]; [reflexivity|now apply IH].
    + intros [<-|Hin]; [|apply IH; now right].
      simpl. rewrite Hc, Hs. simpl. apply IH. now left.
Qed.

Lemma append_cons c r s :
  String.append (String c r) s = String c (String.append r s).
Proof. reflexivity. Qed.

Lemma append_nil s : String.append EmptyString s = s.
Proof. reflexivity. Qed.

Lemma append_empty_r s : String.append s EmptyString = s.
Proof.
  induction s as [|c r IH]; [reflexivity|].
  change (String c (String.append r EmptyString) = String c r).
  now rewrite IH.
Qed.

Lemma split_spaces_prefix w s :
  all_chars (fun c => negb (is_space c)) w = true ->
  split_spaces (String.append w s)
  = match split_spaces s with
    | p :: ps => String.append w p :: ps
    | [] => []
    end.
Proof.
  induction w as [|c r IH].
  - intros _. rewrite append_nil. now destruct (split_spaces s).
  - simpl all_chars. rewrite andb_true_iff, negb_true_iff. intros [Hc Hr].
    rewrite append_cons. simpl split_spaces.
    rewrite (IH Hr), Hc. destruct (split_spaces s); [reflexivity|].
    now rewrite append_cons.
Qed.

Lemma join_starts_plain w ws :
  plain_word w -> starts_with_space (join " " (w :: ws)) = false.
Proof.
  intros [Hn Hw]. destruct w as [|c r]; [discriminate|].
  simpl in Hw. apply andb_true_iff in Hw. destruct Hw as [Hc _].
  apply negb_true_iff in Hc. unfold join. destruct ws; simpl; exact Hc.
Qed.

Lemma split_spaces_after_space s :
  starts_with_space s = false ->
  split_spaces (String (Ascii.ascii_of_nat 32) s)
  = EmptyString :: split_spaces s.
Proof.
  intros Hs. destruct (split_spaces_cons s) as (p & ps & Hp).
  change (split_spaces (String (Ascii.ascii_of_nat 32) s))
    with (match split_spaces s with
          | p :: ps =>
              if is_space (Ascii.ascii_of_nat 32)
              then (if starts_with_space s then p :: ps
                    else EmptyString :: p :: ps)
              else String (Ascii.ascii_of_nat 32) p :: ps
          | [] => []
          end).
  rewrite Hp, Hs. reflexivity.
Qed.

Lemma split_spaces_join ws :
  Forall plain_word ws -> ws <> [] -> split_spaces (join " " ws) = ws.
Proof.
  induction 1 as [|w ws Hw Hws IH]; [congruence|]. intros _.
  destruct ws as [|w2 ws].
  - unfold join; simpl. destruct Hw as [_ Hw].
    rewrite <- (append_empty_r w) at 1.
    rewrite (split_spaces_prefix w EmptyString Hw). simpl.
    now rewrite append_empty_r.
  - change (join " " (w :: w2 :: ws))
      with (String.append w
              (String (Ascii.ascii_of_nat 32) (join " " (w2 :: ws)))).
    rewrite (split_spaces_prefix w _ (proj2 Hw)).
    rewrite split_spaces_after_space
      by (apply join_starts_plain; now inversion Hws).
    rewrite IH by discriminate.
    now rewrite append_empty_r.
Qed.

Lemma filter_nonempty_plain ws :
  Forall plain_word ws -> List.filter nonempty ws = ws.
Proof.
  induction 1 as [|w ws [Hn _] Hws IH]; [reflexivity|]. simpl.
  now rewrite Hn, IH.
Qed.

Lemma words_nil s :
  List.filter nonempty (split_spaces s) = [] <-> all_chars is_space s = true.
Proof.
  induction s as [|c r IH]; [now split|]. simpl.
  destruct (split_spaces_cons r) as (p & ps & Hr). rewrite Hr in *.
  destruct (is_space c) eqn:Hc; simpl.
  - destruct (starts_with_space r); simpl; exact IH.
  - split; discriminate.
Qed.

Lemma strip_all_space s :
  all_chars is_space (strip_punctuation s)
  = all_chars (fun c => negb (is_word c)) s.
Proof.
  unfold strip_punctuation. induction s as [|c r IH]; [reflexivity|]. simpl.
  destruct (is_word c) eqn:Hw; simpl.
  - now rewrite (word_not_space c Hw).
  - destruct (is_space c) eqn:Hs; simpl; [rewrite Hs|]; exact IH.
Qed.

Lemma upper_ascii_no_word s :
  all_chars (fun c => negb (is_word c)) (upper_ascii s)
  = all_chars (fun c => negb (is_word c)) s.
Proof.
  unfold upper_ascii. induction s as [|c r IH]; [reflexivity|]. simpl.
  destruct (upper_char_shape c) as (_ & -> & _). now rewrite IH.
Qed.

Lemma split_commas_cons s : exists p ps, split_commas s = p :: ps.
Proof.
  induction s as [|c r (p & ps & IH)]; [now exists EmptyString, []|].
  simpl. rewrite IH. destruct (code c =? 44)%nat; eauto.
Qed.

Section TextFacts.

Variable trim : string -> string.
Variable toUpperCase : string -> string.

(** On ASCII strings [toUpperCase] maps the letters a to z to A to Z and
    leaves everything else. *)
Hypothesis toUpperCase_ascii :
  forall s, ascii_only s -> toUpperCase s = upper_ascii s.

Local Abbreviation wordSigns := (wordSigns toUpperCase).

Lemma wordSigns_pieces text :
  ascii_only text ->
  Forall (fun s => nonempty s = true
                   /\ all_chars (fun c => is_upper c || is_digit c
                                          || (code c =? 95)%nat) s = true)
    (wordSigns text).
Proof.
  intros Ha. unfold TextToSign.wordSigns.
  rewrite (toUpperCase_ascii text Ha).
  apply Forall_forall. intros w Hw. apply list_elem_of_In in Hw.
  apply filter_In in Hw. destruct Hw as [Hin Hn]. split; [exact Hn|].
  pose proof (keep_chars_all (fun c => is_word c || is_space c)
                (fun c => negb (is_lower c)) (upper_ascii text)
                (upper_ascii_no_lower text)) as Hk.
  pose proof (split_spaces_pieces _ _ Hk w Hin) as Hp.
  apply (all_chars_impl _ _ w (fun c H => eq_trans (eq_sym (word_char_shape c)) H)).
  exact Hp.
Qed.

(** X8. The word-by-word conversion of an ASCII text yields only
    non-empty signs made of the capital letters A to Z, the digits and the
    underscore: no sign is empty, none has a space, a small letter or a
    punctuation mark. *)
Theorem wordSigns_are_upper_case_words :
  forall text, ascii_only text ->
    forall s, In s (wordSigns text) ->
      s <> EmptyString
      /\ all_chars (fun c => is_upper c || is_digit c || (code c =? 95)%nat) s
         = true.
Proof.
  intros text Ha s Hin.
  pose proof (wordSigns_pieces text Ha) as Hf.
  rewrite Forall_forall in Hf. apply list_elem_of_In in Hin.
  destruct (Hf s Hin) as [Hn Hc]. split; [|exact Hc].
  intros ->. discriminate Hn.
Qed.

(** X9. Converting is idempotent: the signs of an ASCII text, joined by
    single spaces and converted again, come back unchanged. *)
Theorem wordSigns_round_trip :
  forall text, ascii_only text ->
    wordSigns (Store.join " " (wordSigns text)) = wordSigns text.
Proof.
  intros text Ha.
  pose proof (wordSigns_pieces text Ha) as Hf.
  set (ws := wordSigns text) in *.
  assert (Hplain : Forall plain_word ws).
  { eapply Forall_impl; [exact Hf|]. intros w [Hn Hc]. split; [exact Hn|].
    apply (all_chars_impl _ _ w
             (fun c H => eq_trans (f_equal negb
                (proj1 (proj2 (proj2 (sign_char_shape c H))))) eq_refl) Hc). }
  assert (Hshape : forall p,
             (forall c, is_upper c || is_digit c || (code c =? 95)%nat = true
                        -> p c = true) ->
             p (Ascii.ascii_of_nat 32) = true ->
             all_chars p (Store.join " " ws) = true).
  { intros p Hp Hsp. clear Hplain. unfold Store.join.
    induction Hf as [|w ws' [_ Hw] Hws IH]; [reflexivity|].
    destruct ws' as [|w2 ws'].
    - exact (all_chars_impl _ _ w Hp Hw).
    - change (String.concat " " (w :: w2 :: ws'))
        with (String.append w
                (String.append " " (String.concat " " (w2 :: ws')))).
      rewrite !all_chars_append.
      change (all_chars p " ") with (p (Ascii.ascii_of_nat 32) && true).
      now rewrite (all_chars_impl _ _ w Hp Hw), Hsp, IH. }
  unfold TextToSign.wordSigns.
  rewrite toUpperCase_ascii
    by (apply Hshape; [intros c H; apply (sign_char_shape c H)|reflexivity]).
  rewrite upper_ascii_fixed
    by (apply Hshape;
        [intros c H; destruct (sign_char_shape c H) as (_ & -> & _)
        |]; reflexivity).
  unfold strip_punctuation. rewrite keep_chars_fixed
    by (apply Hshape; [intros c H; apply (sign_char_shape c H)|reflexivity]).
  destruct ws as [|w ws'] eqn:Hws; [reflexivity|].
  rewrite split_spaces_join by (exact Hplain || discriminate).
  now apply filter_nonempty_plain.
Qed.

Lemma guidance_without_signs API_KEY text o :
  ascii_only text ->
  let g := textToSignGuidance trim toUpperCase API_KEY text o in
  (g_success g && (0 <? length (signs g))%nat = false
   <-> (no_key API_KEY = true \/ exists e, o = Threw e)
       /\ all_chars (fun c => negb (is_word c)) text = true)
  /\ (no_key API_KEY = true -> request API_KEY text = None)
  /\ g_success g = true /\ originalText g = text.
Proof.
  intros Ha g.
  assert (Hw : wordSigns text = []
               <-> all_chars (fun c => negb (is_word c)) text = true).
  { unfold TextToSign.wordSigns. rewrite (toUpperCase_ascii text Ha).
    rewrite words_nil, strip_all_space, upper_ascii_no_word. reflexivity. }
  assert (Hlen : forall l : list string,
             (0 <? length l)%nat = false <-> l = []).
  { intros [|x l]; [now split|]. cbn. split; discriminate. }
  unfold g, textToSignGuidance, request.
  destruct (no_key API_KEY) eqn:Hk; simpl.
  - rewrite Hlen, Hw. split; [tauto|]. now repeat split.
  - destruct o as [reply|e]; simpl.
    + split; [|now repeat split].
      destruct (split_commas_cons (trim reply)) as (p & ps & ->). simpl.
      split; [discriminate|]. intros [[Habs|[e He]] _]; discriminate.
    + rewrite Hlen, Hw. split; [|now repeat split].
      split; [intros H; split; [right; eauto|exact H]|tauto].
Qed.

Lemma trim_start_blank s :
  all_chars is_space s = true -> SampleHost.trim_start s = EmptyString.
Proof.
  induction s as [|c r IH]; [reflexivity|]. simpl.
  unfold is_space at 1. destruct (SampleHost.is_space c); [exact IH|].
  discriminate.
Qed.

Lemma trim_start_nonblank s :
  all_chars is_space s = false ->
  exists c r, SampleHost.trim_start s = String c r /\ is_space c = false.
Proof.
  induction s as [|c r IH]; [discriminate|]. simpl.
  unfold is_space at 1. destruct (SampleHost.is_space c) eqn:Hc; [exact IH|].
  intros _. now exists c, r.
Qed.

Lemma trim_end_keeps c r :
  is_space c = false -> nonempty (SampleHost.trim_end (String c r)) = true.
Proof.
  unfold is_space. intros Hc. simpl.
  destruct (SampleHost.trim_end r); [now rewrite Hc|reflexivity].
Qed.

Lemma trim_blank s :
  nonempty (SampleHost.trim s) = negb (all_chars is_space s).
Proof.
  unfold SampleHost.trim. destruct (all_chars is_space s) eqn:Hb.
  - now rewrite trim_start_blank.
  - destruct (trim_start_nonblank s Hb) as (c & r & -> & Hc).
    now rewrite trim_end_keeps.
Qed.

(** On ASCII strings [trim] removes the leading and trailing tabs, line
    feeds, vertical tabs, form feeds, carriage returns and spaces. *)
Hypothesis trim_ascii :
  forall s, ascii_only s -> trim s = SampleHost.trim s.

(** X10. What [handleTextToSign] does with an ASCII text.  It does nothing
    at all exactly when the text is blank (white space only).  It raises
    its alert exactly when the text is not blank, the word-by-word
    conversion ran (no API key, or the request failed) and the text has no
    letter, digit or underscore.  In every other case it shows the signs
    of [textToSignGuidance], at least one.  Without a key the model is not
    asked at all. *)
Theorem text_to_sign_alert :
  forall API_KEY text o, ascii_only text ->
    let g := textToSignGuidance trim toUpperCase API_KEY text o in
    let h := handleTextToSign trim toUpperCase API_KEY text o in
    (h = Ignored <-> all_chars is_space text = true)
    /\ (h = Alerted
        <-> all_chars is_space text = false
            /\ (no_key API_KEY = true \/ exists e, o = Threw e)
            /\ all_chars (fun c => negb (is_word c)) text = true)
    /\ (forall shown, h = Showed shown -> shown = signs g /\ shown <> [])
    /\ (no_key API_KEY = true -> request API_KEY text = None)
    /\ g_success g = true /\ originalText g = text.
Proof.
  intros API_KEY text o Ha g h.
  destruct (guidance_without_signs API_KEY text o Ha)
    as (Htest & Hreq & Hs & Ho).
  fold g in Htest, Hs, Ho.
  split; [|split; [|split; [|now repeat split]]];
    unfold h, handleTextToSign; fold g;
    rewrite (trim_ascii text Ha), trim_blank;
    destruct (all_chars is_space text); simpl.
  - now split.
  - destruct (g_success g && (0 <? length (signs g))%nat);
      split; discriminate.
  - split; [discriminate|]. intros [Hb _]. discriminate Hb.
  - destruct (g_success g && (0 <? length (signs g))%nat) eqn:Ht.
    + split; [discriminate|]. intros (_ & Hfall).
      apply Htest in Hfall. discriminate Hfall.
    + split; [intros _; split; [reflexivity|now apply Htest]|reflexivity].
  - discriminate.
  - destruct (g_success g && (0 <? length (signs g))%nat) eqn:Ht;
      [|discriminate].
    intros shown [= <-]. split; [reflexivity|].
    apply andb_true_iff in Ht. destruct Ht as [_ Ht].
    intros Hnil. rewrite Hnil in Ht. discriminate Ht.
Qed.

End TextFacts.

(** ** The sign library *)

Import SignLibrary.

(** X11. What [recognizeSign] can answer.  Either no sign, with no name and
    confidence 0, or one of six signs with its display name and a
    confidence of 0.7, 0.85 or 0.9; and every sign it can answer is a key
    of [SIGN_LIBRARY], so [getSignDetails] finds an entry for it. *)
Theorem recognizeSign_answers :
  forall inherited arg,
    let r := recognizeSign arg in
    (sign r = None /\ name r = None /\ confidence r = 0%Q)
    \/ exists s n,
         sign r = Some s /\ name r = Some n
         /\ In (s, n) [ ("STOP", "Stop"); ("YES", "Yes"); ("ONE", "One (1)");
                        ("PEACE", "Peace"); ("FOUR", "Four (4)");
                        ("HELLO", "Hello") ]
         /\ In (confidence r) [7 # 10; 85 # 100; 9 # 10]
         /\ exists e, getSignDetails inherited s = Own e.
Proof.
  intros inherited [[count thumb index middle ring pinky]|]; [|now left].
  unfold recognizeSign; simpl.
  destruct (count =? 0)%Z;
    [right; do 2 eexists; repeat split; simpl; eauto 10|].
  destruct thumb, index, middle, ring, pinky; simpl;
    try (right; do 2 eexists; repeat split; simpl; eauto 10; fail);
    destruct (count =? 1)%Z; simpl;
    try (right; do 2 eexists; repeat split; simpl; eauto 10; fail);
    destruct (5 <=? count)%Z;
    try (right; do 2 eexists; repeat split; simpl; eauto 10; fail);
    now left.
Qed.

(** X12. The category filter partitions the library: every entry is listed
    under the category it names and under no other, that category is one of
    the declared [CATEGORIES], a category is empty exactly when it is not
    declared, and the sizes of the declared categories add up to
    [getSignCount()]. *)
Theorem categories_partition_library :
  (forall e c, In e (getSignsByCategory c)
               <-> In e getAllSigns /\ category e = c)
  /\ (forall e, In e getAllSigns ->
        exists label, own (category e) CATEGORIES = Some label)
  /\ (forall c, getSignsByCategory c = [] <-> own c CATEGORIES = None)
  /\ (length (getSignsByCategory "number")
      + length (getSignsByCategory "gesture") = getSignCount)%nat.
Proof.
  split; [|split; [|split]].
  - intros e c. unfold getSignsByCategory. rewrite filter_In.
    now rewrite String.eqb_eq.
  - intros e Hin. unfold getAllSigns, SIGN_LIBRARY in Hin. simpl in Hin.
    repeat (destruct Hin as [<-|Hin]; [simpl; eauto|]). contradiction.
  - intros c.
    destruct (String.eqb_spec "number" c) as [<-|Hn];
      [vm_compute; split; discriminate|].
    destruct (String.eqb_spec "gesture" c) as [<-|Hg];
      [vm_compute; split; discriminate|].
    apply String.eqb_neq in Hn, Hg.
    unfold getSignsByCategory, getAllSigns, SIGN_LIBRARY, CATEGORIES.
    cbn -[String.eqb]. rewrite ?Hn, ?Hg. now split.
  - reflexivity.
Qed.

Section LibraryFacts.

Variable inherited : string -> bool.
Variable toLowerCase : string -> string.
Variable toUpperCase : string -> string.

Hypothesis toUpperCase_ascii :
  forall s, JsText.ascii_only s -> toUpperCase s = JsText.upper_ascii s.
Hypothesis toLowerCase_ascii :
  forall s, JsText.ascii_only s -> toLowerCase s = JsText.lower_ascii s.

Local Abbreviation findSignInfo := (findSignInfo toUpperCase).
Local Abbreviation searchSigns := (searchSigns toLowerCase).

Ltac ascii_case :=
  repeat match goal with
    | |- context [toUpperCase ?s] =>
        rewrite (toUpperCase_ascii s) by reflexivity
    | |- context [toLowerCase ?s] =>
        rewrite (toLowerCase_ascii s) by reflexivity
    end.

(** X13. Every entry of the library is found again, by its key through
    [getSignDetails] and by its display name, in the given spelling or in
    capitals, through the lookup [Translator.jsx] makes for the signs of a
    sequence. *)
Theorem library_entries_are_found :
  forall key e, In (key, e) SIGN_LIBRARY ->
    getSignDetails inherited key = Own e
    /\ findSignInfo (entry_name e) = Some e
    /\ findSignInfo (toUpperCase (entry_name e)) = Some e.
Proof.
  intros key e Hin. unfold SIGN_LIBRARY in Hin. simpl in Hin.
  unfold SignLibrary.findSignInfo, getAllSigns, SIGN_LIBRARY.
  repeat (destruct Hin as [[= <- <-]|Hin];
          [split; [reflexivity|]; simpl; ascii_case; split; reflexivity|]).
  contradiction.
Qed.

Lemma lower_upper_char c :
  JsText.lower_char (JsText.upper_char c) = JsText.lower_char c
  /\ (JsText.is_ascii c = true ->
      JsText.is_ascii (JsText.upper_char c) = true).
Proof. each_char c. Qed.

Lemma lower_upper_ascii s :
  JsText.lower_ascii (JsText.upper_ascii s) = JsText.lower_ascii s.
Proof.
  unfold JsText.lower_ascii, JsText.upper_ascii.
  induction s as [|c r IH]; [reflexivity|]. simpl.
  now rewrite (proj1 (lower_upper_char c)), IH.
Qed.

Lemma upper_ascii_only s :
  JsText.ascii_only s -> JsText.ascii_only (JsText.upper_ascii s).
Proof.
  unfold JsText.ascii_only, JsText.upper_ascii.
  induction s as [|c r IH]; [reflexivity|]. simpl.
  rewrite !andb_true_iff. intros [Hc Hr].
  split; [now apply lower_upper_char|now apply IH].
Qed.

Lemma prefix_self s : String.prefix s s = true.
Proof.
  induction s as [|c r IH]; [reflexivity|]. simpl.
  now destruct (Ascii.ascii_dec c c).
Qed.

Lemma includes_self s : JsText.includes s s = true.
Proof.
  assert (E : JsText.includes s s
              = String.prefix s s
                || match s with
                   | EmptyString => false
                   | String _ r => JsText.includes s r
                   end) by now destruct s.
  now rewrite E, prefix_self.
Qed.

Lemma includes_empty s : JsText.includes EmptyString s = true.
Proof. now destruct s. Qed.

Lemma filter_all_true {A} (f : A -> bool) l :
  (forall x, In x l -> f x = true) -> List.filter f l = l.
Proof.
  induction l as [|x r IH]; [reflexivity|]. intros Hall. simpl.
  rewrite (Hall x) by now left.
  f_equal. apply IH. intros y Hy. apply Hall. now right.
Qed.

(** X14. [searchSigns] ignores the case of an ASCII query: the query and
    its capitalised form give the same result; the empty query returns the
    whole library; and every entry is found by its own display name. *)
Theorem search_ignores_case :
  (forall query, JsText.ascii_only query ->
     searchSigns (toUpperCase query) = searchSigns query)
  /\ searchSigns EmptyString = getAllSigns
  /\ (forall e, In e getAllSigns -> In e (searchSigns (entry_name e))).
Proof.
  split; [|split].
  - intros q Hq. unfold SignLibrary.searchSigns.
    rewrite (toUpperCase_ascii q Hq).
    rewrite (toLowerCase_ascii _ (upper_ascii_only q Hq)).
    rewrite (toLowerCase_ascii q Hq). now rewrite lower_upper_ascii.
  - unfold SignLibrary.searchSigns.
    rewrite (toLowerCase_ascii EmptyString) by reflexivity.
    apply filter_all_true. intros e _. apply includes_empty.
  - intros e Hin. unfold SignLibrary.searchSigns.
    apply filter_In. split; [exact Hin|apply includes_self].
Qed.

End LibraryFacts.

(** ** The heuristic classifiers *)

Import Landmarks HandFeatures AslClassifier.

Section ClassifierFacts.

Context {num : Type} `{JsNumber num}.

Lemma at_index_ok (l : list (point num)) i :
  (i < length l)%nat -> exists p, at_index l i = Done p.
Proof.
  intros Hi. unfold at_index.
  destruct (lookup_lt_is_Some_2 l i Hi) as [p ->]. now exists p.
Qed.

Lemma isFingerExtended_ok (l : list (point num)) tip mcp :
  length l = 21%nat -> (tip < 21)%nat -> (mcp < 21)%nat ->
  exists b, isFingerExtended l tip mcp = Done b.
Proof.
  intros Hl Ht Hm. unfold isFingerExtended.
  destruct (at_index_ok l tip) as [p ->]; [lia|].
  destruct (at_index_ok l mcp) as [q ->]; [lia|].
  destruct (at_index_ok l 0) as [w ->]; [lia|].
  simpl. eauto.
Qed.

(** The five flags and the landmarks the branches read, for a hand of 21
    landmarks. *)
Lemma hand_reads (l : list (point num)) :
  length l = 21%nat ->
  exists thumb index middle ring pinky wrist p2 p4 p8 p12,
    isFingerExtended l THUMB_TIP THUMB_MCP = Done thumb
    /\ isFingerExtended l INDEX_TIP INDEX_MCP = Done index
    /\ isFingerExtended l MIDDLE_TIP MIDDLE_MCP = Done middle
    /\ isFingerExtended l RING_TIP RING_MCP = Done ring
    /\ isFingerExtended l PINKY_TIP PINKY_MCP = Done pinky
    /\ at_index l 0 = Done wrist /\ at_index l 2 = Done p2
    /\ at_index l 4 = Done p4 /\ at_index l 8 = Done p8
    /\ at_index l 12 = Done p12.
Proof.
  intros Hl.
  destruct (isFingerExtended_ok l THUMB_TIP THUMB_MCP Hl) as [t Ht];
    [unfold THUMB_TIP; lia|unfold THUMB_MCP; lia|].
  destruct (isFingerExtended_ok l INDEX_TIP INDEX_MCP Hl) as [i Hi];
    [unfold INDEX_TIP; lia|unfold INDEX_MCP; lia|].
  destruct (isFingerExtended_ok l MIDDLE_TIP MIDDLE_MCP Hl) as [m Hm];
    [unfold MIDDLE_TIP; lia|unfold MIDDLE_MCP; lia|].
  destruct (isFingerExtended_ok l RING_TIP RING_MCP Hl) as [r Hr];
    [unfold RING_TIP; lia|unfold RING_MCP; lia|].
  destruct (isFingerExtended_ok l PINKY_TIP PINKY_MCP Hl) as [p Hp];
    [unfold PINKY_TIP; lia|unfold PINKY_MCP; lia|].
  destruct (at_index_ok l 0) as [w Hw]; [lia|].
  destruct (at_index_ok l 2) as [p2 H2]; [lia|].
  destruct (at_index_ok l 4) as [p4 H4]; [lia|].
  destruct (at_index_ok l 8) as [p8 H8]; [lia|].
  destruct (at_index_ok l 12) as [p12 H12]; [lia|].
  exists t, i, m, r, p, w, p2, p4, p8, p12. tauto.
Qed.

Lemma detect_range (l : list (point num)) :
  length l = 21%nat ->
  exists d, detectReliableSign l = Done d /\ well_found d.
Proof.
  intros Hl.
  destruct (hand_reads l Hl)
    as (t & i & m & r & p & w & p2 & p4 & p8 & p12
        & Ht & Hi & Hm & Hr & Hp & Hw & H2 & H4 & H8 & H12).
  unfold detectReliableSign. rewrite Ht, Hi, Hm, Hr, Hp.
  unfold THUMB_TIP, INDEX_TIP, MIDDLE_TIP. rewrite ?Hw, ?H2, ?H4, ?H8, ?H12.
  assert (Hin : forall s c,
             In s (RELIABLE_SIGNS ++ ["NO"]) ->
             Qle_bool (88 # 100) c = true ->
             exists d, Done (found s c) = Done d /\ well_found d).
  { intros s c Hs Hc. exists (found s c). split; [reflexivity|].
    right. now exists s. }
  assert (Hno : exists d, Done no_match = Done d /\ well_found d).
  { exists no_match. split; [reflexivity|now left]. }
  destruct t, i, m, r, p; simpl;
    repeat match goal with
      | |- context [if ?b then _ else _] => destruct b
      end;
    try exact Hno; apply Hin; (reflexivity || (simpl; tauto)).
Qed.

(** X15. [classifyASLSign] never reports [method = 'error'] for an array
    of landmark objects, and its 85% test never rejects anything: for 21
    landmarks it returns exactly the sign and confidence of
    [detectReliableSign].  A reported sign is one of
    [getSupportedSigns()] or "NO", comes with a confidence of at least
    0.88, [method = 'heuristic'] and the handedness passed in ("Right" when
    omitted); without a sign the result is the plain 'none' object. *)
Theorem classify_passes_every_detection :
  forall (landmarks : option (list (point num))) handedness,
    let c := classifyASLSign landmarks handedness in
    c_method c <> "error"
    /\ (c_sign c = None -> c = none)
    /\ (forall s, c_sign c = Some s ->
          c_method c = "heuristic"
          /\ c_handedness c = Some (default "Right" handedness)
          /\ (In s getSupportedSigns \/ s = "NO")
          /\ Qle_bool (88 # 100) (c_confidence c) = true)
    /\ (forall l, landmarks = Some l -> length l = 21%nat ->
          exists d, detectReliableSign l = Done d
                    /\ c_sign c = d_sign d
                    /\ c_confidence c = d_confidence d).
Proof.
  intros landmarks handedness c. unfold c, classifyASLSign.
  destruct landmarks as [l|];
    [|split; [discriminate|]; split; [reflexivity|];
      split; intros; discriminate].
  destruct (Nat.eqb_spec (length l) 21) as [Hl|Hl]; simpl;
    [|split; [discriminate|]; split; [reflexivity|];
      split; [intros; discriminate|]; intros l' [= <-] Hl'; contradiction].
  destruct (detect_range l Hl) as (d & Hdet & Hd). rewrite Hdet.
  destruct Hd as [->|(s & Hs & Hin & Hc)].
  - simpl. split; [discriminate|]. split; [reflexivity|].
    split; [intros; discriminate|].
    intros l' [= <-] _. exists no_match. now repeat split.
  - rewrite Hs.
    assert (Hn : JsText.nonempty s = true).
    { simpl in Hin.
      repeat (destruct Hin as [<-|Hin]; [reflexivity|]). contradiction. }
    assert (H85 : Qle_bool (85 # 100) (d_confidence d) = true).
    { apply Qle_bool_iff. apply Qle_bool_iff in Hc.
      eapply Qle_trans; [|exact Hc]. discriminate. }
    rewrite Hn, H85. simpl. split; [discriminate|]. split; [discriminate|].
    split.
    + intros s' [= <-]. repeat split; [|exact Hc].
      apply in_app_or in Hin. destruct Hin as [Hin|[<-|[]]]; [now left|].
      now right.
    + intros l' [= <-] _. now exists d.
Qed.

(** X16. "NO" is detected although [getSupportedSigns()] does not list it:
    when only the thumb is extended, its tip is not clearly above the
    wrist, and it lies more than 0.05 below the thumb base and more than
    0.08 below the wrist, [classifyASLSign] answers "NO" with confidence
    0.88. *)
Theorem thumbs_down_detected_but_unlisted :
  ~ In "NO" getSupportedSigns
  /\ forall (l : list (point num)) handedness thumbTip wrist thumbBase,
       length l = 21%nat ->
       isFingerExtended l THUMB_TIP THUMB_MCP = Done true ->
       isFingerExtended l INDEX_TIP INDEX_MCP = Done false ->
       isFingerExtended l MIDDLE_TIP MIDDLE_MCP = Done false ->
       isFingerExtended l RING_TIP RING_MCP = Done false ->
       isFingerExtended l PINKY_TIP PINKY_MCP = Done false ->
       at_index l 4 = Done thumbTip -> at_index l 0 = Done wrist ->
       at_index l 2 = Done thumbBase ->
       lt (py thumbTip) (sub (py wrist) (literal (12 # 100))) = false ->
       gt (py thumbTip) (add (py thumbBase) (literal (5 # 100))) = true ->
       gt (py thumbTip) (add (py wrist) (literal (8 # 100))) = true ->
       classifyASLSign (Some l) handedness
       = {| c_sign := Some "NO"; c_confidence := 88 # 100;
            c_method := "heuristic";
            c_handedness := Some (default "Right" handedness) |}.
Proof.
  split.
  - unfold getSupportedSigns, RELIABLE_SIGNS. simpl.
    intros Hin. repeat (destruct Hin as [Hin|Hin]; [discriminate Hin|]).
    exact Hin.
  - intros l h p4 w p2 Hl Ht Hi Hm Hr Hp H4 H0 H2 Hup Hd1 Hd2.
    unfold classifyASLSign. rewrite Hl. simpl.
    unfold detectReliableSign. rewrite Ht, Hi, Hm, Hr, Hp.
    unfold THUMB_TIP. simpl. rewrite H4, H0, H2. simpl.
    now rewrite Hup, Hd1, Hd2.
Qed.

(** X17. The legacy path never stops with a [TypeError] and never uses its
    two low-confidence branches: for features made by
    [extractHandFeatures], [recognizeSign] answers with confidence 0, 0.85
    or 0.9, never 0.7; for a missing argument or an array of another
    length than 21 it answers "no sign"; and for 21 landmarks the features
    exist, keep the landmarks, and count as extended exactly the fingers
    flagged as extended. *)
Theorem extracted_features_never_fall_back :
  forall arg : option (list (point num)),
    (exists rec,
       recognizeLandmarks arg = Done rec
       /\ confidence rec <> 7 # 10
       /\ ((arg = None \/ exists l, arg = Some l /\ length l <> 21%nat) ->
           rec = unknown))
    /\ (forall l, arg = Some l -> length l = 21%nat ->
        exists f,
          extractHandFeatures arg = Done (Some f)
          /\ landmarks f = l
          /\ hf_extendedCount f
             = count_true [hf_thumbExtended f; hf_indexExtended f;
                           hf_middleExtended f; hf_ringExtended f;
                           hf_pinkyExtended f]).
Proof.
  intros [l|]; unfold recognizeLandmarks, extractHandFeatures;
    [|split; [exists unknown; now repeat split|intros; discriminate]].
  destruct (Nat.eqb_spec (length l) 21) as [Hl|Hl]; simpl;
    [|split; [exists unknown; now repeat split
             |intros l' [= <-] Hl'; contradiction]].
  destruct (hand_reads l Hl)
    as (t & i & m & r & p & w & p2 & p4 & p8 & p12
        & Ht & Hi & Hm & Hr & Hp & Hw & H2 & H4 & H8 & H12).
  rewrite Ht, Hi, Hm, Hr, Hp.
  unfold WRIST, THUMB_TIP, INDEX_TIP, MIDDLE_TIP. rewrite Hw, H4, H8, H12.
  simpl. split.
  - eexists. split; [reflexivity|]. split.
    + destruct t, i, m, r, p; simpl; discriminate.
    + intros [Habs|(l' & [= <-] & Hl')]; [discriminate|contradiction].
  - intros l' [= <-] _. eexists. repeat split.
Qed.

(** X18. The two heuristic classifiers on the same 21 landmarks.  They
    agree on the fist: each says "STOP" exactly when the other does.  What
    [classifyASLSign] calls "NO" the legacy [recognizeSign] calls "YES",
    what it calls "3" the legacy path calls "PEACE", and its "L", "LOVE"
    and "Y" are unknown to the legacy path. *)
Theorem classifiers_compared :
  forall (l : list (point num)) handedness,
    length l = 21%nat ->
    exists rec,
      recognizeLandmarks (Some l) = Done rec
      /\ let c := classifyASLSign (Some l) handedness in
         (sign rec = Some "STOP" <-> c_sign c = Some "STOP")
         /\ (c_sign c = Some "NO" -> sign rec = Some "YES")
         /\ (c_sign c = Some "3" -> sign rec = Some "PEACE")
         /\ (c_sign c = Some "L" \/ c_sign c = Some "LOVE"
             \/ c_sign c = Some "Y" -> sign rec = None).
Proof.
  intros l h Hl.
  destruct (hand_reads l Hl)
    as (t & i & m & r & p & w & p2 & p4 & p8 & p12
        & Ht & Hi & Hm & Hr & Hp & Hw & H2 & H4 & H8 & H12).
  unfold recognizeLandmarks, extractHandFeatures, classifyASLSign,
    detectReliableSign.
  rewrite Hl, Ht, Hi, Hm, Hr, Hp.
  unfold WRIST, THUMB_TIP, INDEX_TIP, MIDDLE_TIP.
  rewrite ?Hw, ?H2, ?H4, ?H8, ?H12.
  eexists. split; [reflexivity|].
  destruct t, i, m, r, p; simpl;
    repeat match goal with
      | |- context [if ?b then _ else _] => destruct b
      end;
    simpl; repeat split; intros; try discriminate; try reflexivity;
    repeat match goal with
      | Hx : _ \/ _ |- _ => destruct Hx
      end; discriminate.
Qed.

End ClassifierFacts.
(** ** The sign smoother *)

Import Smoother.

Lemma in_use_shape s :
  in_use s ->
  windowSize s = 3%nat /\ threshold s = (4 # 10)%Q
  /\ (length (window s) <= 3)%nat.
Proof.
  induction 1 as [|pushed now sign c s Hs (Hw & Ht & Hl)|s Hs (Hw & Ht & Hl)].
  - repeat split. simpl. lia.
  - unfold addSign; simpl. repeat split; [exact Hw|exact Ht|].
    rewrite Hw.
    etransitivity; [apply List.filter_length_le|].
    destruct (Nat.ltb_spec 3 (length (window s ++ [ {| item_sign := sign;
                 item_confidence := c; timestamp := pushed |} ]))) as [Hgt|Hle];
      [|exact Hle].
    destruct (window s) as [|a q]; [simpl in Hgt; lia|].
    simpl in *. rewrite length_app in *. simpl in *. lia.
  - repeat split; [exact Hw|exact Ht|simpl; lia].
Qed.

(** X19. The exported smoother keeps at most three items and only fresh
    ones: after any sequence of [addSign] and [reset] the window has at
    most 3 items, and right after an [addSign] every item is less than
    2000 ms older than the time read for the age test; the item just added
    is the last of the window when it passes that test itself, and is
    dropped at once otherwise. *)
Theorem smoother_window_bounded_and_fresh :
  forall s, in_use s ->
    (length (window s) <= 3)%nat
    /\ forall pushed now sign confidence,
         let s' := addSign pushed now sign confidence s in
         let it := {| item_sign := sign; item_confidence := confidence;
                      timestamp := pushed |} in
         (length (window s') <= 3)%nat
         /\ (forall x, In x (window s') -> now - timestamp x < 2000)
         /\ (if now - pushed <? 2000 then last (window s') = Some it
             else ~ In it (window s')).
Proof.
  intros s Hs. destruct (in_use_shape s Hs) as (Hw & _ & Hl).
  split; [exact Hl|]. intros pushed now sign c s' it.
  split; [exact (proj2 (proj2 (in_use_shape s' (in_use_add _ _ _ _ s Hs))))|].
  split.
  - intros x Hx. unfold s', addSign in Hx; simpl in Hx.
    apply filter_In in Hx. destruct Hx as [_ Hx].
    now apply Z.ltb_lt in Hx.
  - unfold s', addSign; simpl. fold it. rewrite Hw.
    assert (Hw2 : exists pre,
               (if (3 <? length (window s ++ [it]))%nat
                then tail (window s ++ [it]) else window s ++ [it])
               = pre ++ [it]).
    { destruct (window s) as [|a q]; [now exists []|].
      destruct (3 <? length ((a :: q) ++ [it]))%nat;
        [now exists q|now exists (a :: q)]. }
    destruct Hw2 as [pre ->]. rewrite List.filter_app. simpl.
    destruct (Z.ltb_spec (now - pushed) 2000) as [Hf|Hf].
    + apply last_snoc.
    + rewrite app_nil_r. intros Hin. apply filter_In in Hin.
      destruct Hin as [_ Hin]. apply Z.ltb_lt in Hin. simpl in Hin. lia.
Qed.

Section SmootherFacts.

Variable inherited : string -> bool.

Local Abbreviation bump := (bump inherited).
Local Abbreviation tally := (tally inherited).
Local Abbreviation getStableSign := (getStableSign inherited).

Lemma bump_own k k' cs :
  own k' (bump k cs)
  = if String.eqb k k'
    then Some match own k cs with
              | Some (Count n) => Count (S n)
              | Some Junk => Junk
              | None => if inherited k then Junk else Count 1
              end
    else own k' cs.
Proof.
  induction cs as [|[k0 v] rest IH]; simpl.
  - reflexivity.
  - destruct (String.eqb_spec k0 k) as [->|Hk0]; simpl.
    + now destruct (String.eqb k k').
    + rewrite IH. destruct (String.eqb_spec k k') as [<-|Hk]; [|reflexivity].
      apply String.eqb_neq in Hk0. now rewrite Hk0.
Qed.

Lemma bump_keys_in k k' cs :
  In k' (List.map fst (bump k cs)) -> k' = k \/ In k' (List.map fst cs).
Proof.
  induction cs as [|[k0 v] rest IH]; simpl.
  - intros [<-|[]]. now left.
  - destruct (String.eqb k0 k); simpl; [now right|].
    intros [<-|Hin]; [right; now left|].
    destruct (IH Hin) as [->|Hr]; [now left|right; now right].
Qed.

Lemma bump_nodup k cs :
  List.NoDup (List.map fst cs) -> List.NoDup (List.map fst (bump k cs)).
Proof.
  induction cs as [|[k0 v] rest IH]; simpl; intros Hnd.
  - constructor; [intros []|constructor].
  - apply NoDup_cons_iff in Hnd. destruct Hnd as [Hk0 Hnd].
    destruct (String.eqb_spec k0 k) as [->|Hne]; simpl.
    + apply NoDup_cons_iff. now split.
    + apply NoDup_cons_iff. split; [|now apply IH].
      intros Hin. destruct (bump_keys_in _ _ _ Hin) as [->|Hr]; auto.
Qed.

Lemma votes_snoc k w it :
  votes k (w ++ [it])
  = (votes k w
     + if match counts_for it with
          | Some k' => String.eqb k' k
          | None => false
          end
       then 1 else 0)%nat.
Proof.
  unfold votes. rewrite List.filter_app, length_app. simpl.
  now destruct (match counts_for it with Some _ => _ | None => _ end).
Qed.

Lemma tally_snoc w it :
  tally (w ++ [it])
  = match counts_for it with
    | Some k => bump k (tally w)
    | None => tally w
    end.
Proof. unfold Smoother.tally. now rewrite fold_left_app. Qed.

Lemma tally_own k w :
  own k (tally w)
  = if (votes k w =? 0)%nat then None
    else Some (if inherited k then Junk else Count (votes k w)).
Proof.
  induction w as [|it w IH] using rev_ind; [reflexivity|].
  rewrite tally_snoc, votes_snoc.
  destruct (counts_for it) as [k0|]; [|rewrite Nat.add_0_r; exact IH].
  rewrite bump_own.
  destruct (String.eqb_spec k0 k) as [->|Hk];
    [|rewrite Nat.add_0_r; exact IH].
  rewrite IH, Nat.add_1_r. destruct (votes k w) as [|n]; simpl.
  - reflexivity.
  - now destruct (inherited k).
Qed.

Lemma tally_nodup w : List.NoDup (List.map fst (tally w)).
Proof.
  induction w as [|it w IH] using rev_ind; [constructor|].
  rewrite tally_snoc. destruct (counts_for it); [|exact IH].
  now apply bump_nodup.
Qed.

Lemma own_of_In {A} k (v : A) cs :
  List.NoDup (List.map fst cs) -> In (k, v) cs -> own k cs = Some v.
Proof.
  induction cs as [|[k0 v0] rest IH]; simpl; [intros _ []|].
  intros Hnd. apply NoDup_cons_iff in Hnd. destruct Hnd as [Hk0 Hnd].
  intros [[= -> ->]|Hin]; [now rewrite String.eqb_refl|].
  destruct (String.eqb_spec k0 k) as [->|Hne]; [|now apply IH].
  exfalso. apply Hk0. apply in_map_iff. now exists (k, v).
Qed.

Lemma In_of_own {A} k (v : A) cs : own k cs = Some v -> In (k, v) cs.
Proof.
  induction cs as [|[k0 v0] rest IH]; simpl; [discriminate|].
  destruct (String.eqb_spec k0 k) as [->|Hne];
    [intros [= ->]; now left|right; now apply IH].
Qed.

Lemma insert_index_In n e acc (x : N * (string * cell)) :
  In x (insert_index n e acc) <-> x = (n, e) \/ In x acc.
Proof.
  induction acc as [|[m e'] rest IH]; simpl; [intuition|].
  destruct (n <? m)%N; simpl; [intuition|]. rewrite IH. intuition.
Qed.

Lemma indexed_In cs acc (x : N * (string * cell)) :
  In x (fold_left (fun acc e => match array_index (fst e) with
                                | Some n => insert_index n e acc
                                | None => acc
                                end) cs acc)
  <-> In x acc
      \/ (In (snd x) cs /\ array_index (fst (snd x)) = Some (fst x)).
Proof.
  revert acc. induction cs as [|e rest IH]; intros acc; simpl;
    [intuition|].
  rewrite IH. destruct (array_index (fst e)) as [n|] eqn:He.
  - rewrite insert_index_In. split.
    + intros [[->|Hacc]|[Hin Hx]]; simpl; auto.
    + intros [Hacc|[[->|Hin] Hx]]; auto.
      left. left. destruct x as [m e']. simpl in *. congruence.
  - split.
    + intros [Hacc|[Hin Hx]]; auto.
    + intros [Hacc|[[->|Hin] Hx]]; auto. congruence.
Qed.

Lemma entries_In e cs : In e (entries cs) <-> In e cs.
Proof.
  unfold entries. rewrite in_app_iff, in_map_iff, filter_In. split.
  - intros [(x & <- & Hx)|[Hin _]]; [|exact Hin].
    apply indexed_In in Hx. now destruct Hx as [[]|[Hin _]].
  - intros Hin. destruct (array_index (fst e)) as [n|] eqn:He.
    + left. exists (n, e). split; [reflexivity|].
      apply indexed_In. right. now split.
    + right. now split.
Qed.

Lemma better_chooses limit l best :
  fold_left (better limit) l best = best
  \/ exists e n,
       In e l /\ snd e = Count n
       /\ Qle_bool limit (inject_Z (Z.of_nat n)) = true
       /\ fold_left (better limit) l best = (Some (fst e), n).
Proof.
  revert best. induction l as [|a rest IH]; intros best; simpl;
    [now left|].
  destruct (IH (better limit best a)) as [Hsame|(e & n & Hin & He & Hq & Hr)].
  - rewrite Hsame. unfold better.
    destruct (snd a) as [n|] eqn:Ha; [|now left].
    destruct (snd best <? n)%nat; simpl; [|now left].
    destruct (Qle_bool limit (inject_Z (Z.of_nat n))) eqn:Hq; [|now left].
    right. exists a, n. auto.
  - right. exists e, n. auto.
Qed.

Lemma better_keeps limit k m l :
  (forall e n, In e l -> snd e = Count n ->
               Qle_bool limit (inject_Z (Z.of_nat n)) = true ->
               e = (k, Count m)) ->
  fold_left (better limit) l (Some k, m) = (Some k, m).
Proof.
  induction l as [|a rest IH]; intros Hone; simpl; [reflexivity|].
  assert (Ha : better limit (Some k, m) a = (Some k, m)).
  { unfold better. destruct (snd a) as [n|] eqn:Hn; [|reflexivity].
    destruct (Qle_bool limit (inject_Z (Z.of_nat n))) eqn:Hq;
      [|now rewrite andb_false_r].
    pose proof (Hone a n (or_introl eq_refl) Hn Hq) as ->.
    injection Hn as <-. simpl. now rewrite Nat.ltb_irrefl. }
  rewrite Ha. apply IH. intros e n Hin. apply Hone. now right.
Qed.

Lemma better_finds limit k m l :
  (forall e n, In e l -> snd e = Count n ->
               Qle_bool limit (inject_Z (Z.of_nat n)) = true ->
               e = (k, Count m)) ->
  In (k, Count m) l -> (0 < m)%nat ->
  Qle_bool limit (inject_Z (Z.of_nat m)) = true ->
  fold_left (better limit) l (None, 0%nat) = (Some k, m).
Proof.
  induction l as [|a rest IH]; intros Hone Hin Hm Hq; simpl; [destruct Hin|].
  assert (Hrest : forall e n, In e rest -> snd e = Count n ->
                    Qle_bool limit (inject_Z (Z.of_nat n)) = true ->
                    e = (k, Count m)).
  { intros e n He. apply Hone. now right. }
  unfold better at 2.
  destruct (snd a) as [n|] eqn:Hn.
  - destruct (Qle_bool limit (inject_Z (Z.of_nat n))) eqn:Hqa.
    + pose proof (Hone a n (or_introl eq_refl) Hn Hqa) as ->.
      injection Hn as <-. simpl.
      destruct (Nat.ltb_spec 0 m) as [_|Hle]; [|lia]. simpl.
      now apply better_keeps.
    + rewrite andb_false_r. apply IH; auto.
      destruct Hin as [->|Hin]; [|exact Hin].
      simpl in Hn. injection Hn as <-. congruence.
  - apply IH; auto. destruct Hin as [->|Hin]; [discriminate Hn|exact Hin].
Qed.

Lemma votes_le k w : (votes k w <= length w)%nat.
Proof. apply List.filter_length_le. Qed.

Lemma votes_apart k k' w :
  k <> k' -> (votes k w + votes k' w <= length w)%nat.
Proof.
  intros Hne. unfold votes. induction w as [|it w IH]; simpl; [lia|].
  destruct (counts_for it) as [k0|]; [|lia].
  destruct (String.eqb_spec k0 k) as [->|H1];
    destruct (String.eqb_spec k k') as [->|H2]; simpl; try lia;
    try contradiction.
  - destruct (String.eqb_spec k0 k'); simpl; lia.
Qed.

Lemma votes_nonempty k w :
  (0 < votes k w)%nat -> JsText.nonempty k = true.
Proof.
  unfold votes. induction w as [|it w IH]; simpl; [lia|].
  destruct (counts_for it) as [k0|] eqn:Hc; [|exact IH].
  destruct (String.eqb_spec k0 k) as [->|Hne]; [intros _|exact IH].
  unfold counts_for in Hc. destruct (item_sign it) as [k1|]; [|discriminate].
  destruct (JsText.nonempty k1) eqn:Hn; [|discriminate]. simpl in Hc.
  destruct (Qle_bool _ _); [discriminate|]. simpl in Hc. congruence.
Qed.

Lemma limit_of_three n :
  Qle_bool (inject_Z (Z.of_nat 3) * (4 # 10)) (inject_Z (Z.of_nat n))
  = (2 <=? n)%nat.
Proof.
  unfold Qle_bool. cbn [Qnum Qden Qmult inject_Z].
  change (Z.of_nat 3 * 4 * 1)%Z with 12%Z.
  change (Z.pos (1 * 10)) with 10%Z.
  destruct (Z.leb_spec 12 (Z.of_nat n * 10));
    destruct (Nat.leb_spec 2 n); try reflexivity; lia.
Qed.

(** X20. The exported smoother reports a sign exactly when at least two
    items of its window count for it (a non-empty sign with a confidence
    above 0.5) and the sign is not the name of a member of
    [Object.prototype]; the confidence it reports is then that number of
    items divided by 3, and 0 when it reports no sign. *)
Theorem stable_sign_needs_two_votes :
  forall s, in_use s ->
    let r := getStableSign s in
    (forall k, stable_sign r = Some k
               <-> (2 <= votes k (window s))%nat /\ inherited k = false)
    /\ (forall k, stable_sign r = Some k ->
          stable_confidence r
          = (inject_Z (Z.of_nat (votes k (window s))) / inject_Z 3)%Q)
    /\ (stable_sign r = None -> stable_confidence r = 0%Q).
Proof.
  intros s Hs r. destruct (in_use_shape s Hs) as (Hw & Ht & Hl).
  assert (Hsome : forall k,
             stable_sign r = Some k ->
             (2 <= votes k (window s))%nat /\ inherited k = false
             /\ stable_confidence r
                = (inject_Z (Z.of_nat (votes k (window s))) / inject_Z 3)%Q).
  { intros k. unfold r, Smoother.getStableSign.
    destruct (length (window s) =? 0)%nat; [discriminate|]. simpl.
    rewrite Hw, Ht.
    destruct (better_chooses (inject_Z (Z.of_nat 3) * (4 # 10))
                (entries (tally (window s))) (None, 0%nat))
      as [->|(e & n & Hin & He & Hq & ->)]; [discriminate|].
    simpl. intros [= Hk]. rewrite limit_of_three in Hq.
    apply Nat.leb_le in Hq. rewrite entries_In in Hin.
    destruct e as [k0 v]. simpl in He, Hk. subst k0 v.
    apply (own_of_In _ _ _ (tally_nodup (window s))) in Hin.
    rewrite tally_own in Hin.
    destruct (votes k (window s)) as [|v] eqn:Hv; [discriminate|].
    simpl in Hin. destruct (inherited k); [discriminate|].
    injection Hin as <-.
    cbn [fst]. rewrite (votes_nonempty k (window s)) by (rewrite Hv; lia).
    repeat split. exact Hq. }
  split; [|split].
  - intros k. split; [intros Hk; split; apply (Hsome k Hk)|].
    intros [Hv Hi]. unfold r, Smoother.getStableSign.
    pose proof (votes_le k (window s)) as Hle.
    destruct (Nat.eqb_spec (length (window s)) 0) as [H0|_]; [lia|].
    simpl. rewrite Hw, Ht.
    rewrite (better_finds _ k (votes k (window s))); [reflexivity| | |lia|].
    + intros [k' v] n Hin Hn Hq. simpl in Hn. subst v.
      rewrite limit_of_three in Hq. apply Nat.leb_le in Hq.
      rewrite entries_In in Hin.
      apply (own_of_In _ _ _ (tally_nodup (window s))) in Hin.
      rewrite tally_own in Hin.
      destruct (votes k' (window s) =? 0)%nat; [discriminate|].
      destruct (inherited k'); [discriminate|]. injection Hin as Hn.
      destruct (String.eqb_spec k k') as [<-|Hne]; [now rewrite Hn|].
      pose proof (votes_apart k k' (window s) Hne). lia.
    + rewrite entries_In. apply In_of_own. rewrite tally_own, Hi.
      destruct (Nat.eqb_spec (votes k (window s)) 0); [lia|reflexivity].
    + rewrite limit_of_three. now apply Nat.leb_le.
  - intros k Hk. apply (Hsome k Hk).
  - unfold r, Smoother.getStableSign.
    destruct (length (window s) =? 0)%nat; [reflexivity|]. simpl.
    now intros ->.
Qed.

End SmootherFacts.

(** *** The added facts at concrete inputs *)

Lemma wordSigns_are_upper_case_words_witness :
  wordSigns upper_ascii "Hi, you!" = ["HI"; "YOU"]
  /\ "YOU" <> EmptyString
  /\ all_chars (fun c => is_upper c || is_digit c || (code c =? 95)%nat)
       "YOU" = true.
Proof.
  split; [reflexivity|].
  apply (wordSigns_are_upper_case_words upper_ascii (fun s _ => eq_refl)
           "Hi, you!" eq_refl "YOU").
  vm_compute. tauto.
Defined.

Lemma wordSigns_round_trip_witness :
  Store.join " " (wordSigns upper_ascii "Hi, you!") = "HI YOU"
  /\ wordSigns upper_ascii "HI YOU" = ["HI"; "YOU"].
Proof.
  split; [reflexivity|].
  exact (wordSigns_round_trip upper_ascii (fun s _ => eq_refl) "Hi, you!"
           eq_refl).
Defined.

Lemma text_to_sign_alert_witness :
  let failed := Threw (ThrownValue (Some "fetch failed")) in
  handleTextToSign trim upper_ascii (Some "key") "?!" failed = Alerted
  /\ handleTextToSign trim upper_ascii None "  " failed = Ignored
  /\ (forall shown,
        handleTextToSign trim upper_ascii None "Hi, you!" failed
        = Showed shown -> shown = ["HI"; "YOU"])
  /\ request (Some "demo") "?!" = None.
Proof.
  intros failed.
  destruct (text_to_sign_alert trim upper_ascii (fun s _ => eq_refl)
              (fun s _ => eq_refl) (Some "key") "?!" failed eq_refl)
    as (_ & Halert & _).
  destruct (text_to_sign_alert trim upper_ascii (fun s _ => eq_refl)
              (fun s _ => eq_refl) None "  " failed eq_refl)
    as (Hblank & _).
  destruct (text_to_sign_alert trim upper_ascii (fun s _ => eq_refl)
              (fun s _ => eq_refl) None "Hi, you!" failed eq_refl)
    as (_ & _ & Hshow & _).
  destruct (text_to_sign_alert trim upper_ascii (fun s _ => eq_refl)
              (fun s _ => eq_refl) (Some "demo") "?!" failed eq_refl)
    as (_ & _ & _ & Hreq & _).
  split; [|split; [|split]].
  - apply Halert. split; [reflexivity|]. split; [|reflexivity].
    right. now exists (ThrownValue (Some "fetch failed")).
  - apply Hblank. reflexivity.
  - intros shown Hshown. exact (proj1 (Hshow shown Hshown)).
  - exact (Hreq eq_refl).
Defined.

Lemma recognizeSign_answers_witness :
  let thumb_only :=
    Some {| extendedCount := 1; thumbExtended := true;
            indexExtended := false; middleExtended := false;
            ringExtended := false; pinkyExtended := false |} in
  sign (recognizeSign thumb_only) = Some "YES"
  /\ exists e, getSignDetails (fun _ => false) "YES" = Own e.
Proof.
  intros thumb_only. split; [reflexivity|].
  destruct (recognizeSign_answers (fun _ => false) thumb_only)
    as [(Hs & _)|(s & n & Hs & _ & _ & _ & He)]; [discriminate Hs|].
  injection Hs as <-. exact He.
Defined.

Lemma categories_partition_library_witness :
  In (entry "Yes" "Thumbs up gesture" "gesture" "thumbs_up")
    (getSignsByCategory "gesture")
  /\ getSignsByCategory "letter" = [].
Proof.
  destruct categories_partition_library as (Hin & _ & Hempty & _).
  split.
  - apply Hin. split; [vm_compute; tauto|reflexivity].
  - apply Hempty. reflexivity.
Defined.

Lemma library_entries_are_found_witness :
  let yes := entry "Yes" "Thumbs up gesture" "gesture" "thumbs_up" in
  getSignDetails (fun _ => false) "YES" = Own yes
  /\ findSignInfo upper_ascii "Yes" = Some yes
  /\ findSignInfo upper_ascii (upper_ascii "Yes") = Some yes.
Proof.
  intros yes.
  apply (library_entries_are_found (fun _ => false) upper_ascii
           (fun s _ => eq_refl) "YES" yes).
  vm_compute. tauto.
Defined.

Lemma search_ignores_case_witness :
  searchSigns lower_ascii (upper_ascii "lo") = searchSigns lower_ascii "lo"
  /\ List.map entry_name (searchSigns lower_ascii "lo") = ["Hello"; "Love"]
  /\ length (searchSigns lower_ascii EmptyString) = 13%nat.
Proof.
  destruct (search_ignores_case lower_ascii upper_ascii
              (fun s _ => eq_refl) (fun s _ => eq_refl))
    as (Hcase & Hall & _).
  split; [exact (Hcase "lo" eq_refl)|]. split; [reflexivity|].
  now rewrite Hall.
Defined.

Import RationalNumbers.

Lemma classify_passes_every_detection_witness :
  let c := classifyASLSign (Some open_hand_up) None in
  c_sign c = Some "HELLO"
  /\ c_method c = "heuristic" /\ c_handedness c = Some "Right"
  /\ Qle_bool (88 # 100) (c_confidence c) = true.
Proof.
  intros c.
  destruct (classify_passes_every_detection (Some open_hand_up) None)
    as (_ & _ & Hs & _).
  assert (Hc : c_sign c = Some "HELLO") by reflexivity.
  destruct (Hs "HELLO" Hc) as (Hm & Hh & _ & Hq).
  split; [exact Hc|]. split; [exact Hm|]. split; [exact Hh|exact Hq].
Defined.

Lemma thumbs_down_detected_but_unlisted_witness :
  length thumb_down_hand = 21%nat
  /\ classifyASLSign (Some thumb_down_hand) (Some "Left")
     = {| c_sign := Some "NO"; c_confidence := 88 # 100;
          c_method := "heuristic"; c_handedness := Some "Left" |}.
Proof.
  split; [reflexivity|].
  destruct (@thumbs_down_detected_but_unlisted Q _) as [_ Hno].
  apply (Hno thumb_down_hand (Some "Left")
           (at_xy (5 # 10) (95 # 100)) (at_xy (5 # 10) (8 # 10))
           (at_xy (5 # 10) (85 # 100)));
    reflexivity.
Defined.

Lemma extracted_features_never_fall_back_witness :
  (exists rec, recognizeLandmarks (Some open_hand_up) = Done rec
               /\ confidence rec <> 7 # 10)
  /\ recognizeLandmarks (Some (firstn 20 open_hand_up)) = Done unknown.
Proof.
  split.
  - destruct (extracted_features_never_fall_back (Some open_hand_up))
      as [(rec & Hrec & Hc & _) _].
    exists rec. split; [exact Hrec|exact Hc].
  - destruct (extracted_features_never_fall_back
                (Some (firstn 20 open_hand_up)))
      as [(rec & Hrec & _ & Hshort) _].
    rewrite Hrec. f_equal. apply Hshort. right.
    exists (firstn 20 open_hand_up). split; [reflexivity|discriminate].
Defined.

Lemma classifiers_compared_witness :
  c_sign (classifyASLSign (Some thumb_down_hand) None) = Some "NO"
  /\ exists rec, recognizeLandmarks (Some thumb_down_hand) = Done rec
                 /\ sign rec = Some "YES".
Proof.
  split; [reflexivity|].
  destruct (classifiers_compared thumb_down_hand None eq_refl)
    as (rec & Hrec & _ & Hno & _).
  exists rec. split; [exact Hrec|exact (Hno eq_refl)].
Defined.

Lemma smoother_window_bounded_and_fresh_witness :
  let s := addSign 0 10 (Some "YES") (9 # 10) signSmoother in
  let late := {| item_sign := Some "NO"; item_confidence := 9 # 10;
                 timestamp := 300 |} in
  (length (window s) <= 3)%nat
  /\ last (window (addSign 2500 2510 (Some "YES") (9 # 10) s))
     = Some {| item_sign := Some "YES"; item_confidence := 9 # 10;
               timestamp := 2500 |}
  /\ ~ In late (window (addSign 300 2400 (Some "NO") (9 # 10) s)).
Proof.
  intros s late.
  assert (Hs : in_use s) by apply in_use_add, in_use_new.
  destruct (smoother_window_bounded_and_fresh s Hs) as [Hl Hadd].
  destruct (Hadd 2500 2510 (Some "YES") (9 # 10)) as (_ & _ & Hlast).
  destruct (Hadd 300 2400 (Some "NO") (9 # 10)) as (_ & _ & Hdrop).
  split; [exact Hl|]. split; [exact Hlast|exact Hdrop].
Defined.

Lemma stable_sign_needs_two_votes_witness :
  let s := addSign 100 110 (Some "YES") (9 # 10)
             (addSign 0 10 (Some "YES") (9 # 10) signSmoother) in
  let r := getStableSign (String.eqb "constructor") s in
  votes "YES" (window s) = 2%nat
  /\ stable_sign r = Some "YES"
  /\ stable_confidence r = (inject_Z 2 / inject_Z 3)%Q.
Proof.
  intros s r.
  assert (Hs : in_use s) by (do 2 apply in_use_add; apply in_use_new).
  destruct (stable_sign_needs_two_votes (String.eqb "constructor") s Hs)
    as (Hiff & Hconf & _).
  assert (Hyes : stable_sign r = Some "YES").
  { apply Hiff. split; [vm_compute; lia|reflexivity]. }
  split; [reflexivity|]. split; [exact Hyes|exact (Hconf "YES" Hyes)].
Defined.
